(** * RedisMan-go: the RESP codec and the cursor iterators

    A shallow embedding of the packages [resp], [command] and [conn] of
    the client, and the properties of the wire codec, of the paging
    iterators, of the subscription loop and of the authentication
    handshake.

    Go strings are byte strings: they are modelled by [string], whose
    characters are the 256 byte values.  Go's [int] is taken as the 64 bit
    two's complement integer of the supported platforms and is carried
    by [Z]. *)

From Stdlib Require Import ZArith Lia Ascii String List Bool.
From stdpp Require Import base tactics option list strings gmap.

Set Warnings "-register-all,-at-level-200-changed".
Local Open Scope Z_scope.

(* ================================================================== *)
(** * Part I: definitions *)
(* ================================================================== *)

(** ** Bytes, strings and machine integers of the Go runtime *)
Module Go.

Definition CR : ascii := "013"%char.
Definition LF : ascii := "010"%char.
Definition CRLF : string := String CR (String LF "").

Definition byteval (c : ascii) : Z := Z.of_N (N_of_ascii c).
Definition byte_of (z : Z) : ascii := ascii_of_N (Z.to_N z).

(** [len(s)] *)
Definition len (s : string) : Z := Z.of_nat (String.length s).

(** The range of [int] and the wrap-around of its arithmetic. *)
Definition MinInt : Z := - 2 ^ 63.
Definition MaxInt : Z := 2 ^ 63 - 1.
Definition wrap (z : Z) : Z := (z + 2 ^ 63) mod 2 ^ 64 - 2 ^ 63.
Definition add (a b : Z) : Z := wrap (a + b).

(** Slices [s[:n]] and [s[n:]]. *)
Fixpoint take (n : nat) (s : string) : string :=
  match n, s with
  | S n', String c s' => String c (take n' s')
  | _, _ => ""
  end.

Fixpoint drop (n : nat) (s : string) : string :=
  match n, s with
  | S n', String _ s' => drop n' s'
  | _, _ => s
  end.

(** Whether every byte of [s] satisfies [p]. *)
Fixpoint allBytes (p : ascii -> bool) (s : string) : bool :=
  match s with
  | "" => true
  | String c s' => p c && allBytes p s'
  end.

(** [strings.HasPrefix] and [strings.TrimSuffix]. *)
Fixpoint HasPrefix (s p : string) : bool :=
  match p, s with
  | "", _ => true
  | String a p', String b s' => Ascii.eqb a b && HasPrefix s' p'
  | String _ _, "" => false
  end.

Fixpoint TrimSuffix (s suffix : string) : string :=
  match s with
  | "" => ""
  | String c s' =>
      if String.eqb s suffix then "" else String c (TrimSuffix s' suffix)
  end.

(** Errors of the transport and of the runtime: the text of [Error()]
    and whether [errors.As] finds a [net.Error] whose [Timeout()] holds. *)
Record error : Type := mkError { Error : string; Timeout : bool }.

(** [fmt.Errorf(prefix + "%w", err)]: the text is extended, the wrapped
    error stays reachable for [errors.As]. *)
Definition Errorf_w (prefix : string) (err : error) : error :=
  mkError (prefix +:+ Error err) (Timeout err).

End Go.

(** ** Package strconv: decimal integers *)
Module strconv.
Import Go.

Definition digit (c : ascii) : option Z :=
  let b := byteval c in
  if (48 <=? b) && (b <=? 57) then Some (b - 48) else None.

Definition isDigit (c : ascii) : bool :=
  (48 <=? byteval c) && (byteval c <=? 57).

(** The digit loop of [ParseUint]: [n = n*10 + d]. *)
Fixpoint digits (s : string) (n : Z) : option Z :=
  match s with
  | "" => Some n
  | String c s' =>
      match digit c with
      | Some d => digits s' (n * 10 + d)
      | None => None
      end
  end.

(** [strconv.ParseInt(s, 10, 64)]: an optional sign, at least one digit,
    and a value of the signed 64 bit range; anything else is an error. *)
Definition ParseInt (s : string) : option Z :=
  match s with
  | "" => None
  | String c s' =>
      let neg := Ascii.eqb c "-" in
      let body := if neg || Ascii.eqb c "+" then s' else s in
      match body with
      | "" => None
      | _ =>
          match digits body 0 with
          | Some n =>
              let v := if neg then - n else n in
              if (MinInt <=? v) && (v <=? MaxInt) then Some v else None
          | None => None
          end
      end
  end.

(** [strconv.Atoi]: [ParseInt] at the size of [int]. *)
Definition Atoi (s : string) : option Z := ParseInt s.

(** The digits of a natural number, most significant first, in front of
    [acc]. *)
Fixpoint formatBits (fuel : nat) (u : Z) (acc : string) : string :=
  match fuel with
  | O => acc
  | S fuel' =>
      let acc' := String (byte_of (48 + u mod 10)) acc in
      if u <? 10 then acc' else formatBits fuel' (u / 10) acc'
  end.

Definition utoa (u : Z) : string :=
  formatBits (S (Z.to_nat (Z.log2 u))) u "".

(** [strconv.Itoa], [strconv.FormatInt(i, 10)] and the verb [%d]. *)
Definition Itoa (i : Z) : string :=
  if i <? 0 then String "-" (utoa (- i)) else utoa i.

End strconv.

(** ** Package resp: the value model and the decoder *)
Module resp.
Import Go strconv.

Inductive ValueType : Type :=
  | TypeNone | TypeString | TypeInteger | TypeBulkString
  | TypeArray | TypeNull | TypeError.

Inductive RedisValue : Type :=
  | RedisString (Value : string)
  | RedisBulkString (Value : string) (Length : Z)
  | RedisInteger (IntValue : Z)
  | RedisArray (Values : list RedisValue)
  | RedisError (Value : string)
  | RedisNull.

Definition Type_ (v : RedisValue) : ValueType :=
  match v with
  | RedisString _ => TypeString
  | RedisBulkString _ _ => TypeBulkString
  | RedisInteger _ => TypeInteger
  | RedisArray _ => TypeArray
  | RedisError _ => TypeError
  | RedisNull => TypeNull
  end.

Definition StringValue (v : RedisValue) : string :=
  match v with
  | RedisString s => s
  | RedisBulkString s _ => s
  | RedisInteger i => Itoa i
  | RedisArray _ => ""
  | RedisError s => s
  | RedisNull => ""
  end.

(** The errors [ParseValue] returns, one constructor per error site. *)
Inductive DecodeError : Type :=
  | ErrRead                          (* the reader ran dry: io.EOF *)
  | ErrUnknownType (b : ascii)       (* "unknown RESP type byte: %q" *)
  | ErrInteger (line : string)       (* "invalid integer format: %w" *)
  | ErrBulkLength (line : string)    (* "invalid bulk string length: %w" *)
  | ErrBulkNegative (length : Z)     (* "invalid bulk string length: %d" *)
  | ErrBulkPayload                   (* "failed to read bulk string payload: %w" *)
  | ErrBulkCRLFRead                  (* "failed to read bulk string trailing CRLF: %w" *)
  | ErrBulkCRLF (crlf : string)      (* "expected CRLF after bulk string payload, got %q" *)
  | ErrArrayCount (line : string)    (* "invalid array count: %w" *)
  | ErrArrayNegative (count : Z)     (* "invalid array count: %d" *)
  | ErrArrayElement (i : Z) (e : DecodeError).
                                     (* "failed to parse array element %d: %w" *)

(** A [*bufio.Reader] over a finite input: a read consumes a prefix of
    the bytes that are left and fails once they are used up.  Slices are
    allocated without a memory limit. *)
Inductive result (A : Type) : Type :=
  | Ok (a : A) (rest : string)
  | Err (e : DecodeError)
  | OutOfFuel.
Arguments Ok {A} a rest.
Arguments Err {A} e.
Arguments OutOfFuel {A}.

Definition Reader (A : Type) : Type := string -> result A.

Definition ret {A} (a : A) : Reader A := fun r => Ok a r.
Definition fail {A} (e : DecodeError) : Reader A := fun _ => Err e.
Definition bind {A B} (m : Reader A) (k : A -> Reader B) : Reader B :=
  fun r =>
    match m r with
    | Ok a r' => k a r'
    | Err e => Err e
    | OutOfFuel => OutOfFuel
    end.

Notation "'let!' x ':=' m 'in' k" := (bind m (fun x => k))
  (at level 10, x name, m at level 100, k at level 200, only parsing).

(** [r.ReadByte()] *)
Definition ReadByte : Reader ascii :=
  fun r =>
    match r with
    | "" => Err ErrRead
    | String b r' => Ok b r'
    end.

(** [r.ReadString('\n')]: the bytes up to and including the first LF. *)
Fixpoint ReadString_LF (r : string) : result string :=
  match r with
  | "" => Err ErrRead
  | String c r' =>
      if Ascii.eqb c LF then Ok (String c "") r'
      else
        match ReadString_LF r' with
        | Ok line rest => Ok (String c line) rest
        | other => other
        end
  end.

(** [io.ReadFull(r, make([]byte, n))] for [0 <= n]; [e] is the error of
    the call site. *)
Definition ReadFull (n : Z) (e : DecodeError) : Reader string :=
  fun r =>
    if len r <? n then Err e
    else Ok (take (Z.to_nat n) r) (drop (Z.to_nat n) r).

Definition readLine : Reader string :=
  let! line := ReadString_LF in
  ret (TrimSuffix line CRLF).

Definition parseSimpleString : Reader RedisValue :=
  let! line := readLine in
  ret (RedisString line).

Definition parseError : Reader RedisValue :=
  let! line := readLine in
  ret (RedisError line).

Definition parseInteger : Reader RedisValue :=
  let! line := readLine in
  match ParseInt line with
  | None => fail (ErrInteger line)
  | Some val => ret (RedisInteger val)
  end.

Definition parseBulkString : Reader RedisValue :=
  let! line := readLine in
  match Atoi line with
  | None => fail (ErrBulkLength line)
  | Some length =>
      if length =? -1 then ret RedisNull
      else if length <? -1 then fail (ErrBulkNegative length)
      else
        let! buf := ReadFull length ErrBulkPayload in
        let! crlf := ReadFull 2 ErrBulkCRLFRead in
        if String.eqb crlf CRLF then ret (RedisBulkString buf length)
        else fail (ErrBulkCRLF crlf)
  end.

(** The element loop of [parseArray], [for i := 0; i < count; i++]:
    [values] holds the elements decoded so far.  Every element consumes
    at least its type byte, so the loop runs at most once more than there
    are bytes left; [n] carries that bound. *)
Fixpoint parseElements (PV : Reader RedisValue) (n : nat) (i count : Z)
    (values : list RedisValue) : Reader RedisValue :=
  fun r =>
    if i <? count then
      match n with
      | O => OutOfFuel
      | S n' =>
          match PV r with
          | Ok val r' => parseElements PV n' (i + 1) count (values ++ [val]) r'
          | Err e => Err (ErrArrayElement i e)
          | OutOfFuel => OutOfFuel
          end
      end
    else Ok (RedisArray values) r.

Definition parseArray (PV : Reader RedisValue) : Reader RedisValue :=
  let! line := readLine in
  match Atoi line with
  | None => fail (ErrArrayCount line)
  | Some count =>
      if count =? -1 then ret RedisNull
      else if count <? -1 then fail (ErrArrayNegative count)
      else fun r => parseElements PV (S (String.length r)) 0 count [] r
  end.

(** [ParseValue]; [fuel] bounds the nesting of arrays. *)
Fixpoint ParseValue_fuel (fuel : nat) : Reader RedisValue :=
  match fuel with
  | O => fun _ => OutOfFuel
  | S fuel' =>
      let! b := ReadByte in
      if Ascii.eqb b "+" then parseSimpleString
      else if Ascii.eqb b "-" then parseError
      else if Ascii.eqb b ":" then parseInteger
      else if Ascii.eqb b "$" then parseBulkString
      else if Ascii.eqb b "*" then parseArray (ParseValue_fuel fuel')
      else fail (ErrUnknownType b)
  end.

(** An array nested [d] deep spends at least [d] bytes on its headers:
    the length of the input is enough fuel. *)
Definition ParseValue : Reader RedisValue :=
  fun r => ParseValue_fuel (S (String.length r)) r.

End resp.

(** ** Packages unicode/utf8, unicode and strings *)
Module utf8.
Import Go.

Definition RuneError : Z := 65533.
Definition RuneSelf : Z := 128.

(** A continuation byte, [0x80..0xBF]. *)
Definition cont (b : Z) : bool := (128 <=? b) && (b <=? 191).
Definition low6 (b : Z) : Z := Z.land b 63.

(** [utf8.DecodeRuneInString]: the rune at the head of [s] and its width;
    a byte that starts no shortest-form encoding is [RuneError] of
    width 1. *)
Definition DecodeRuneInString (s : string) : Z * nat :=
  match s with
  | "" => (RuneError, 0%nat)
  | String c0 s1 =>
      let b0 := byteval c0 in
      if b0 <? RuneSelf then (b0, 1%nat)
      else if (194 <=? b0) && (b0 <=? 223) then
        match s1 with
        | String c1 _ =>
            let b1 := byteval c1 in
            if cont b1
            then (Z.lor (Z.shiftl (Z.land b0 31) 6) (low6 b1), 2%nat)
            else (RuneError, 1%nat)
        | _ => (RuneError, 1%nat)
        end
      else if (224 <=? b0) && (b0 <=? 239) then
        match s1 with
        | String c1 (String c2 _) =>
            let b1 := byteval c1 in
            let b2 := byteval c2 in
            let lo := if b0 =? 224 then 160 else 128 in
            let hi := if b0 =? 237 then 159 else 191 in
            if (lo <=? b1) && (b1 <=? hi) && cont b2
            then (Z.lor (Z.shiftl (Z.land b0 15) 12)
                    (Z.lor (Z.shiftl (low6 b1) 6) (low6 b2)), 3%nat)
            else (RuneError, 1%nat)
        | _ => (RuneError, 1%nat)
        end
      else if (240 <=? b0) && (b0 <=? 244) then
        match s1 with
        | String c1 (String c2 (String c3 _)) =>
            let b1 := byteval c1 in
            let b2 := byteval c2 in
            let b3 := byteval c3 in
            let lo := if b0 =? 240 then 144 else 128 in
            let hi := if b0 =? 244 then 143 else 191 in
            if (lo <=? b1) && (b1 <=? hi) && cont b2 && cont b3
            then (Z.lor (Z.shiftl (Z.land b0 7) 18)
                    (Z.lor (Z.shiftl (low6 b1) 12)
                       (Z.lor (Z.shiftl (low6 b2) 6) (low6 b3))), 4%nat)
            else (RuneError, 1%nat)
        | _ => (RuneError, 1%nat)
        end
      else (RuneError, 1%nat)
  end.

(** [utf8.AppendRune], the bytes [WriteRune] adds to a builder. *)
Definition EncodeRune (r : Z) : string :=
  let tx (v : Z) := byte_of (Z.lor 128 (low6 v)) in
  let three (r : Z) :=
    String (byte_of (Z.lor 224 (Z.shiftr r 12)))
      (String (tx (Z.shiftr r 6)) (String (tx r) "")) in
  if (0 <=? r) && (r <=? 127) then String (byte_of r) ""
  else if (0 <=? r) && (r <=? 2047) then
    String (byte_of (Z.lor 192 (Z.shiftr r 6))) (String (tx r) "")
  else if (r <? 0) || (1114111 <? r) || ((55296 <=? r) && (r <=? 57343))
  then three RuneError
  else if r <=? 65535 then three r
  else
    String (byte_of (Z.lor 240 (Z.shiftr r 18)))
      (String (tx (Z.shiftr r 12))
         (String (tx (Z.shiftr r 6)) (String (tx r) ""))).

End utf8.

Module unicode.

(** [unicode.IsSpace]: the Latin-1 spaces and the White_Space table. *)
Definition IsSpace (r : Z) : bool :=
  if (0 <=? r) && (r <=? 255) then
    ((9 <=? r) && (r <=? 13)) || (r =? 32) || (r =? 133) || (r =? 160)
  else
    (r =? 5760) || ((8192 <=? r) && (r <=? 8202)) || (r =? 8232)
    || (r =? 8233) || (r =? 8239) || (r =? 8287) || (r =? 12288).

End unicode.

Module strings.
Import Go utf8 unicode.

(** [strings.Index]: the first position of [substr] in [s], or -1. *)
Fixpoint Index_from (i : Z) (s substr : string) : Z :=
  if HasPrefix s substr then i
  else
    match s with
    | "" => -1
    | String _ s' => Index_from (i + 1) s' substr
    end.
Definition Index (s substr : string) : Z := Index_from 0 s substr.

(** [strings.LastIndex]: the last position of [substr] in [s], or -1. *)
Fixpoint LastIndex_from (i found : Z) (s substr : string) : Z :=
  let found' := if HasPrefix s substr then i else found in
  match s with
  | "" => found'
  | String _ s' => LastIndex_from (i + 1) found' s' substr
  end.
Definition LastIndex (s substr : string) : Z := LastIndex_from 0 (-1) s substr.

(** Leading white space: runes are decoded from the front; [skip] counts
    the bytes of the current rune still to pass. *)
Fixpoint TrimLeftSpace (s : string) (skip : nat) {struct s} : string :=
  match s with
  | "" => ""
  | String _ s' =>
      match skip with
      | S k => TrimLeftSpace s' k
      | O =>
          let (r, size) := DecodeRuneInString s in
          if IsSpace r then TrimLeftSpace s' (size - 1) else s
      end
  end.

(** Trailing white space: [enc] is white space when it is the encoding
    of one white-space rune.  A string that ends in such an encoding loses
    it; [TrimRightSpace] does so from the innermost suffix outwards. *)
Definition spaceRune (enc : string) : bool :=
  let (r, size) := DecodeRuneInString enc in
  IsSpace r && (size =? String.length enc)%nat.

Fixpoint TrimRightSpace (s : string) : string :=
  match s with
  | "" => ""
  | String c s' =>
      let t := TrimRightSpace s' in
      if spaceRune (String c t) then "" else String c t
  end.

(** [strings.TrimSpace] *)
Definition TrimSpace (s : string) : string :=
  TrimRightSpace (TrimLeftSpace s 0).

Definition isASCII (s : string) : bool :=
  allBytes (fun c => byteval c <? RuneSelf) s.

Definition upperByte (c : ascii) : ascii :=
  let b := byteval c in
  if (97 <=? b) && (b <=? 122) then byte_of (b - 32) else c.

Fixpoint mapBytes (f : ascii -> ascii) (s : string) : string :=
  match s with
  | "" => ""
  | String c s' => String (f c) (mapBytes f s')
  end.

(** [strings.ToUpper]: byte-wise on ASCII strings; the Unicode case
    tables [unicodeUpper] serve the others. *)
Definition ToUpper (unicodeUpper : string -> string) (s : string) : string :=
  if isASCII s then mapBytes upperByte s else unicodeUpper s.

(** [strings.Split] for a non-empty separator. *)
Fixpoint Split_from (s sep : string) (skip : nat) (cur : string)
    {struct s} : list string :=
  match s with
  | "" => [cur]
  | String c s' =>
      match skip with
      | S k => Split_from s' sep k cur
      | O =>
          if HasPrefix s sep
          then cur :: Split_from s' sep (String.length sep - 1) ""
          else Split_from s' sep 0 (cur +:+ String c "")
      end
  end.
Definition Split (s sep : string) : list string := Split_from s sep 0 "".

End strings.

(** ** Package command: the tokenizer and the command encoder *)
Module command.
Import Go strconv utf8 unicode strings.

(** The loop state of [tokenize]. *)
Record tokState : Type := mkTok {
  tokens : list string;
  currentToken : string;
  inQuotes : bool;
  escaped : bool
}.

(** One turn of [for _, r := range input]. *)
Definition tokStep (st : tokState) (r : Z) : tokState :=
  if escaped st then
    mkTok (tokens st) (currentToken st +:+ EncodeRune r) (inQuotes st) false
  else if r =? 92 then
    mkTok (tokens st) (currentToken st) (inQuotes st) true
  else if r =? 34 then
    mkTok (tokens st) (currentToken st) (negb (inQuotes st)) false
  else if IsSpace r && negb (inQuotes st) then
    if 0 <? len (currentToken st)
    then mkTok (tokens st ++ [currentToken st]) "" (inQuotes st) false
    else st
  else
    mkTok (tokens st) (currentToken st +:+ EncodeRune r) (inQuotes st) false.

(** The range loop over the runes of [s]; [skip] counts the bytes of the
    current rune that are still to pass. *)
Fixpoint rangeRunes (s : string) (skip : nat) (st : tokState)
    {struct s} : tokState :=
  match s with
  | "" => st
  | String _ s' =>
      match skip with
      | S k => rangeRunes s' k st
      | O =>
          let (r, size) := DecodeRuneInString s in
          rangeRunes s' (size - 1) (tokStep st r)
      end
  end.

Definition tokenize (input : string) : list string :=
  let st := rangeRunes input 0 (mkTok [] "" false false) in
  if 0 <? len (currentToken st)
  then tokens st ++ [currentToken st]
  else tokens st.

(** Words the tokenizer leaves as they are: printable ASCII other than
    the quote, the backslash and the bytes that start a codec or a pipe
    suffix. *)
Definition plainByte (c : ascii) : bool :=
  let b := byteval c in
  (33 <=? b) && (b <=? 126)
  && negb (b =? 34) && negb (b =? 35) && negb (b =? 92) && negb (b =? 124).

Definition plainWord (s : string) : bool :=
  negb (String.eqb s "") && allBytes plainByte s.

(** A command name in capital letters. *)
Definition capitals (s : string) : bool :=
  negb (String.eqb s "")
  && allBytes (fun c => (65 <=? byteval c) && (byteval c <=? 90)) s.

(** What a cut leaves of the text after a command name: nothing, or a
    text that starts with the space. *)
Definition headed (t : string) : Prop := t = "" \/ exists t', t = String " " t'.

(** [strings.Join(words, " ")] *)
Fixpoint joinWords (words : list string) : string :=
  match words with
  | [] => ""
  | [w] => w
  | w :: ws => w +:+ " " +:+ joinWords ws
  end.

Record CommandDoc : Type := mkDoc {
  Command : string;
  Summary : string;
  Arguments_ : string;
  Since : string;
  Group : string
}.

Record ParsedCommand : Type := mkParsed {
  Text : string;
  Name : string;
  Args : list string;
  CommandBytes : string;
  Modifier : string;
  Pipe : string;
  Doc : option CommandDoc
}.

(** What the package takes from outside the core: the Unicode case
    tables behind [strings.ToUpper], and package serializer, where
    [Serialize name data] is [serializer.Get(name)] followed by the
    codec's [Serialize(data)]. *)
Record Extern : Type := mkExtern {
  unicodeUpper : string -> string;
  Serialize : string -> string -> error + string
}.

(** [reg.Get] of a registry. *)
Definition Registry : Type := string -> option CommandDoc.

(** Step 6 of [Parse], the loop [for i, token := range tokens] that
    writes one bulk string per token. *)
Fixpoint encodeTokens (ext : Extern) (name modifier : string) (i : Z)
    (toks : list string) : error + string :=
  match toks with
  | [] => inr ""
  | token :: toks' =>
      let tokenBytes :=
        if String.eqb name "SET" && (i =? 2) && negb (String.eqb modifier "")
        then Serialize ext modifier token
        else inr token in
      match tokenBytes with
      | inl err => inl err
      | inr b =>
          match encodeTokens ext name modifier (i + 1) toks' with
          | inl err => inl err
          | inr tail =>
              inr ("$" +:+ Itoa (len b) +:+ CRLF +:+ b +:+ CRLF +:+ tail)
          end
      end
  end.

(** [Parse(input, reg)]: [inl err] is the result [(nil, err)], [inr p]
    the result [(p, nil)]. *)
Definition Parse (ext : Extern) (input : string) (reg : option Registry)
    : error + ParsedCommand :=
  if String.eqb (TrimSpace input) "" then inr (mkParsed "" "" [] "" "" "" None)
  else
    let text := input in
    let pipeIdx := Index input " | " in
    let pipe :=
      if pipeIdx =? -1 then ""
      else TrimSpace (drop (Z.to_nat (pipeIdx + 3)) input) in
    let input := if pipeIdx =? -1 then input else take (Z.to_nat pipeIdx) input in
    let codecIdx := LastIndex input "#:" in
    let modifier :=
      if codecIdx =? -1 then ""
      else TrimSpace (drop (Z.to_nat (codecIdx + 2)) input) in
    let input := if codecIdx =? -1 then input else take (Z.to_nat codecIdx) input in
    match tokenize input with
    | [] => inr (mkParsed text "" [] "" modifier pipe None)
    | tok0 :: args =>
        let name := ToUpper (unicodeUpper ext) tok0 in
        let doc :=
          match reg with
          | None => None
          | Some get =>
              let compound :=
                match args with
                | [] => None
                | a :: _ => get (name +:+ " " +:+ ToUpper (unicodeUpper ext) a)
                end in
              match compound with
              | Some d => Some d
              | None => get name
              end
          end in
        match encodeTokens ext name modifier 0 (tok0 :: args) with
        | inl err => inl err
        | inr body =>
            inr (mkParsed text name args
                   ("*" +:+ Itoa (Z.of_nat (length (tok0 :: args))) +:+ CRLF +:+ body)
                   modifier pipe doc)
        end
    end.

End command.

(** ** Package conn: the connection, the iterators, the subscription *)
Module conn.
Import Go strconv strings resp command.

(** How a function body ends or goes on, and how a call ends. *)
Inductive control (S R : Type) : Type :=
  | Continue (s : S)
  | Return (r : R)
  | Panic.
Arguments Continue {S R} s.
Arguments Return {S R} r.
Arguments Panic {S R}.

Inductive outcome (R : Type) : Type :=
  | Returned (r : R)
  | Panicked
  | Unfinished.
Arguments Returned {R} r.
Arguments Panicked {R}.
Arguments Unfinished {R}.

(** [for { body }]: [fuel] bounds the number of turns. *)
Fixpoint loop {S R : Type} (body : S -> control S R) (fuel : nat) (s : S)
    : outcome R :=
  match fuel with
  | O => Unfinished
  | S fuel' =>
      match body s with
      | Continue s' => loop body fuel' s'
      | Return r => Returned r
      | Panic => Panicked
      end
  end.

(** [time.Duration] counts nanoseconds. *)
Definition Millisecond : Z := 1000000.
Definition Second : Z := 1000000000.

(** The world outside the client: the network, the peer and the clock,
    in a state of type [W] that the calls on [net.Conn] and on the
    buffered reader advance.  [reader_ParseValue] is [resp.ParseValue]
    run on the reader of the live connection. *)
Class Transport (W : Type) : Type := {
  net_Dial : string -> W -> option error * W;
  conn_Write : string -> W -> option error * W;
  conn_SetReadDeadline : option Z -> W -> option error * W;
  reader_ParseValue : W -> (error + RedisValue) * W;
  conn_Close : W -> option error * W
}.

Record Connection : Type := mkConnection {
  Host : string;
  Port : string;
  ServerInfo : gmap string string
}.

(** The bytes [SendRaw] collects in its buffer. *)
Fixpoint SendRaw_args (args : list string) : string :=
  match args with
  | [] => ""
  | arg :: args' =>
      "$" +:+ Itoa (len arg) +:+ CRLF +:+ arg +:+ CRLF +:+ SendRaw_args args'
  end.

Definition SendRaw_bytes (args : list string) : string :=
  "*" +:+ Itoa (Z.of_nat (length args)) +:+ CRLF +:+ SendRaw_args args.

(** [net.JoinHostPort] *)
Definition JoinHostPort (host port : string) : string :=
  if (0 <=? Index host ":") || (0 <=? Index host "%")
  then "[" +:+ host +:+ "]:" +:+ port
  else host +:+ ":" +:+ port.

(** The verbs [%T] and [%v] on a value. *)
Definition fmt_T (v : RedisValue) : string :=
  match v with
  | RedisString _ => "resp.RedisString"
  | RedisBulkString _ _ => "resp.RedisBulkString"
  | RedisInteger _ => "resp.RedisInteger"
  | RedisArray _ => "resp.RedisArray"
  | RedisError _ => "resp.RedisError"
  | RedisNull => "resp.RedisNull"
  end.

Fixpoint fmt_v (v : RedisValue) : string :=
  match v with
  | RedisString s => "{" +:+ s +:+ "}"
  | RedisBulkString s n => "{" +:+ s +:+ " " +:+ Itoa n +:+ "}"
  | RedisInteger i => "{" +:+ Itoa i +:+ "}"
  | RedisArray vs =>
      "{[" +:+ String.concat " " (map fmt_v vs) +:+ "]}"
  | RedisError s => "{" +:+ s +:+ "}"
  | RedisNull => "{}"
  end.

(** The loop of [getServerInfo] over the lines of the INFO reply. *)
Definition infoLine (info : gmap string string) (line : string)
    : gmap string string :=
  let line := TrimSpace line in
  if String.eqb line "" || HasPrefix line "#" then info
  else
    let i := Index line ":" in
    if i =? -1 then info
    else <[take (Z.to_nat i) line := drop (Z.to_nat (i + 1)) line]> info.

Section Client.
Context {W : Type} {transport : Transport W}.
Variable ext : Extern.

Definition Send (cmd : ParsedCommand) (w : W) : option error * W :=
  conn_Write (CommandBytes cmd) w.

Definition SendRaw (args : list string) (w : W) : option error * W :=
  conn_Write (SendRaw_bytes args) w.

Definition Receive (timeout : Z) (w : W) : (error + RedisValue) * W :=
  if 0 <? timeout then
    match conn_SetReadDeadline (Some timeout) w with
    | (Some err, w1) => (inl (Errorf_w "failed to set read deadline: " err), w1)
    | (None, w1) =>
        let (res, w2) := reader_ParseValue w1 in
        let (_, w3) := conn_SetReadDeadline None w2 in
        (res, w3)
    end
  else reader_ParseValue w.

Definition Close (w : W) : option error * W := conn_Close w.

(** [getServerInfo]: the error it returns and the connection it leaves.
    A nil command makes [Send] panic. *)
Definition getServerInfo (c : Connection) (w : W)
    : outcome (option error * Connection * W) :=
  match Parse ext "INFO" None with
  | inl _ => Panicked
  | inr infoCmd =>
      match Send infoCmd w with
      | (Some err, w1) =>
          Returned (Some (Errorf_w "failed to send INFO command: " err), c, w1)
      | (None, w1) =>
          match Receive (5 * Second) w1 with
          | (inl err, w2) =>
              Returned
                (Some (Errorf_w "failed to receive INFO response: " err), c, w2)
          | (inr (RedisBulkString value _), w2) =>
              let info := fold_left infoLine (Split value CRLF) ∅ in
              Returned (None, mkConnection (Host c) (Port c) info, w2)
          | (inr response, w2) =>
              Returned
                (Some (mkError ("expected bulk string for INFO, got "
                                +:+ fmt_T response) false), c, w2)
          end
      end
  end.

(** The command line of the authentication: the legacy form without a
    user, the ACL form with one. *)
Definition authLine (user pass : string) : string :=
  if String.eqb user "" then "AUTH " +:+ pass
  else "AUTH " +:+ user +:+ " " +:+ pass.

(** [Connect]: [inl err] is the result [(nil, err)]. *)
Definition Connect (host port user pass : string) (w : W)
    : outcome ((error + Connection) * W) :=
  let address := JoinHostPort host port in
  match net_Dial address w with
  | (Some err, w0) =>
      Returned
        (inl (Errorf_w ("failed to connect to " +:+ address +:+ ": ") err), w0)
  | (None, w0) =>
      let c := mkConnection host port ∅ in
      let finish (w : W) : outcome ((error + Connection) * W) :=
        match getServerInfo c w with
        | Returned (Some err, c', w') =>
            Returned
              (inr (mkConnection (Host c') (Port c') {["error" := Error err]}), w')
        | Returned (None, c', w') => Returned (inr c', w')
        | Panicked => Panicked
        | Unfinished => Unfinished
        end in
      if negb (String.eqb pass "") then
        let authCmd :=
          if String.eqb user ""
          then Parse ext ("AUTH " +:+ pass) None
          else Parse ext ("AUTH " +:+ user +:+ " " +:+ pass) None in
        match authCmd with
        | inl _ => Panicked
        | inr authCmd =>
            match Send authCmd w0 with
            | (Some err, w1) =>
                let (_, w2) := Close w1 in
                Returned (inl (Errorf_w "failed to send AUTH command: " err), w2)
            | (None, w1) =>
                match Receive (5 * Second) w1 with
                | (inl err, w2) =>
                    let (_, w3) := Close w2 in
                    Returned
                      (inl (Errorf_w "failed to receive AUTH response: " err), w3)
                | (inr (RedisError msg), w2) =>
                    let (_, w3) := Close w2 in
                    Returned
                      (inl (mkError ("authentication failed: " +:+ msg) false), w3)
                | (inr response, w2) =>
                    let ok_value :=
                      match response with
                      | RedisString value => String.eqb value "OK"
                      | _ => false
                      end in
                    if negb ok_value then
                      let (_, w3) := Close w2 in
                      Returned
                        (inl (mkError ("unexpected AUTH response: "
                                       +:+ fmt_v response) false), w3)
                    else finish w2
                end
            end
        end
      else finish w0
  end.


(** The bytes a caller writes for a command line: those of the parsed
    command. *)
Definition request (cmdStr : string) : string :=
  match Parse ext cmdStr None with
  | inr cmd => CommandBytes cmd
  | inl _ => ""
  end.

(** *** The iterators

    An [iter.Seq] is a function of the consumer's [yield].  The consumer
    is a state [K] and the function [yield], which tells whether more
    elements are wanted; it does not touch the connection.  A sequence
    maps the world and the consumer before the range loop to both after
    it. *)
Context {K : Type}.
Variable yield : RedisValue -> K -> bool * K.

(** [yield(v); return] *)
Definition yield_return {S : Type} (v : RedisValue) (w : W) (k : K)
    : control S (W * K) :=
  Return (w, snd (yield v k)).

(** [for _, x := range xs { if !yield(x) { return } }]: whether the loop
    ran to its end. *)
Fixpoint yieldEach (xs : list RedisValue) (k : K) : bool * K :=
  match xs with
  | [] => (true, k)
  | x :: xs' =>
      let (more, k') := yield x k in
      if more then yieldEach xs' k' else (false, k')
  end.

(** The pairing loop of [SafeHash],
    [for i := 0; i < len(vals); i += 2 { if i+1 < len(vals) {...} }];
    [n] bounds its turns. *)
Fixpoint yieldPairs (n : nat) (i : Z) (vals : list RedisValue) (k : K)
    : bool * K :=
  if i <? Z.of_nat (length vals) then
    match n with
    | O => (true, k)
    | S n' =>
        if i + 1 <? Z.of_nat (length vals) then
          let pair :=
            RedisArray [nth (Z.to_nat i) vals RedisNull;
                        nth (Z.to_nat (i + 1)) vals RedisNull] in
          let (more, k') := yield pair k in
          if more then yieldPairs n' (i + 2) vals k' else (false, k')
        else yieldPairs n' (i + 2) vals k
    end
  else (true, k).

Definition yieldHash (vals : list RedisValue) (k : K) : bool * K :=
  yieldPairs (length vals) 0 vals k.

(** One turn of the loop that [SafeKeys], [SafeSets], [SafeHash] and
    [SafeSortedSets] share: [verb] names the command in the messages,
    [cmdStr] formats it for a cursor, [what] names the inner array, and
    [emit] is the loop that yields its elements. *)
Definition scanBody (verb : string) (cmdStr : string -> string)
    (what : string) (emit : list RedisValue -> K -> bool * K)
    (st : string * W * K) : control (string * W * K) (W * K) :=
  let '(cursor, w, k) := st in
  match Parse ext (cmdStr cursor) None with
  | inl _ => Panic
  | inr cmd =>
      match Send cmd w with
      | (Some err, w1) =>
          yield_return (RedisError (verb +:+ " send failed: " +:+ Error err)) w1 k
      | (None, w1) =>
          match Receive (10 * Second) w1 with
          | (inl err, w2) =>
              yield_return
                (RedisError (verb +:+ " receive failed: " +:+ Error err)) w2 k
          | (inr (RedisError msg), w2) => yield_return (RedisError msg) w2 k
          | (inr (RedisArray (c0 :: v1 :: _)), w2) =>
              let cursor' := StringValue c0 in
              match v1 with
              | RedisArray elems =>
                  let (more, k') := emit elems k in
                  if negb more then Return (w2, k')
                  else if String.eqb cursor' "0" then Return (w2, k')
                  else Continue (cursor', w2, k')
              | _ =>
                  yield_return
                    (RedisError ("unexpected " +:+ verb +:+ " " +:+ what
                                 +:+ " array format")) w2 k
              end
          | (inr _, w2) =>
              yield_return
                (RedisError ("unexpected " +:+ verb +:+ " response format")) w2 k
          end
      end
  end.

Definition SafeKeys (pattern : string) (fuel : nat) (w : W) (k : K)
    : outcome (W * K) :=
  loop (scanBody "SCAN"
          (fun cursor => "SCAN " +:+ cursor +:+ " MATCH " +:+ pattern +:+ " COUNT 100")
          "keys" yieldEach) fuel ("0", w, k).

Definition SafeSets (key : string) (fuel : nat) (w : W) (k : K)
    : outcome (W * K) :=
  loop (scanBody "SSCAN"
          (fun cursor => "SSCAN " +:+ key +:+ " " +:+ cursor +:+ " COUNT 100")
          "members" yieldEach) fuel ("0", w, k).

Definition SafeHash (key : string) (fuel : nat) (w : W) (k : K)
    : outcome (W * K) :=
  loop (scanBody "HSCAN"
          (fun cursor => "HSCAN " +:+ key +:+ " " +:+ cursor +:+ " COUNT 100")
          "fields" yieldHash) fuel ("0", w, k).

Definition SafeSortedSets (key : string) (fuel : nat) (w : W) (k : K)
    : outcome (W * K) :=
  loop (scanBody "ZSCAN"
          (fun cursor => "ZSCAN " +:+ key +:+ " " +:+ cursor +:+ " COUNT 100")
          "members" yieldEach) fuel ("0", w, k).

Definition listBody (key : string) (st : Z * W * K)
    : control (Z * W * K) (W * K) :=
  let '(start, w, k) := st in
  let cmdStr :=
    "LRANGE " +:+ key +:+ " " +:+ Itoa start +:+ " " +:+ Itoa (add start 99) in
  match Parse ext cmdStr None with
  | inl _ => Panic
  | inr cmd =>
      match Send cmd w with
      | (Some err, w1) =>
          yield_return (RedisError ("LRANGE send failed: " +:+ Error err)) w1 k
      | (None, w1) =>
          match Receive (10 * Second) w1 with
          | (inl err, w2) =>
              yield_return
                (RedisError ("LRANGE receive failed: " +:+ Error err)) w2 k
          | (inr (RedisError msg), w2) => yield_return (RedisError msg) w2 k
          | (inr (RedisArray values), w2) =>
              if Z.of_nat (length values) =? 0 then Return (w2, k)
              else
                let (more, k') := yieldEach values k in
                if negb more then Return (w2, k')
                else Continue (add start 100, w2, k')
          | (inr _, w2) =>
              yield_return (RedisError "unexpected LRANGE response format") w2 k
          end
      end
  end.

Definition SafeList (key : string) (fuel : nat) (w : W) (k : K)
    : outcome (W * K) :=
  loop (listBody key) fuel (0, w, k).

Definition streamBody (key : string) (st : string * W * K)
    : control (string * W * K) (W * K) :=
  let '(cursor, w, k) := st in
  let cmdStr := "XRANGE " +:+ key +:+ " " +:+ cursor +:+ " + COUNT 100" in
  match Parse ext cmdStr None with
  | inl _ => Panic
  | inr cmd =>
      match Send cmd w with
      | (Some err, w1) =>
          yield_return (RedisError ("XRANGE send failed: " +:+ Error err)) w1 k
      | (None, w1) =>
          match Receive (10 * Second) w1 with
          | (inl err, w2) =>
              yield_return
                (RedisError ("XRANGE receive failed: " +:+ Error err)) w2 k
          | (inr (RedisError msg), w2) => yield_return (RedisError msg) w2 k
          | (inr (RedisArray values), w2) =>
              if Z.of_nat (length values) =? 0 then Return (w2, k)
              else
                let (more, k') := yieldEach values k in
                if negb more then Return (w2, k')
                else
                  match last values with
                  | Some (RedisArray (id :: _)) =>
                      let lastID := StringValue id in
                      Continue ("(" +:+ lastID, w2, k')
                  | _ =>
                      yield_return
                        (RedisError "unexpected XRANGE entry format") w2 k'
                  end
          | (inr _, w2) =>
              yield_return (RedisError "unexpected XRANGE response format") w2 k
          end
      end
  end.

Definition SafeStream (key : string) (fuel : nat) (w : W) (k : K)
    : outcome (W * K) :=
  loop (streamBody key) fuel ("-", w, k).

(** *** The subscription stream

    [ctxErr w] tells whether [ctx.Err()] is non-nil in the world [w]:
    the context is cancelled from outside the loop. *)
Definition subscribeBody (ctxErr : W -> bool) (st : W * K)
    : control (W * K) (W * K) :=
  let (w, k) := st in
  if ctxErr w then Return (w, k)
  else
    match Receive (200 * Millisecond) w with
    | (inl err, w1) =>
        if Timeout err then Continue (w1, k)
        else yield_return (RedisError (Error err)) w1 k
    | (inr response, w1) =>
        let (more, k') := yield response k in
        if negb more then Return (w1, k') else Continue (w1, k')
    end.

Definition Subscribe (ctxErr : W -> bool) (fuel : nat) (w : W) (k : K)
    : outcome (W * K) :=
  loop (subscribeBody ctxErr) fuel (w, k).

End Client.
End conn.

(** ** The wire form of a value *)
Module wire.
Import Go strconv resp.

(** Modelled from the spec: the client only encodes commands, and the
    reply bytes of a round trip are crafted by the peer.  This is the
    wire format of section 6 for a value tree: a type byte out of
    [+ - : $ *], metadata lines closed by CRLF, a bulk string as its
    declared length and its raw bytes, an array as its declared count and
    its elements, and -1 as the null length. *)
Fixpoint encode (v : RedisValue) : string :=
  match v with
  | RedisString s => "+" +:+ s +:+ CRLF
  | RedisError s => "-" +:+ s +:+ CRLF
  | RedisInteger i => ":" +:+ Itoa i +:+ CRLF
  | RedisBulkString s n => "$" +:+ Itoa n +:+ CRLF +:+ s +:+ CRLF
  | RedisArray vs =>
      "*" +:+ Itoa (Z.of_nat (length vs)) +:+ CRLF
      +:+ (fix elements (vs : list RedisValue) : string :=
             match vs with
             | [] => ""
             | v :: vs' => encode v +:+ elements vs'
             end) vs
  | RedisNull => "$-1" +:+ CRLF
  end.

(** A command as a value: the array of the bulk strings of its name and
    of its arguments. *)
Definition bulk (s : string) : RedisValue := RedisBulkString s (len s).
Definition commandValue (args : list string) : RedisValue :=
  RedisArray (map bulk args).

Definition encodeAll (vs : list RedisValue) : string :=
  fold_right (fun v acc => encode v +:+ acc) "" vs.

(** A line of metadata holds no LF. *)
Definition noLF (s : string) : bool :=
  allBytes (fun c => negb (Ascii.eqb c LF)) s.

(** The value trees of section 3: lines without line feeds, integers of
    64 bits, bulk strings that declare their own length, counts and
    lengths of the range of [int]. *)
Fixpoint wellFormed (v : RedisValue) : bool :=
  match v with
  | RedisString s => noLF s
  | RedisError s => noLF s
  | RedisInteger i => (MinInt <=? i) && (i <=? MaxInt)
  | RedisBulkString s n => (n =? len s) && (n <=? MaxInt)
  | RedisArray vs =>
      (Z.of_nat (length vs) <=? MaxInt) && forallb wellFormed vs
  | RedisNull => true
  end.

End wire.

(** ** Peers for the connection *)
Module mock.
Import Go strconv resp command conn.

(** The collaborators outside the core, left out: no case tables beyond
    ASCII and a codec that stores the bytes as they are. *)
Definition plainExtern : Extern := mkExtern (fun s => s) (fun _ data => inr data).

(** A consumer that drains the sequence and keeps what it was given. *)
Definition collect (v : RedisValue) (k : list RedisValue)
    : bool * list RedisValue := (true, k ++ [v]).

(** A consumer that leaves the range loop on its [n]-th element. *)
Definition upTo (n : nat) (v : RedisValue) (k : list RedisValue)
    : bool * list RedisValue :=
  (Nat.ltb (S (length k)) n, k ++ [v]).

Definition EOF : error := mkError "EOF" false.

(** *** Pages of replies

    A page of the scan commands is a cursor with a flat array; a page
    of LRANGE is its elements; a page of XRANGE is its entries. *)
Definition ScanPage : Type := RedisValue * list RedisValue.
Definition cursorOf (p : ScanPage) : string := StringValue (fst p).
Definition moreToScan (p : ScanPage) : bool := negb (String.eqb (cursorOf p) "0").

(** The cursors of the requests that fetch [pages], from [cursor] on,
    and the cursor held once they are consumed. *)
Fixpoint cursorsUsed (cursor : string) (pages : list ScanPage) : list string :=
  match pages with
  | [] => []
  | p :: ps => cursor :: cursorsUsed (cursorOf p) ps
  end.
Definition cursorAfter (cursor : string) (pages : list ScanPage) : string :=
  List.last (map cursorOf pages) cursor.

(** All pages but the last announce a further page. *)
Fixpoint chain (pages : list ScanPage) : bool :=
  match pages with
  | [] => false
  | [p] => negb (moreToScan p)
  | p :: ps => moreToScan p && chain ps
  end.

(** The field/value pairs of a hash page, and the regrouping of a flat
    array into adjacent pairs. *)
Definition pair (fv : RedisValue * RedisValue) : RedisValue :=
  RedisArray [fst fv; snd fv].
Definition flatten (fvs : list (RedisValue * RedisValue)) : list RedisValue :=
  flat_map (fun fv => [fst fv; snd fv]) fvs.
Fixpoint pairUp (vals : list RedisValue) : list RedisValue :=
  match vals with
  | f :: v :: rest => RedisArray [f; v] :: pairUp rest
  | _ => []
  end.

(** The start offsets of LRANGE: [start += 100] each page. *)
Fixpoint startsUsed (start : Z) (pages : list (list RedisValue)) : list Z :=
  match pages with
  | [] => []
  | _ :: ps => start :: startsUsed (add start 100) ps
  end.
Definition startAfter (start : Z) (pages : list (list RedisValue)) : Z :=
  fold_left (fun s _ => add s 100) pages start.
Definition nonEmpty (page : list RedisValue) : bool :=
  negb (Z.of_nat (length page) =? 0).

(** The id of the last entry of a stream page, when that entry is an
    array with an element. *)
Definition lastID (page : list RedisValue) : option string :=
  match last page with
  | Some (RedisArray (id :: _)) => Some (StringValue id)
  | _ => None
  end.
Definition entryPage (page : list RedisValue) : bool :=
  nonEmpty page && bool_decide (lastID page <> None).
Definition nextCursor (page : list RedisValue) : string :=
  "(" +:+ default "" (lastID page).
Fixpoint streamCursors (cursor : string) (pages : list (list RedisValue))
    : list string :=
  match pages with
  | [] => []
  | p :: ps => cursor :: streamCursors (nextCursor p) ps
  end.
Definition streamCursorAfter (cursor : string) (pages : list (list RedisValue))
    : string :=
  List.last (map nextCursor pages) cursor.

(** The command lines of the paging requests. *)
Definition scanLine (pattern cursor : string) : string :=
  "SCAN " +:+ cursor +:+ " MATCH " +:+ pattern +:+ " COUNT 100".
Definition keyLine (verb key cursor : string) : string :=
  verb +:+ " " +:+ key +:+ " " +:+ cursor +:+ " COUNT 100".
Definition lrangeLine (key : string) (start : Z) : string :=
  "LRANGE " +:+ key +:+ " " +:+ Itoa start +:+ " " +:+ Itoa (add start 99).
Definition xrangeLine (key cursor : string) : string :=
  "XRANGE " +:+ key +:+ " " +:+ cursor +:+ " + COUNT 100".

(** *** A scripted peer

    The script lists what each step of the exchange meets: a write that
    fails, a read that fails (a timeout is such a read), a reply, or the
    cancellation of the context before the next poll. *)
Inductive Exchange : Type :=
  | SendFails (err : error)
  | ReceiveFails (err : error)
  | Reply (v : RedisValue)
  | Cancelled.

Record Scripted : Type := mkScripted {
  script : list Exchange;
  written : list string;
  closed : bool
}.

#[export] Instance scripted : Transport Scripted := {
  net_Dial _ w := (None, w);
  conn_Write bytes w :=
    match script w with
    | SendFails err :: rest =>
        (Some err, mkScripted rest (written w ++ [bytes]) (closed w))
    | _ => (None, mkScripted (script w) (written w ++ [bytes]) (closed w))
    end;
  conn_SetReadDeadline _ w := (None, w);
  reader_ParseValue w :=
    match script w with
    | ReceiveFails err :: rest =>
        (inl err, mkScripted rest (written w) (closed w))
    | Reply v :: rest => (inr v, mkScripted rest (written w) (closed w))
    | _ => (inl EOF, w)
    end;
  conn_Close w := (None, mkScripted (script w) (written w) true)
}.

Definition play (events : list Exchange) : Scripted :=
  mkScripted events [] false.

Definition scanReply (p : ScanPage) : Exchange :=
  Reply (RedisArray [fst p; RedisArray (snd p)]).
Definition arrayReply (page : list RedisValue) : Exchange :=
  Reply (RedisArray page).

(** The exchanges that end an iterator with an error: a write or a read
    that fails, and a reply that [shape] refuses. *)
Definition scanShape (v : RedisValue) : bool :=
  match v with
  | RedisArray (_ :: RedisArray _ :: _) => true
  | _ => false
  end.
Definition arrayShape (v : RedisValue) : bool :=
  match v with
  | RedisArray _ => true
  | _ => false
  end.
Definition failing (shape : RedisValue -> bool) (ex : Exchange) : bool :=
  match ex with
  | SendFails _ | ReceiveFails _ => true
  | Reply v => negb (shape v)
  | Cancelled => false
  end.

(** A drained sequence ends with one error: whatever follows [bad] in
    the script, the iterator [run], given the fuel for one turn more
    than the [replies] before it, returns having yielded [elements] and
    then a single error; it has written one request per turn and has
    left what follows [bad] untouched. *)
Definition endsWithError
    (run : nat -> Scripted -> list RedisValue
           -> outcome (Scripted * list RedisValue))
    (replies : list Exchange) (elements : list RedisValue) (bad : Exchange)
    : Prop :=
  forall (rest : list Exchange) (fuel : nat),
    (length replies < fuel)%nat ->
    exists msg w,
      run fuel (play (replies ++ bad :: rest)) []
      = Returned (w, elements ++ [RedisError msg])
      /\ script w = rest
      /\ length (written w) = S (length replies).

Definition cancelled (w : Scripted) : bool :=
  match script w with
  | Cancelled :: _ => true
  | _ => false
  end.

(** *** A peer that serves one list

    The peer decodes each request it is sent and queues its answer.
    [LRANGE key start stop] is answered by the elements of the list from
    [start] to [stop], both included, negative positions counting from
    the end, as the server defines the command. *)
Definition lrange (l : list RedisValue) (start stop : Z) : list RedisValue :=
  let n := Z.of_nat (length l) in
  let start := if start <? 0 then Z.max 0 (n + start) else start in
  let stop := if stop <? 0 then n + stop else stop in
  let stop := Z.min stop (n - 1) in
  if (stop <? start) || (n <=? start) then []
  else firstn (Z.to_nat (stop - start + 1)) (skipn (Z.to_nat start) l).

Definition serveList (key : string) (l : list RedisValue) (request : string)
    : RedisValue :=
  match ParseValue request with
  | Ok (RedisArray [RedisBulkString name _; RedisBulkString k _;
                    RedisBulkString a _; RedisBulkString b _]) "" =>
      if String.eqb name "LRANGE" then
        match Atoi a, Atoi b with
        | Some start, Some stop =>
            if String.eqb k key then RedisArray (lrange l start stop)
            else RedisArray []
        | _, _ => RedisError "ERR value is not an integer or out of range"
        end
      else RedisError "ERR unknown command"
  | _ => RedisError "ERR wrong number of arguments for 'lrange' command"
  end.

(** The bytes of [LRANGE key start start+99]. *)
Definition lrangeBytes (key : string) (start : Z) : string :=
  SendRaw_bytes ["LRANGE"; key; Itoa start; Itoa (start + 99)].

Record Served : Type := mkServed {
  requests : list string;
  replies : list RedisValue
}.

Definition server (serve : string -> RedisValue) : Transport Served := {|
  net_Dial _ w := (None, w);
  conn_Write bytes w :=
    (None, mkServed (requests w ++ [bytes]) (replies w ++ [serve bytes]));
  conn_SetReadDeadline _ w := (None, w);
  reader_ParseValue w :=
    match replies w with
    | v :: rest => (inr v, mkServed (requests w) rest)
    | [] => (inl EOF, w)
    end;
  conn_Close w := (None, w)
|}.

(** A command argument with NUL, control bytes, 0xff, a space, a quote
    and CR LF inside, and a tree of the five type tags nested four
    deep. *)
Definition binaryArg : string :=
  String "000" (String "001" (String "002" (String "255"
    ("a b" +:+ String "034" (CRLF +:+ "end"))))).
Definition nestedValue : RedisValue :=
  RedisArray
    [RedisString "OK";
     RedisArray
       [RedisInteger (-42);
        RedisArray
          [RedisBulkString binaryArg (len binaryArg);
           RedisArray [RedisError "ERR no"; RedisNull; RedisArray []]]];
     RedisBulkString "" 0].

(** Six payload bytes with CR LF among them. *)
Definition crlfPayload : string :=
  "ab" +:+ CRLF +:+ String "000" (String "255" "").

(** 250 elements, ["e0"] to ["e249"]. *)
Definition sampleList : list RedisValue :=
  map (fun i => let s := "e" +:+ Itoa (Z.of_nat i) in RedisBulkString s (len s))
    (seq 0 250).

End mock.

(** ** Package command: the registry of the command documentation *)
Module registry.
Import Go strconv strings command conn.

(** A command of the reply to COMMAND, with its subcommands. *)
Inductive ServerCommand : Type :=
  | mkServerCommand (Name : string) (Arity : Z) (ACLCats : list string)
      (Subcommands : list ServerCommand).

Definition Name (sc : ServerCommand) : string :=
  let 'mkServerCommand name _ _ _ := sc in name.
Definition Arity (sc : ServerCommand) : Z :=
  let 'mkServerCommand _ arity _ _ := sc in arity.
Definition ACLCats (sc : ServerCommand) : list string :=
  let 'mkServerCommand _ _ cats _ := sc in cats.
Definition Subcommands (sc : ServerCommand) : list ServerCommand :=
  let 'mkServerCommand _ _ _ subs := sc in subs.

(** The registry: the docs, the position of each command name among
    them, and the names that ask for a confirmation. *)
Record Registry : Type := mkRegistry {
  docs : list CommandDoc;
  index : gmap string Z;
  dangerous : gmap string bool
}.

Definition appCommands : list CommandDoc :=
  [mkDoc "EXIT" "Exit the application" "" "" "application";
   mkDoc "CONNECT" "Connect to a Redis server" "[host] [port] [user] [pass]" ""
     "application";
   mkDoc "HELP" "Show help for a command" "[command]" "" "application";
   mkDoc "CLEAR" "Clear the screen" "" "" "application";
   mkDoc "SAFEKEYS" "Safely iterate over keys using SCAN" "[pattern]" ""
     "application";
   mkDoc "VIEW" "View the contents of a key" "key" "" "application";
   mkDoc "EXPORT" "Export the result of a command to a file"
     "file command [args...]" "" "application"].

Definition dangerousList : list string :=
  ["FLUSHDB"; "FLUSHALL"; "KEYS"; "PEXPIRE"; "DEL"; "CONFIG";
   "SHUTDOWN"; "BGREWRITEAOF"; "BGSAVE"; "SAVE"; "SPOP"; "SREM";
   "RENAME"; "DEBUG"].

(** [for i, doc := range docs { idx[doc.Command] = i }] *)
Fixpoint indexDocs (i : Z) (ds : list CommandDoc) (idx : gmap string Z)
    : gmap string Z :=
  match ds with
  | [] => idx
  | doc :: ds' => indexDocs (i + 1) ds' (<[Command doc := i]> idx)
  end.

(** [NewRegistry]; [unmarshalled] is what [json.Unmarshal] makes of the
    embedded file of commands. *)
Definition NewRegistry (unmarshalled : error + list CommandDoc)
    : error + Registry :=
  match unmarshalled with
  | inl err => inl (Errorf_w "failed to parse embedded commands JSON: " err)
  | inr embedded =>
      let docs := embedded ++ appCommands in
      let dangerousMap :=
        fold_left (fun m cmd => <[cmd := true]> m) dangerousList ∅ in
      let idx := indexDocs 0 docs ∅ in
      inr (mkRegistry docs idx dangerousMap)
  end.

(** [Get]: [&r.docs[i]] panics when [i] is no position of the slice. *)
Definition Get (ext : Extern) (r : Registry) (cmd : string)
    : outcome (option CommandDoc) :=
  let cmd := ToUpper (unicodeUpper ext) cmd in
  match index r !! cmd with
  | Some i =>
      match (if 0 <=? i then docs r !! Z.to_nat i else None) with
      | Some doc => Returned (Some doc)
      | None => Panicked
      end
  | None => Returned None
  end.

Definition GetCommands (ext : Extern) (r : Registry) (prefix : string)
    : list string :=
  let prefix := ToUpper (unicodeUpper ext) prefix in
  fold_left
    (fun matches doc =>
       if HasPrefix (Command doc) prefix then matches ++ [Command doc]
       else matches)
    (docs r) [].

Definition Search (ext : Extern) (r : Registry) (prefix : string)
    : list CommandDoc :=
  let prefix := ToUpper (unicodeUpper ext) prefix in
  fold_left
    (fun matches doc =>
       if HasPrefix (Command doc) prefix then matches ++ [doc] else matches)
    (docs r) [].

Definition IsDangerous (ext : Extern) (r : Registry) (cmd : string) : bool :=
  default false (dangerous r !! ToUpper (unicodeUpper ext) cmd).

(** The parts [arg1 .. argn] of a hint; slices are allocated without a
    memory limit. *)
Definition argNames (n : Z) : list string :=
  map (fun i => "arg" +:+ Itoa (Z.of_nat i + 1)) (seq 0 (Z.to_nat n)).

Definition arityHint (arity : Z) : string :=
  if (arity =? 0) || (arity =? 1) then ""
  else if 1 <? arity then joinWords (argNames (arity - 1))
  else
    let minArgs := wrap (wrap (- arity) - 1) in
    if minArgs =? 0 then "[arg ...]"
    else joinWords (argNames minArgs) +:+ " [arg ...]".

(** The meta categories that [primaryACLGroup] passes over at first. *)
Definition skip : list string :=
  ["@read"; "@write"; "@fast"; "@slow"; "@admin"; "@dangerous"; "@keyspace"].

Definition member (s : string) (set : list string) : bool :=
  existsb (String.eqb s) set.

(** The two loops of [primaryACLGroup]. *)
Fixpoint domainGroup (cats : list string) : option string :=
  match cats with
  | [] => None
  | cat :: cats' =>
      if negb (member cat skip) && HasPrefix cat "@" then Some (drop 1 cat)
      else domainGroup cats'
  end.

Fixpoint fallbackGroup (cats : list string) : option string :=
  match cats with
  | [] => None
  | cat :: cats' =>
      if String.eqb cat "@connection" || String.eqb cat "@pubsub"
         || String.eqb cat "@admin"
      then Some (drop 1 cat)
      else fallbackGroup cats'
  end.

Definition primaryACLGroup (cats : list string) : string :=
  match domainGroup cats with
  | Some group => group
  | None => default "" (fallbackGroup cats)
  end.

Definition mergeOne (r : Registry) (sc : ServerCommand) : Registry :=
  match index r !! Name sc with
  | Some _ => r
  | None =>
      let doc :=
        mkDoc (Name sc) "" (arityHint (Arity sc)) ""
          (primaryACLGroup (ACLCats sc)) in
      mkRegistry (docs r ++ [doc])
        (<[Name sc := Z.of_nat (length (docs r))]> (index r))
        (dangerous r)
  end.

Definition MergeServerCommands (r : Registry) (cmds : list ServerCommand)
    : Registry :=
  fold_left
    (fun r sc => fold_left mergeOne (Subcommands sc) (mergeOne r sc))
    cmds r.

(** The names [MergeServerCommands] goes through: those of the
    commands and of their direct subcommands. *)
Definition mergedNames (cmds : list ServerCommand) : list string :=
  flat_map (fun sc => Name sc :: map Name (Subcommands sc)) cmds.

(** What the index is to hold: positions of the docs, each under the
    name of the doc at that position. *)
Definition indexed (r : Registry) : Prop :=
  forall name i,
    index r !! name = Some i ->
    0 <= i /\ exists doc, docs r !! Z.to_nat i = Some doc /\ Command doc = name.

(** The registries of a run: the one [NewRegistry] builds, and what
    [MergeServerCommands] makes of one of them. *)
Inductive built : Registry -> Prop :=
  | built_new embedded r :
      NewRegistry (inr embedded) = inr r -> built r
  | built_merge r cmds :
      built r -> built (MergeServerCommands r cmds).

End registry.

(** ** Package conn: the commands of the server and the value of a key *)
Module info.
Import Go strconv strings resp command conn registry.

(** [strings.ReplaceAll] for a non-empty [old]; [skip] counts the bytes
    of a replaced [old] that are still to pass. *)
Fixpoint Replace_from (s old new : string) (skip : nat) {struct s} : string :=
  match s with
  | "" => ""
  | String c s' =>
      match skip with
      | S k => Replace_from s' old new k
      | O =>
          if HasPrefix s old
          then new +:+ Replace_from s' old new (String.length old - 1)
          else String c (Replace_from s' old new 0)
      end
  end.
Definition ReplaceAll (s old new : string) : string := Replace_from s old new 0.

Definition extractStringArray (v : RedisValue) : list string :=
  match v with
  | RedisArray values => map StringValue values
  | _ => []
  end.

(** [parseCommandEntry]: the name is element 0, the arity element 1, the
    ACL categories element 6 and the subcommands element 9 of the
    entry. *)
Fixpoint parseCommandEntry (ext : Extern) (v : RedisValue)
    : error + ServerCommand :=
  match v with
  | RedisArray (v0 :: v1 :: rest) =>
      let name :=
        ToUpper (unicodeUpper ext) (ReplaceAll (StringValue v0) "|" " ") in
      let arity :=
        match v1 with
        | RedisInteger intVal => intVal
        | _ => 0
        end in
      let aclCats :=
        match rest with
        | _ :: _ :: _ :: _ :: v6 :: _ => extractStringArray v6
        | _ => []
        end in
      let subcommands :=
        match rest with
        | _ :: _ :: _ :: _ :: _ :: _ :: _ :: RedisArray subArr :: _ =>
            (fix each (subs : list RedisValue) : list ServerCommand :=
               match subs with
               | [] => []
               | subEntry :: subs' =>
                   match parseCommandEntry ext subEntry with
                   | inr sub => sub :: each subs'
                   | inl _ => each subs'
                   end
               end) subArr
        | _ => []
        end in
      inr (mkServerCommand name arity aclCats subcommands)
  | _ => inl (mkError "expected array with >= 2 elements" false)
  end.

(** The loop of [FetchServerCommands] over the entries of the reply:
    an entry that does not parse is passed over. *)
Fixpoint parseEntries (ext : Extern) (entries : list RedisValue)
    : list ServerCommand :=
  match entries with
  | [] => []
  | entry :: entries' =>
      match parseCommandEntry ext entry with
      | inr sc => sc :: parseEntries ext entries'
      | inl _ => parseEntries ext entries'
      end
  end.

Section Client.
Context {W : Type} {transport : Transport W}.
Variable ext : Extern.

(** [FetchServerCommands]: [inr cmds] is the result [(cmds, nil)], where
    the nil slice is the empty list. *)
Definition FetchServerCommands (w : W)
    : outcome ((error + list ServerCommand) * W) :=
  match Parse ext "COMMAND" None with
  | inl _ => Panicked
  | inr cmdParsed =>
      match Send cmdParsed w with
      | (Some err, w1) =>
          Returned (inl (Errorf_w "failed to send COMMAND: " err), w1)
      | (None, w1) =>
          match Receive (10 * Second) w1 with
          | (inl err, w2) =>
              Returned
                (inl (Errorf_w "failed to receive COMMAND response: " err), w2)
          | (inr (RedisError _), w2) => Returned (inr [], w2)
          | (inr (RedisArray values), w2) =>
              Returned (inr (parseEntries ext values), w2)
          | (inr response, w2) =>
              Returned
                (inl (mkError ("expected array for COMMAND, got "
                               +:+ fmt_T response) false), w2)
          end
      end
  end.

(** [mergeServerCommands] of the REPL: what is fetched is merged into
    the registry; a failure leaves the registry as it is. *)
Definition mergeServerCommands (reg : Registry) (w : W)
    : outcome (Registry * W) :=
  match FetchServerCommands w with
  | Returned (inl _, w') => Returned (reg, w')
  | Returned (inr cmds, w') =>
      Returned
        (match cmds with
         | [] => reg
         | _ => MergeServerCommands reg cmds
         end, w')
  | Panicked => Panicked
  | Unfinished => Unfinished
  end.

End Client.
End info.

Module keyvalue.
Import Go strconv strings resp command conn.

Section Client.
Context {W : Type} {transport : Transport W}.
Variable ext : Extern.

(** An [iter.Seq[resp.RedisValue]]: a function of the consumer, which
    is a state of any type and its [yield]. *)
Definition Seq : Type :=
  forall K : Type,
    (RedisValue -> K -> bool * K) -> nat -> W -> K -> outcome (W * K).

(** The four results of [GetKeyValue]. *)
Record KeyValue : Type := mkKeyValue {
  typeName : string;
  single : option RedisValue;
  collection : option Seq;
  err : option error
}.

Definition GetKeyValue (key : string) (w : W) : outcome (KeyValue * W) :=
  match Parse ext ("TYPE " +:+ key) None with
  | inl _ => Panicked
  | inr typeCmd =>
      match Send typeCmd w with
      | (Some err, w1) =>
          Returned
            (mkKeyValue "" None None
               (Some (Errorf_w "failed to send TYPE command: " err)), w1)
      | (None, w1) =>
          match Receive (5 * Second) w1 with
          | (inl err, w2) =>
              Returned
                (mkKeyValue "" None None
                   (Some (Errorf_w "failed to receive TYPE response: " err)), w2)
          | (inr (RedisError msg), w2) =>
              Returned
                (mkKeyValue "" None None
                   (Some (mkError ("TYPE command failed: " +:+ msg) false)), w2)
          | (inr (RedisString typeName), w2) =>
              if String.eqb typeName "string" then
                match Parse ext ("GET " +:+ key) None with
                | inl _ => Panicked
                | inr getCmd =>
                    match Send getCmd w2 with
                    | (Some err, w3) =>
                        Returned
                          (mkKeyValue typeName None None
                             (Some (Errorf_w "failed to send GET command: " err)),
                           w3)
                    | (None, w3) =>
                        match Receive (5 * Second) w3 with
                        | (inl err, w4) =>
                            Returned
                              (mkKeyValue typeName None None
                                 (Some (Errorf_w
                                          "failed to receive GET response: " err)),
                               w4)
                        | (inr single, w4) =>
                            Returned
                              (mkKeyValue typeName (Some single) None None, w4)
                        end
                    end
                end
              else if String.eqb typeName "list" then
                Returned
                  (mkKeyValue typeName None
                     (Some (fun K yield => SafeList ext yield key)) None, w2)
              else if String.eqb typeName "set" then
                Returned
                  (mkKeyValue typeName None
                     (Some (fun K yield => SafeSets ext yield key)) None, w2)
              else if String.eqb typeName "zset" then
                Returned
                  (mkKeyValue typeName None
                     (Some (fun K yield => SafeSortedSets ext yield key)) None, w2)
              else if String.eqb typeName "hash" then
                Returned
                  (mkKeyValue typeName None
                     (Some (fun K yield => SafeHash ext yield key)) None, w2)
              else if String.eqb typeName "stream" then
                Returned
                  (mkKeyValue typeName None
                     (Some (fun K yield => SafeStream ext yield key)) None, w2)
              else if String.eqb typeName "none" then
                Returned
                  (mkKeyValue typeName None None
                     (Some (mkError "key does not exist" false)), w2)
              else
                Returned
                  (mkKeyValue typeName None None
                     (Some (mkError ("unsupported key type: " +:+ typeName)
                              false)), w2)
          | (inr response, w2) =>
              Returned
                (mkKeyValue "" None None
                   (Some (mkError ("expected simple string for TYPE, got "
                                   +:+ fmt_T response) false)), w2)
          end
      end
  end.

End Client.
End keyvalue.

(** ** Package tui: the consumers of the key views *)
Module views.
Import Go strconv resp conn keyvalue.

Definition Rows : Type := list (list string).

(** The bodies of the range loops: [false] is a [break]. *)
Definition listRow (val : RedisValue) (st : Z * Rows) : bool * (Z * Rows) :=
  let '(i, rows) := st in
  match val with
  | RedisError _ => (false, (i, rows))
  | _ =>
      let i := add i 1 in
      (true, (i, rows ++ [[Itoa i; StringValue val]]))
  end.

Definition setRow (val : RedisValue) (rows : Rows) : bool * Rows :=
  match val with
  | RedisError _ => (false, rows)
  | _ => (true, rows ++ [[StringValue val]])
  end.

Definition hashRow (val : RedisValue) (rows : Rows) : bool * Rows :=
  match val with
  | RedisError _ => (false, rows)
  | RedisArray (field :: value :: _) =>
      (true, rows ++ [[StringValue field; StringValue value]])
  | _ => (true, rows)
  end.

(** The state of [consumeSortedSet]: [pending], [hasPending] and the
    rows. *)
Definition sortedSetRow (val : RedisValue) (st : string * bool * Rows)
    : bool * (string * bool * Rows) :=
  let '(pending, hasPending, rows) := st in
  match val with
  | RedisError _ => (false, st)
  | _ =>
      if negb hasPending then (true, (StringValue val, true, rows))
      else (true, (pending, false, rows ++ [[pending; StringValue val]]))
  end.

(** The loop of [formatStreamFields],
    [for i := 0; i < len(arr.Values)-1; i += 2]; [n] bounds its turns. *)
Fixpoint fieldParts (n : nat) (i : Z) (vals : list RedisValue)
    (parts : list string) : list string :=
  if i <? Z.of_nat (length vals) - 1 then
    match n with
    | O => parts
    | S n' =>
        fieldParts n' (i + 2) vals
          (parts ++ [StringValue (nth (Z.to_nat i) vals RedisNull) +:+ "="
                     +:+ StringValue (nth (Z.to_nat (i + 1)) vals RedisNull)])
    end
  else parts.

Definition formatStreamFields (v : RedisValue) : string :=
  match v with
  | RedisArray vals => String.concat ", " (fieldParts (length vals) 0 vals [])
  | _ => StringValue v
  end.

Definition streamRow (val : RedisValue) (rows : Rows) : bool * Rows :=
  match val with
  | RedisError _ => (false, rows)
  | RedisArray (id :: fields :: _) =>
      (true, rows ++ [[StringValue id; formatStreamFields fields]])
  | _ => (true, rows)
  end.

Section Consumers.
Context {W : Type}.

(** A consumer runs the sequence on the body of its loop and returns
    the headers and the rows. *)
Definition consumeList (collection : @Seq W) (fuel : nat) (w : W)
    : outcome (W * (list string * Rows)) :=
  match collection _ listRow fuel w (0, []) with
  | Returned (w', (_, rows)) => Returned (w', (["#"; "Value"], rows))
  | Panicked => Panicked
  | Unfinished => Unfinished
  end.

Definition consumeSet (collection : @Seq W) (fuel : nat) (w : W)
    : outcome (W * (list string * Rows)) :=
  match collection _ setRow fuel w [] with
  | Returned (w', rows) => Returned (w', (["Member"], rows))
  | Panicked => Panicked
  | Unfinished => Unfinished
  end.

Definition consumeHash (collection : @Seq W) (fuel : nat) (w : W)
    : outcome (W * (list string * Rows)) :=
  match collection _ hashRow fuel w [] with
  | Returned (w', rows) => Returned (w', (["Field"; "Value"], rows))
  | Panicked => Panicked
  | Unfinished => Unfinished
  end.

Definition consumeSortedSet (collection : @Seq W) (fuel : nat) (w : W)
    : outcome (W * (list string * Rows)) :=
  match collection _ sortedSetRow fuel w ("", false, []) with
  | Returned (w', (_, _, rows)) => Returned (w', (["Member"; "Score"], rows))
  | Panicked => Panicked
  | Unfinished => Unfinished
  end.

Definition consumeStream (collection : @Seq W) (fuel : nat) (w : W)
    : outcome (W * (list string * Rows)) :=
  match collection _ streamRow fuel w [] with
  | Returned (w', rows) => Returned (w', (["ID"; "Data"], rows))
  | Panicked => Panicked
  | Unfinished => Unfinished
  end.

End Consumers.
End views.

(** ** Package output: what is written for a value *)
Module output.
Import Go strconv resp conn keyvalue.

(** The loop of [digitWidth], [for n > 0 { w++; n /= 10 }]; an [int]
    has fewer than 64 digits. *)
Fixpoint digitLoop (fuel : nat) (n w : Z) : Z :=
  match fuel with
  | O => w
  | S fuel' => if 0 <? n then digitLoop fuel' (Z.quot n 10) (add w 1) else w
  end.

Definition digitWidth (n : Z) : Z :=
  if n <=? 0 then 1 else digitLoop 64 n 0.

(** [writeRawValue]: the bytes it writes. *)
Fixpoint writeRawValue (v : RedisValue) : string :=
  match v with
  | RedisArray values =>
      (fix each (vs : list RedisValue) : string :=
         match vs with
         | [] => ""
         | element :: vs' => writeRawValue element +:+ each vs'
         end) values
  | _ => StringValue v +:+ String LF ""
  end.

(** The text [writeValueAsync] prints for a value that is no array. *)
Definition outputText (v : RedisValue) : string :=
  match v with
  | RedisString s => s
  | RedisBulkString s length => if length =? -1 then "(null)" else s
  | RedisNull => "(null)"
  | RedisInteger _ => StringValue v
  | RedisError _ => StringValue v
  | RedisArray _ => ""
  end.

(** [writeValueAsync]: the bytes it writes.  The loop over an array
    takes one element a turn, and a second one behind ["="] under the
    hint ["hash"] when there is one. *)
Fixpoint writeValueAsync (typeHint : string) (v : RedisValue) : string :=
  match v with
  | RedisArray values =>
      (fix each (vs : list RedisValue) : string :=
         match vs with
         | [] => ""
         | x :: vs' =>
             writeValueAsync typeHint x +:+
             (if String.eqb typeHint "hash" then
                match vs' with
                | y :: vs'' =>
                    "=" +:+ writeValueAsync typeHint y +:+ String LF ""
                    +:+ each vs''
                | [] => String LF ""
                end
              else String LF "" +:+ each vs')
         end) values
  | _ => outputText v
  end.

Section Files.
Context {W : Type}.

(** [ExportAsync]: the error it returns and the bytes it writes to the
    file; [created] is the error of [os.Create]. *)
Definition ExportAsync (created : option error) (v : option RedisValue)
    (values : option (@Seq W)) (typeHint : string) (fuel : nat) (w : W)
    : outcome (W * (option error * string)) :=
  match created with
  | Some err => Returned (w, (Some err, ""))
  | None =>
      let first :=
        match v with
        | Some v => writeValueAsync typeHint v
        | None => ""
        end in
      match values with
      | None => Returned (w, (None, first))
      | Some values =>
          match values _
                  (fun value file => (true, file +:+ writeValueAsync typeHint value))
                  fuel w first with
          | Returned (w', file) => Returned (w', (None, file))
          | Panicked => Panicked
          | Unfinished => Unfinished
          end
      end
  end.

End Files.
End output.

(** ** Shapes of inputs and replies *)
Module shapes.
Import Go strconv resp command conn keyvalue.

(** Bytes a quoted argument holds as they are: ASCII other than the
    quote and the backslash. *)
Definition quotedByte (c : ascii) : bool :=
  let b := byteval c in
  (b <? 128) && negb (b =? 34) && negb (b =? 92).

(** The argument between quotes. *)
Definition quoted (s : string) : string := String "034" (s +:+ String "034" "").

(** Printable ASCII, and printable ASCII other than the space. *)
Definition printable (c : ascii) : bool :=
  (32 <=? byteval c) && (byteval c <=? 126).
Definition graphic (c : ascii) : bool :=
  (33 <=? byteval c) && (byteval c <=? 126).

(** A key of the INFO reply: graphic bytes other than the colon and the
    hash sign. *)
Definition infoKeyByte (c : ascii) : bool :=
  graphic c && negb (byteval c =? 58) && negb (byteval c =? 35).

(** A section of the INFO reply: its title line, its [key:value] lines
    and the blank line that closes it. *)
Definition infoLineOf (kv : string * string) : string :=
  fst kv +:+ ":" +:+ snd kv +:+ CRLF.
Definition infoSection (sec : string * list (string * string)) : string :=
  "# " +:+ fst sec +:+ CRLF +:+ String.concat "" (map infoLineOf (snd sec))
  +:+ CRLF.
Definition infoText (secs : list (string * list (string * string))) : string :=
  String.concat "" (map infoSection secs).

Definition infoEntry (kv : string * string) : bool :=
  allBytes infoKeyByte (fst kv) && allBytes graphic (snd kv).
Definition infoShape (sec : string * list (string * string)) : bool :=
  allBytes printable (fst sec) && forallb infoEntry (snd sec).

(** The reply [getServerInfo] takes. *)
Definition bulkShape (v : RedisValue) : bool :=
  match v with
  | RedisBulkString _ _ => true
  | _ => false
  end.

(** An entry of the COMMAND reply that [parseCommandEntry] takes. *)
Definition entryShape (v : RedisValue) : bool :=
  match v with
  | RedisArray (_ :: _ :: _) => true
  | _ => false
  end.

Definition isError (v : RedisValue) : bool :=
  match v with
  | RedisError _ => true
  | _ => false
  end.

(** A sequence over a slice, as the tests build it:
    [for _, v := range values { if !yield(v) { return } }]. *)
Definition ofSlice {W : Type} (values : list RedisValue) : @Seq W :=
  fun K yield _ w k => Returned (w, snd (yieldEach yield values k)).

End shapes.

(* ================================================================== *)
(** * Part II: supporting lemmas *)
(* ================================================================== *)

#[local] Arguments String.append !_ _ / : simpl nomatch.

Module StringFacts.
Import Go.

Lemma app_nil_r s : s +:+ "" = s.
Proof. induction s; simpl; congruence. Qed.

Lemma app_assoc s t u : (s +:+ t) +:+ u = s +:+ t +:+ u.
Proof. induction s; simpl; congruence. Qed.

Lemma length_app s t :
  String.length (s +:+ t) = (String.length s + String.length t)%nat.
Proof. induction s; simpl; congruence. Qed.

Lemma len_app s t : len (s +:+ t) = len s + len t.
Proof. unfold len. rewrite length_app. lia. Qed.

Lemma len_nonneg s : 0 <= len s.
Proof. unfold len. lia. Qed.

Lemma take_app s t : take (String.length s) (s +:+ t) = s.
Proof. induction s; simpl; [by destruct t | congruence]. Qed.

Lemma drop_app s t : drop (String.length s) (s +:+ t) = t.
Proof. induction s; simpl; [by destruct t | congruence]. Qed.

Lemma take_drop n s : take n s +:+ drop n s = s.
Proof.
  revert s. induction n as [|n IH]; intros [|c s]; simpl; try done.
  by rewrite IH.
Qed.

Lemma length_take n s :
  (n <= String.length s)%nat -> String.length (take n s) = n.
Proof.
  revert s. induction n as [|n IH]; intros [|c s]; simpl; try done; try lia.
  intros. rewrite IH; lia.
Qed.

Lemma allBytes_app p s t : allBytes p (s +:+ t) = allBytes p s && allBytes p t.
Proof. induction s; simpl; [done|]. rewrite IHs. by rewrite andb_assoc. Qed.

Lemma allBytes_impl (p q : ascii -> bool) s :
  (forall c, p c = true -> q c = true) -> allBytes p s = true -> allBytes q s = true.
Proof.
  intros Hpq. induction s; simpl; [done|].
  intros [? ?]%andb_true_iff. rewrite Hpq, IHs; auto.
Qed.

Lemma byteval_range c : 0 <= byteval c < 256.
Proof.
  unfold byteval. pose proof (N_ascii_bounded c). lia.
Qed.

Lemma byteval_byte_of z : 0 <= z < 256 -> byteval (byte_of z) = z.
Proof.
  intros. unfold byteval, byte_of. rewrite N_ascii_embedding; lia.
Qed.

Lemma byte_of_byteval c : byte_of (byteval c) = c.
Proof.
  unfold byteval, byte_of. rewrite N2Z.id. apply ascii_N_embedding.
Qed.

Lemma byteval_inj c d : byteval c = byteval d -> c = d.
Proof.
  intros H. rewrite <- (byte_of_byteval c), <- (byte_of_byteval d). by rewrite H.
Qed.

End StringFacts.

Module StrconvFacts.
Import Go strconv StringFacts.

Lemma digit_isDigit c : isDigit c = true <-> exists d, digit c = Some d.
Proof.
  unfold isDigit, digit. destruct (_ && _); split; eauto; try done.
  by intros [? ?].
Qed.

Lemma digit_byte_of d : 0 <= d <= 9 -> digit (byte_of (48 + d)) = Some d.
Proof.
  intros. unfold digit. rewrite byteval_byte_of by lia.
  replace (48 + d - 48) with d by lia.
  destruct (48 <=? 48 + d) eqn:?, (48 + d <=? 57) eqn:?; simpl; try done; lia.
Qed.

Lemma isDigit_byte_of d : 0 <= d <= 9 -> isDigit (byte_of (48 + d)) = true.
Proof. intros. apply digit_isDigit. eauto using digit_byte_of. Qed.

Lemma digits_all s : forall n m, digits s n = Some m -> allBytes isDigit s = true.
Proof.
  induction s as [|c s IH]; simpl; [done|]. intros n m.
  destruct (digit c) eqn:Hd; [|done]. intros H.
  apply andb_true_iff. split; [apply digit_isDigit; eauto | eauto].
Qed.

Lemma formatBits_spec fuel : forall u acc,
  0 <= u < 10 ^ Z.of_nat fuel -> fuel <> O ->
  exists ds, formatBits fuel u acc = ds +:+ acc /\ ds <> "" /\
    allBytes isDigit ds = true /\
    forall rest n, digits (ds +:+ rest) n = digits rest (n * 10 ^ len ds + u).
Proof.
  induction fuel as [|fuel IH]; intros u acc Hu Hfuel; [done|].
  cbn [formatBits]. set (d := byte_of (48 + u mod 10)).
  assert (Hd : digit d = Some (u mod 10)).
  { apply digit_byte_of. pose proof (Z.mod_pos_bound u 10). lia. }
  destruct (u <? 10) eqn:Hlt.
  - apply Z.ltb_lt in Hlt. exists (String d ""). split; [done|]. split; [done|].
    split. { simpl. rewrite andb_true_r. apply digit_isDigit; eauto. }
    intros rest n. simpl. rewrite Hd. f_equal.
    rewrite Z.mod_small by lia. unfold len. simpl. lia.
  - apply Z.ltb_ge in Hlt.
    destruct (IH (u / 10) (String d acc)) as (ds & Heq & Hne & Hall & Hdig).
    { split; [apply Z.div_pos; lia|].
      apply Z.div_lt_upper_bound; [lia|].
      rewrite Nat2Z.inj_succ, Z.pow_succ_r in Hu; lia. }
    { intros ->. simpl in Hu. lia. }
    exists (ds +:+ String d ""). rewrite Heq, app_assoc. split; [done|].
    split. { destruct ds; simpl; done. }
    split. { rewrite allBytes_app, Hall. simpl. rewrite andb_true_r.
             apply digit_isDigit; eauto. }
    intros rest n. rewrite app_assoc. simpl. rewrite Hdig. simpl. rewrite Hd.
    f_equal. rewrite len_app. unfold len. simpl String.length.
    rewrite Z.pow_add_r by lia. change (10 ^ Z.of_nat 1) with 10.
    pose proof (Z.div_mod u 10 ltac:(lia)). nia.
Qed.

Lemma utoa_spec u : 0 <= u ->
  utoa u <> "" /\ allBytes isDigit (utoa u) = true /\
  forall rest n, digits (utoa u +:+ rest) n = digits rest (n * 10 ^ len (utoa u) + u).
Proof.
  intros Hu. unfold utoa.
  destruct (formatBits_spec (S (Z.to_nat (Z.log2 u))) u "") as (ds & Heq & ? & ? & ?).
  { split; [done|]. rewrite Nat2Z.inj_succ, Z2Nat.id by apply Z.log2_nonneg.
    destruct (Z.eq_dec u 0) as [->|]; [done|].
    pose proof (Z.log2_spec u ltac:(lia)) as [_ Hlt].
    eapply Z.lt_le_trans; [exact Hlt|].
    apply Z.pow_le_mono_l. lia. }
  { done. }
  rewrite Heq, app_nil_r. done.
Qed.

Lemma digits_utoa u : 0 <= u -> digits (utoa u) 0 = Some u.
Proof.
  intros Hu. destruct (utoa_spec u Hu) as (_ & _ & H).
  specialize (H "" 0). rewrite app_nil_r in H. rewrite H. simpl. f_equal; lia.
Qed.

Lemma isDigit_not_sign c : isDigit c = true ->
  Ascii.eqb c "-" = false /\ Ascii.eqb c "+" = false /\ Ascii.eqb c LF = false.
Proof.
  unfold isDigit. intros [?%Z.leb_le ?%Z.leb_le]%andb_true_iff.
  repeat split; apply Ascii.eqb_neq; intros ->; vm_compute in *; congruence.
Qed.

Lemma ParseInt_Itoa i : MinInt <= i <= MaxInt -> ParseInt (Itoa i) = Some i.
Proof.
  intros Hi. unfold Itoa. destruct (i <? 0) eqn:Hneg.
  - apply Z.ltb_lt in Hneg.
    destruct (utoa_spec (- i) ltac:(lia)) as (Hne & _ & _).
    unfold ParseInt. change (Ascii.eqb "-" "-") with true. cbn [orb].
    destruct (utoa (- i)) eqn:Hu; [done|]. rewrite <- Hu.
    rewrite digits_utoa by lia. rewrite Z.opp_involutive.
    destruct (MinInt <=? i) eqn:?, (i <=? MaxInt) eqn:?; simpl; try done; lia.
  - apply Z.ltb_ge in Hneg.
    destruct (utoa_spec i Hneg) as (Hne & Hall & _).
    pose proof (digits_utoa i Hneg) as Hd.
    unfold ParseInt. destruct (utoa i) as [|c s] eqn:Hu; [done|].
    simpl in Hall. apply andb_true_iff in Hall as [Hc _].
    destruct (isDigit_not_sign c Hc) as (-> & -> & _). cbn [orb].
    rewrite Hd.
    destruct (MinInt <=? i) eqn:?, (i <=? MaxInt) eqn:?; simpl; try done; lia.
Qed.

Lemma Atoi_Itoa i : MinInt <= i <= MaxInt -> Atoi (Itoa i) = Some i.
Proof. apply ParseInt_Itoa. Qed.

Lemma Itoa_noLF i : allBytes (fun c => negb (Ascii.eqb c LF)) (Itoa i) = true.
Proof.
  assert (H : forall u, 0 <= u ->
    allBytes (fun c => negb (Ascii.eqb c LF)) (utoa u) = true).
  { intros u Hu. destruct (utoa_spec u Hu) as (_ & Hall & _).
    eapply allBytes_impl; [|exact Hall].
    intros c Hc. by destruct (isDigit_not_sign c Hc) as (_ & _ & ->). }
  unfold Itoa. destruct (i <? 0) eqn:Hneg.
  - apply Z.ltb_lt in Hneg. simpl. apply H. lia.
  - apply Z.ltb_ge in Hneg. by apply H.
Qed.

Lemma ParseInt_noLF line n :
  ParseInt line = Some n -> allBytes (fun c => negb (Ascii.eqb c LF)) line = true.
Proof.
  assert (Hd : forall s a b, digits s a = Some b ->
    allBytes (fun c => negb (Ascii.eqb c LF)) s = true).
  { intros s a b H. eapply allBytes_impl; [|eapply digits_all; eauto].
    intros c Hc. by destruct (isDigit_not_sign c Hc) as (_ & _ & ->). }
  unfold ParseInt. destruct line as [|c s]; [done|].
  destruct (Ascii.eqb c "-" || Ascii.eqb c "+") eqn:Hs.
  - destruct s as [|c' s']; [done|].
    destruct (digits (String c' s') 0) eqn:Hdig; [|done]. intros _.
    change (allBytes ?p (String c ?t)) with (p c && allBytes p t).
    rewrite (Hd _ _ _ Hdig), andb_true_r.
    apply orb_true_iff in Hs as [->%Ascii.eqb_eq | ->%Ascii.eqb_eq]; done.
  - destruct (digits (String c s) 0) eqn:Hdig; [|done]. intros _. eauto.
Qed.

End StrconvFacts.

Module RespFacts.
Import Go strconv resp wire StringFacts StrconvFacts.

Lemma ReadString_LF_app line rest :
  noLF line = true ->
  ReadString_LF (line +:+ String LF rest) = Ok (line +:+ String LF "") rest.
Proof.
  induction line as [|c line IH]; simpl; [done|].
  intros [Hc Hl]%andb_true_iff. apply negb_true_iff in Hc. rewrite Hc.
  by rewrite IH.
Qed.

Lemma ReadString_LF_shrinks r line rest :
  ReadString_LF r = Ok line rest -> (String.length rest < String.length r)%nat.
Proof.
  revert line. induction r as [|c r IH]; simpl; intros line; [done|].
  destruct (Ascii.eqb c LF).
  - intros [= _ <-]. lia.
  - destruct (ReadString_LF r) eqn:Hr; try done.
    intros [= _ <-]. specialize (IH _ eq_refl). lia.
Qed.

Lemma ReadString_LF_total r : ReadString_LF r <> OutOfFuel.
Proof.
  induction r as [|c r IH]; simpl; [done|].
  destruct (Ascii.eqb c LF); [done|]. by destruct (ReadString_LF r).
Qed.

Lemma TrimSuffix_CRLF line : TrimSuffix (line +:+ CRLF) CRLF = line.
Proof.
  induction line as [|c line IH]; [done|].
  cbn [String.append TrimSuffix]. rewrite IH.
  destruct (String.eqb_spec (String c (line +:+ CRLF)) CRLF) as [Heq|]; [|done].
  apply (f_equal String.length) in Heq. simpl in Heq.
  rewrite length_app in Heq. simpl in Heq. lia.
Qed.

Lemma readLine_app line rest :
  noLF line = true -> readLine (line +:+ CRLF +:+ rest) = Ok line rest.
Proof.
  intros Hl. unfold readLine, bind, ret.
  change (CRLF +:+ rest) with (String CR "" +:+ String LF rest).
  rewrite <- app_assoc, ReadString_LF_app.
  - rewrite app_assoc. change (String CR "" +:+ String LF "") with CRLF.
    by rewrite TrimSuffix_CRLF.
  - unfold noLF in *. rewrite allBytes_app, Hl. done.
Qed.

Lemma readLine_shrinks r line rest :
  readLine r = Ok line rest -> (String.length rest < String.length r)%nat.
Proof.
  unfold readLine, bind, ret. destruct (ReadString_LF r) eqn:Hr; try done.
  intros [= _ <-]. eauto using ReadString_LF_shrinks.
Qed.

Lemma readLine_total r : readLine r <> OutOfFuel.
Proof.
  unfold readLine, bind, ret. pose proof (ReadString_LF_total r).
  by destruct (ReadString_LF r).
Qed.

Lemma ReadFull_app s e rest : ReadFull (len s) e (s +:+ rest) = Ok s rest.
Proof.
  unfold ReadFull. rewrite len_app.
  destruct (len s + len rest <? len s) eqn:Hlt.
  { apply Z.ltb_lt in Hlt. pose proof (len_nonneg rest). lia. }
  unfold len. rewrite Nat2Z.id. by rewrite take_app, drop_app.
Qed.

Lemma ReadFull_Ok n e r s rest :
  0 <= n -> ReadFull n e r = Ok s rest ->
  r = s +:+ rest /\ len s = n.
Proof.
  unfold ReadFull. intros Hn. destruct (len r <? n) eqn:Hlt; [done|].
  apply Z.ltb_ge in Hlt. intros [= <- <-]. split; [by rewrite take_drop|].
  unfold len in *. rewrite length_take by lia. lia.
Qed.

(** The element loop decodes a run of encoded values. *)
Lemma parseElements_encodeAll PV vs : forall n i acc rest,
  (length vs <= n)%nat ->
  (forall v rest', In v vs -> PV (encode v +:+ rest') = Ok v rest') ->
  parseElements PV n i (i + Z.of_nat (length vs)) acc (encodeAll vs +:+ rest)
  = Ok (RedisArray (acc ++ vs)) rest.
Proof.
  induction vs as [|v vs IH]; intros n i acc rest Hn HPV.
  - simpl. destruct n; simpl; rewrite Z.add_0_r, Z.ltb_irrefl, List.app_nil_r; done.
  - destruct n as [|n]; [simpl in Hn; lia|].
    cbn [parseElements]. simpl length.
    destruct (i <? i + Z.of_nat (S (length vs))) eqn:Hlt;
      [|apply Z.ltb_ge in Hlt; lia].
    cbn [encodeAll fold_right]. rewrite app_assoc, HPV by (by left).
    replace (i + Z.of_nat (S (length vs))) with (i + 1 + Z.of_nat (length vs)) by lia.
    fold (encodeAll vs). rewrite IH.
    + by rewrite <- List.app_assoc.
    + simpl in Hn. lia.
    + intros. apply HPV. by right.
Qed.

Lemma encode_array vs :
  encode (RedisArray vs)
  = "*" +:+ Itoa (Z.of_nat (length vs)) +:+ CRLF +:+ encodeAll vs.
Proof.
  cbn [encode]. do 3 f_equal.
Qed.

Lemma encode_nonempty v : (1 <= String.length (encode v))%nat.
Proof. destruct v; simpl; lia. Qed.

Lemma length_encodeAll vs : (length vs <= String.length (encodeAll vs))%nat.
Proof.
  induction vs as [|v vs IH]; [done|].
  cbn [encodeAll fold_right]. fold (encodeAll vs). rewrite length_app.
  pose proof (encode_nonempty v). simpl. lia.
Qed.

Lemma length_encodeAll_In v vs :
  In v vs -> (String.length (encode v) <= String.length (encodeAll vs))%nat.
Proof.
  induction vs as [|v' vs IH]; [done|].
  cbn [encodeAll fold_right]. fold (encodeAll vs). rewrite length_app.
  intros [->|Hin]; [lia|]. specialize (IH Hin). lia.
Qed.

Lemma ParseValue_fuel_cons fuel b r :
  ParseValue_fuel (S fuel) (String b r) =
    (if Ascii.eqb b "+" then parseSimpleString
     else if Ascii.eqb b "-" then parseError
     else if Ascii.eqb b ":" then parseInteger
     else if Ascii.eqb b "$" then parseBulkString
     else if Ascii.eqb b "*" then parseArray (ParseValue_fuel fuel)
     else fail (ErrUnknownType b)) r.
Proof. reflexivity. Qed.

Lemma ParseValue_fuel_tag fuel r :
  ParseValue_fuel (S fuel) (String "+" r) = parseSimpleString r /\
  ParseValue_fuel (S fuel) (String "-" r) = parseError r /\
  ParseValue_fuel (S fuel) (String ":" r) = parseInteger r /\
  ParseValue_fuel (S fuel) (String "$" r) = parseBulkString r /\
  ParseValue_fuel (S fuel) (String "*" r) = parseArray (ParseValue_fuel fuel) r.
Proof. repeat split. Qed.

Ltac tag :=
  cbn [encode String.append];
  match goal with
  | |- context [ParseValue_fuel (S ?f) (String "+" ?r)] =>
      rewrite (proj1 (ParseValue_fuel_tag f r))
  | |- context [ParseValue_fuel (S ?f) (String "-" ?r)] =>
      rewrite (proj1 (proj2 (ParseValue_fuel_tag f r)))
  | |- context [ParseValue_fuel (S ?f) (String ":" ?r)] =>
      rewrite (proj1 (proj2 (proj2 (ParseValue_fuel_tag f r))))
  | |- context [ParseValue_fuel (S ?f) (String "$" ?r)] =>
      rewrite (proj1 (proj2 (proj2 (proj2 (ParseValue_fuel_tag f r)))))
  | |- context [ParseValue_fuel (S ?f) (String "*" ?r)] =>
      rewrite (proj2 (proj2 (proj2 (proj2 (ParseValue_fuel_tag f r)))))
  end.

Lemma ParseValue_fuel_bulk fuel line n payload rest :
  Atoi line = Some n -> 0 <= n -> len payload = n ->
  ParseValue_fuel (S fuel) ("$" +:+ line +:+ CRLF +:+ payload +:+ CRLF +:+ rest)
  = Ok (RedisBulkString payload n) rest.
Proof.
  intros Hline Hn Hlen. tag. unfold parseBulkString, bind.
  rewrite readLine_app by (eapply ParseInt_noLF; exact Hline).
  rewrite Hline.
  destruct (n =? -1) eqn:E1; [apply Z.eqb_eq in E1; lia|].
  destruct (n <? -1) eqn:E2; [apply Z.ltb_lt in E2; lia|].
  rewrite <- Hlen, ReadFull_app.
  change (CRLF +:+ rest) with (String CR (String LF "") +:+ rest).
  change 2 with (len (String CR (String LF ""))). rewrite ReadFull_app.
  done.
Qed.

(** Decoding inverts the wire form. *)
Lemma decode_encode fuel : forall v rest,
  (String.length (encode v) < fuel)%nat -> wellFormed v = true ->
  ParseValue_fuel fuel (encode v +:+ rest) = Ok v rest.
Proof.
  induction fuel as [|fuel IH]; intros v rest Hfuel Hwf; [lia|].
  destruct v as [s|s n|i|vs|s|].
  - tag. unfold parseSimpleString, bind, ret.
    rewrite app_assoc, readLine_app; done.
  - simpl in Hwf. apply andb_true_iff in Hwf as [Hn%Z.eqb_eq Hmax%Z.leb_le].
    cbn [encode]. rewrite !app_assoc. apply ParseValue_fuel_bulk.
    + apply Atoi_Itoa. pose proof (len_nonneg s). unfold MinInt. lia.
    + pose proof (len_nonneg s). lia.
    + done.
  - simpl in Hwf. apply andb_true_iff in Hwf as [?%Z.leb_le ?%Z.leb_le].
    tag. unfold parseInteger, bind.
    rewrite app_assoc, readLine_app by apply Itoa_noLF.
    rewrite ParseInt_Itoa by lia. done.
  - cbn [wellFormed] in Hwf. apply andb_true_iff in Hwf as [Hcount%Z.leb_le Hall].
    rewrite encode_array in *. tag.
    unfold parseArray, bind. rewrite !app_assoc.
    rewrite readLine_app by apply Itoa_noLF.
    rewrite Atoi_Itoa by (unfold MinInt; lia).
    destruct (Z.of_nat (length vs) =? -1) eqn:E1; [apply Z.eqb_eq in E1; lia|].
    destruct (Z.of_nat (length vs) <? -1) eqn:E2; [apply Z.ltb_lt in E2; lia|].
    rewrite <- (Z.add_0_l (Z.of_nat (length vs))).
    rewrite parseElements_encodeAll; [done| |].
    + rewrite length_app. pose proof (length_encodeAll vs). lia.
    + intros v rest' Hin. apply IH.
      * pose proof (length_encodeAll_In v vs Hin).
        rewrite !length_app in Hfuel. simpl String.length in Hfuel. lia.
      * rewrite forallb_forall in Hall. by apply Hall.
  - tag. unfold parseError, bind, ret.
    rewrite app_assoc, readLine_app; done.
  - destruct fuel; done.
Qed.

Lemma ParseValue_encode v rest :
  wellFormed v = true -> ParseValue (encode v +:+ rest) = Ok v rest.
Proof.
  intros. apply decode_encode; [|done]. rewrite length_app. lia.
Qed.

End RespFacts.

Module CodecFacts.
Import Go strconv resp wire conn StringFacts StrconvFacts RespFacts.

(** The decoder never runs out of fuel, and a value uses up input. *)
Lemma parseElements_total PV count : forall n i acc r,
  (String.length r < n)%nat ->
  (forall r', (String.length r' <= String.length r)%nat ->
     PV r' <> OutOfFuel /\
     forall v rest, PV r' = Ok v rest -> (String.length rest < String.length r')%nat) ->
  parseElements PV n i count acc r <> OutOfFuel /\
  forall v rest, parseElements PV n i count acc r = Ok v rest ->
    (String.length rest <= String.length r)%nat.
Proof.
  induction n as [|n IH]; intros i acc r Hn HPV; [lia|].
  cbn [parseElements]. destruct (i <? count); [|split; [done|]].
  - destruct (HPV r ltac:(lia)) as [Hne Hshrink].
    destruct (PV r) as [val r'| |] eqn:Hr; [|done..].
    specialize (Hshrink _ _ eq_refl).
    destruct (IH (i + 1) (acc ++ [val]) r' ltac:(lia)) as [? Hle].
    { intros r'' ?. apply HPV. lia. }
    split; [done|]. intros v rest Hok. specialize (Hle _ _ Hok). lia.
  - intros v rest [= _ <-]. lia.
Qed.

Lemma ParseValue_fuel_total fuel : forall r,
  (String.length r < fuel)%nat ->
  ParseValue_fuel fuel r <> OutOfFuel /\
  forall v rest, ParseValue_fuel fuel r = Ok v rest ->
    (String.length rest < String.length r)%nat.
Proof.
  induction fuel as [|fuel IH]; intros r Hfuel; [lia|].
  destruct r as [|b r]; [done|].
  rewrite ParseValue_fuel_cons. simpl String.length.
  assert (Hline : forall (k : string -> Reader RedisValue),
    (forall line r', (String.length r' < String.length r)%nat ->
       k line r' <> OutOfFuel /\
       forall v rest, k line r' = Ok v rest ->
         (String.length rest <= String.length r')%nat) ->
    bind readLine k r <> OutOfFuel /\
    forall v rest, bind readLine k r = Ok v rest ->
      (String.length rest < S (String.length r))%nat).
  { intros k Hk. unfold bind. pose proof (readLine_total r) as Ht.
    destruct (readLine r) as [line r'| |] eqn:Hr; [|done..].
    apply readLine_shrinks in Hr. destruct (Hk line r' Hr) as [? Hle].
    split; [done|]. intros v rest Hok. specialize (Hle _ _ Hok). lia. }
  destruct (Ascii.eqb b "+"); [|destruct (Ascii.eqb b "-");
    [|destruct (Ascii.eqb b ":"); [|destruct (Ascii.eqb b "$");
      [|destruct (Ascii.eqb b "*"); [|by unfold fail]]]]].
  - apply Hline. intros line r' _. split; [done|]. by intros v rest [= _ <-].
  - apply Hline. intros line r' _. split; [done|]. by intros v rest [= _ <-].
  - apply Hline. intros line r' _. destruct (ParseInt line); [|done].
    split; [done|]. by intros v rest [= _ <-].
  - apply Hline. intros line r' _. destruct (Atoi line) as [n|]; [|done].
    destruct (n =? -1) eqn:Hn1. { split; [done|]. by intros v rest [= _ <-]. }
    apply Z.eqb_neq in Hn1.
    destruct (n <? -1) eqn:Hneg; [done|]. apply Z.ltb_ge in Hneg.
    unfold bind. destruct (ReadFull n ErrBulkPayload r') as [buf r1| |] eqn:H1;
      [|done|unfold ReadFull in H1; by destruct (len r' <? n)].
    destruct (ReadFull 2 ErrBulkCRLFRead r1) as [crlf r2| |] eqn:H2;
      [|done|unfold ReadFull in H2; by destruct (len r1 <? 2)].
    apply ReadFull_Ok in H1 as [-> _]; [|lia].
    apply ReadFull_Ok in H2 as [-> _]; [|lia].
    destruct (String.eqb crlf CRLF); [|done].
    split; [done|]. intros v rest [= _ <-]. rewrite !length_app. lia.
  - apply Hline. intros line r' Hr'. unfold parseArray.
    destruct (Atoi line) as [n|]; [|done].
    destruct (n =? -1). { split; [done|]. by intros v rest [= _ <-]. }
    destruct (n <? -1); [done|].
    apply parseElements_total; [lia|].
    intros r'' ?. apply IH. simpl in Hfuel. lia.
Qed.

Lemma ParseValue_total r : ParseValue r <> OutOfFuel.
Proof. apply ParseValue_fuel_total. lia. Qed.

Lemma parseElements_array PV count : forall n i acc r v rest,
  parseElements PV n i count acc r = Ok v rest -> exists vs, v = RedisArray vs.
Proof.
  induction n as [|n IH]; intros i acc r v rest; cbn [parseElements];
    destruct (i <? count); try done; try (intros [= <- _]; eauto).
  destruct (PV r); try done. apply IH.
Qed.

Lemma SendRaw_args_encodeAll args : SendRaw_args args = encodeAll (map bulk args).
Proof.
  induction args as [|a args IH]; [done|].
  cbn [SendRaw_args map encodeAll fold_right]. fold (encodeAll (map bulk args)).
  rewrite IH. cbn [bulk encode]. by rewrite !app_assoc.
Qed.

Lemma SendRaw_bytes_encode args : SendRaw_bytes args = encode (commandValue args).
Proof.
  unfold SendRaw_bytes, commandValue. rewrite encode_array, length_map.
  by rewrite SendRaw_args_encodeAll.
Qed.

Lemma ParseValue_SendRaw args :
  wellFormed (commandValue args) = true ->
  ParseValue (SendRaw_bytes args) = Ok (commandValue args) "".
Proof.
  intros Hwf. rewrite SendRaw_bytes_encode.
  rewrite <- (app_nil_r (encode (commandValue args))).
  by apply ParseValue_encode.
Qed.

(** A negative length other than -1, a length of -1. *)
Lemma ParseValue_bulk_header line n r :
  Atoi line = Some n ->
  ParseValue ("$" +:+ line +:+ CRLF +:+ r) =
    if n =? -1 then Ok RedisNull r
    else if n <? -1 then Err (ErrBulkNegative n)
    else bind (ReadFull n ErrBulkPayload) (fun buf =>
           bind (ReadFull 2 ErrBulkCRLFRead) (fun crlf =>
             if String.eqb crlf CRLF then ret (RedisBulkString buf n)
             else fail (ErrBulkCRLF crlf))) r.
Proof.
  intros Hline. unfold ParseValue. tag. unfold parseBulkString. unfold bind at 1.
  rewrite readLine_app by (eapply ParseInt_noLF; exact Hline). rewrite Hline.
  by destruct (n =? -1), (n <? -1).
Qed.

Lemma ParseValue_array_header line n r :
  Atoi line = Some n -> n < 0 ->
  ParseValue ("*" +:+ line +:+ CRLF +:+ r) =
    if n =? -1 then Ok RedisNull r else Err (ErrArrayNegative n).
Proof.
  intros Hline Hn. unfold ParseValue. tag. unfold parseArray. unfold bind at 1.
  rewrite readLine_app by (eapply ParseInt_noLF; exact Hline). rewrite Hline.
  destruct (n =? -1) eqn:E1; [done|].
  destruct (n <? -1) eqn:E2; [done|]. apply Z.eqb_neq in E1. apply Z.ltb_ge in E2. lia.
Qed.

Lemma ParseValue_header_unread line r :
  noLF line = true -> Atoi line = None ->
  ParseValue ("$" +:+ line +:+ CRLF +:+ r) = Err (ErrBulkLength line) /\
  ParseValue ("*" +:+ line +:+ CRLF +:+ r) = Err (ErrArrayCount line).
Proof.
  intros Hlf Hline. unfold ParseValue. split; tag.
  - unfold parseBulkString. unfold bind at 1. by rewrite readLine_app, Hline.
  - unfold parseArray. unfold bind at 1. by rewrite readLine_app, Hline.
Qed.

Lemma ParseValue_Null r rest :
  ParseValue r = Ok RedisNull rest ->
  exists tag r1 line,
    r = String tag r1 /\ (tag = "$" \/ tag = "*")%char /\
    readLine r1 = Ok line rest /\ Atoi line = Some (-1).
Proof.
  unfold ParseValue. destruct r as [|b r]; [done|].
  rewrite ParseValue_fuel_cons.
  destruct (Ascii.eqb_spec b "+") as [|_].
  { unfold parseSimpleString, bind, ret. by destruct (readLine r). }
  destruct (Ascii.eqb_spec b "-") as [|_].
  { unfold parseError, bind, ret. by destruct (readLine r). }
  destruct (Ascii.eqb_spec b ":") as [|_].
  { unfold parseInteger, bind, ret. destruct (readLine r); try done.
    by destruct (ParseInt a). }
  destruct (Ascii.eqb_spec b "$") as [->|_].
  { unfold parseBulkString. unfold bind at 1.
    destruct (readLine r) as [line r'| |] eqn:Hr; try done.
    destruct (Atoi line) as [m|] eqn:Hm; [|done].
    destruct (m =? -1) eqn:E1.
    - apply Z.eqb_eq in E1 as ->. intros [= <-]. exists "$"%char, r, line. eauto.
    - destruct (m <? -1); [done|]. unfold bind.
      destruct (ReadFull m ErrBulkPayload r') as [buf r1| |]; try done.
      destruct (ReadFull 2 ErrBulkCRLFRead r1) as [crlf r2| |]; try done.
      by destruct (String.eqb crlf CRLF). }
  destruct (Ascii.eqb_spec b "*") as [->|_]; [|done].
  unfold parseArray. unfold bind at 1.
  destruct (readLine r) as [line r'| |] eqn:Hr; try done.
  destruct (Atoi line) as [m|] eqn:Hm; [|done].
  destruct (m =? -1) eqn:E1.
  - apply Z.eqb_eq in E1 as ->. intros [= <-]. exists "*"%char, r, line. eauto.
  - destruct (m <? -1); [done|].
    intros H. apply parseElements_array in H as [vs ?]. done.
Qed.

End CodecFacts.

Module CommandFacts.
Import Go strconv utf8 unicode strings command conn StringFacts StrconvFacts.

Lemma DecodeRune_ascii c s :
  byteval c < 128 -> DecodeRuneInString (String c s) = (byteval c, 1%nat).
Proof.
  intros H. unfold DecodeRuneInString, RuneSelf.
  destruct (byteval c <? 128) eqn:E; [done|]. apply Z.ltb_ge in E. lia.
Qed.

Lemma EncodeRune_ascii c : byteval c < 128 -> EncodeRune (byteval c) = String c "".
Proof.
  intros H. unfold EncodeRune. pose proof (byteval_range c).
  destruct (0 <=? byteval c) eqn:E1; [|apply Z.leb_gt in E1; lia].
  destruct (byteval c <=? 127) eqn:E2; [|apply Z.leb_gt in E2; lia].
  simpl. by rewrite byte_of_byteval.
Qed.

Lemma plainByte_spec c :
  plainByte c = true ->
  33 <= byteval c <= 126 /\ byteval c <> 34 /\ byteval c <> 35 /\
  byteval c <> 92 /\ byteval c <> 124.
Proof.
  unfold plainByte. rewrite !andb_true_iff, !negb_true_iff, !Z.eqb_neq.
  rewrite !Z.leb_le. tauto.
Qed.

Lemma IsSpace_printable r : 33 <= r <= 126 -> IsSpace r = false.
Proof.
  intros H. unfold IsSpace.
  destruct (0 <=? r) eqn:E1; [|apply Z.leb_gt in E1; lia].
  destruct (r <=? 255) eqn:E2; [|apply Z.leb_gt in E2; lia].
  cbn [andb]. repeat (apply orb_false_iff; split); try (apply Z.eqb_neq; lia).
  apply andb_false_iff. right. apply Z.leb_gt. lia.
Qed.

Lemma tokStep_plain toks cur q c :
  plainByte c = true ->
  tokStep (mkTok toks cur q false) (byteval c)
  = mkTok toks (cur +:+ String c "") q false.
Proof.
  intros (Hr & H34 & _ & H92 & _)%plainByte_spec. unfold tokStep. cbn [escaped].
  destruct (byteval c =? 92) eqn:E1; [apply Z.eqb_eq in E1; lia|].
  destruct (byteval c =? 34) eqn:E2; [apply Z.eqb_eq in E2; lia|].
  rewrite IsSpace_printable by done. cbn [andb tokens currentToken inQuotes].
  rewrite EncodeRune_ascii by lia. done.
Qed.

Lemma rangeRunes_plain w : forall rest toks cur q,
  allBytes plainByte w = true ->
  rangeRunes (w +:+ rest) 0 (mkTok toks cur q false)
  = rangeRunes rest 0 (mkTok toks (cur +:+ w) q false).
Proof.
  induction w as [|c w IH]; intros rest toks cur q Hw.
  { by rewrite app_nil_r. }
  simpl in Hw. apply andb_true_iff in Hw as [Hc Hw].
  cbn [String.append rangeRunes].
  rewrite DecodeRune_ascii by (apply plainByte_spec in Hc; lia).
  rewrite tokStep_plain by done. cbn [Nat.sub]. rewrite IH by done.
  by rewrite app_assoc.
Qed.

Lemma rangeRunes_space rest toks cur :
  rangeRunes (String " " rest) 0 (mkTok toks cur false false)
  = rangeRunes rest 0
      (if 0 <? len cur then mkTok (toks ++ [cur]) "" false false
       else mkTok toks cur false false).
Proof. reflexivity. Qed.

Lemma tokStep_tokens st r : exists more, tokens (tokStep st r) = tokens st ++ more.
Proof.
  unfold tokStep.
  repeat match goal with
         | |- context [if ?b then _ else _] => destruct b
         end; cbn [tokens]; try (exists []; by rewrite List.app_nil_r); eauto.
Qed.

Lemma rangeRunes_tokens s : forall skip st,
  exists more, tokens (rangeRunes s skip st) = tokens st ++ more.
Proof.
  induction s as [|c s IH]; intros skip st; cbn [rangeRunes].
  { exists []. by rewrite List.app_nil_r. }
  destruct skip as [|k]; [|apply IH].
  destruct (DecodeRuneInString (String c s)) as [r size].
  destruct (IH (size - 1)%nat (tokStep st r)) as [m1 H1].
  destruct (tokStep_tokens st r) as [m2 H2].
  exists (m2 ++ m1). by rewrite H1, H2, <- List.app_assoc.
Qed.

Lemma plainWord_spec w :
  plainWord w = true -> w <> "" /\ allBytes plainByte w = true /\ 0 < len w.
Proof.
  unfold plainWord. intros [Hne ?]%andb_true_iff.
  apply negb_true_iff, String.eqb_neq in Hne. repeat split; try done.
  destruct w; [done|]. unfold len. simpl. lia.
Qed.

(** The tokenizer gives back the words of a line of plain words. *)
Lemma rangeRunes_join ws : forall w acc,
  plainWord w = true -> forallb plainWord ws = true ->
  rangeRunes (joinWords (w :: ws)) 0 (mkTok acc "" false false)
  = mkTok (acc ++ removelast (w :: ws)) (List.last (w :: ws) "") false false.
Proof.
  induction ws as [|w' ws IH]; intros w acc Hw Hws.
  - cbn [joinWords]. destruct (plainWord_spec w Hw) as (_ & Hall & _).
    rewrite <- (app_nil_r w) at 1. rewrite rangeRunes_plain by done.
    simpl. by rewrite List.app_nil_r.
  - cbn [forallb] in Hws. apply andb_true_iff in Hws as [Hw' Hws].
    destruct (plainWord_spec w Hw) as (_ & Hall & Hlen).
    change (joinWords (w :: w' :: ws)) with (w +:+ String " " (joinWords (w' :: ws))).
    rewrite rangeRunes_plain by done. cbn [String.append].
    rewrite rangeRunes_space.
    destruct (0 <? len w) eqn:E; [|apply Z.ltb_ge in E; lia].
    rewrite IH by done.
    change (removelast (w :: w' :: ws)) with (w :: removelast (w' :: ws)).
    change (List.last (w :: w' :: ws) "") with (List.last (w' :: ws) "").
    by rewrite <- List.app_assoc.
Qed.

Lemma last_plain w ws :
  plainWord w = true -> forallb plainWord ws = true ->
  0 < len (List.last (w :: ws) "").
Proof.
  revert w. induction ws as [|w' ws IH]; intros w Hw Hws.
  - by apply plainWord_spec.
  - cbn [forallb] in Hws. apply andb_true_iff in Hws as [Hw' Hws].
    change (List.last (w :: w' :: ws) "") with (List.last (w' :: ws) ""). eauto.
Qed.

Lemma tokenize_join w ws :
  plainWord w = true -> forallb plainWord ws = true ->
  tokenize (joinWords (w :: ws)) = w :: ws.
Proof.
  intros Hw Hws. unfold tokenize. rewrite rangeRunes_join by done.
  cbn [currentToken tokens]. pose proof (last_plain w ws Hw Hws) as Hl.
  destruct (0 <? len _) eqn:E; [|apply Z.ltb_ge in E; lia].
  cbn [app]. symmetry. apply app_removelast_last. done.
Qed.

(** A substring holding a byte that the string lacks occurs nowhere. *)
Lemma HasPrefix_allBytes q s p :
  HasPrefix s p = true -> allBytes q s = true -> allBytes q p = true.
Proof.
  revert s. induction p as [|a p IH]; intros [|b s]; simpl; try done.
  intros [->%Ascii.eqb_eq Hp]%andb_true_iff [Hb Hs]%andb_true_iff.
  rewrite Hb. simpl. eauto.
Qed.

Lemma Index_absent q sub s : forall i found,
  allBytes q s = true -> allBytes q sub = false ->
  Index_from i s sub = -1 /\ LastIndex_from i found s sub = found.
Proof.
  induction s as [|c s IH]; intros i found Hs Hsub.
  - cbn [Index_from LastIndex_from].
    destruct (HasPrefix "" sub) eqn:Hp; [|done].
    eapply HasPrefix_allBytes in Hp; [|exact Hs]. congruence.
  - cbn [Index_from LastIndex_from].
    destruct (HasPrefix (String c s) sub) eqn:Hp.
    { eapply HasPrefix_allBytes in Hp; [|exact Hs]. congruence. }
    simpl in Hs. apply andb_true_iff in Hs as [_ Hs]. by apply IH.
Qed.

Lemma joinWords_allBytes q ws :
  q " "%char = true -> forallb (allBytes q) ws = true ->
  allBytes q (joinWords ws) = true.
Proof.
  intros Hsp. induction ws as [|w ws IH]; [done|].
  cbn [forallb]. intros [Hw Hws]%andb_true_iff.
  destruct ws as [|w' ws]; [done|].
  change (joinWords (w :: w' :: ws)) with (w +:+ String " " (joinWords (w' :: ws))).
  rewrite allBytes_app, Hw. simpl. rewrite Hsp. simpl. by apply IH.
Qed.

Lemma forallb_impl {A} (p q : A -> bool) l :
  (forall x, p x = true -> q x = true) -> forallb p l = true -> forallb q l = true.
Proof.
  intros H. induction l; simpl; [done|].
  intros [? ?]%andb_true_iff. rewrite H, IHl; auto.
Qed.

Lemma join_no_suffixes w ws :
  plainWord w = true -> forallb plainWord ws = true ->
  Index (joinWords (w :: ws)) " | " = -1 /\
  LastIndex (joinWords (w :: ws)) "#:" = -1.
Proof.
  intros Hw Hws.
  assert (Hall : forall b, b = 35 \/ b = 124 ->
    allBytes (fun c => negb (byteval c =? b)) (joinWords (w :: ws)) = true).
  { intros b Hb. apply joinWords_allBytes.
    { destruct Hb as [-> | ->]; done. }
    eapply forallb_impl; [|exact (proj2 (andb_true_iff _ _)
        (conj Hw Hws) : forallb plainWord (w :: ws) = true)].
    intros x (_ & Hx & _)%plainWord_spec.
    eapply allBytes_impl; [|exact Hx].
    intros c Hc%plainByte_spec. apply negb_true_iff, Z.eqb_neq. lia. }
  split.
  - eapply (Index_absent _ " | " _ 0 0); [apply (Hall 124); auto | done].
  - eapply (Index_absent _ "#:" _ 0 (-1)); [apply (Hall 35); auto | done].
Qed.

(** White space is not trimmed past other ASCII bytes. *)
Lemma spaceRune_ascii c t :
  byteval c < 128 -> IsSpace (byteval c) = false -> spaceRune (String c t) = false.
Proof.
  intros Hc Hs. unfold spaceRune. by rewrite DecodeRune_ascii, Hs.
Qed.

Lemma TrimSpace_head c s :
  byteval c < 128 -> IsSpace (byteval c) = false ->
  exists t, TrimSpace (String c s) = String c t.
Proof.
  intros Hc Hs. unfold TrimSpace. cbn [TrimLeftSpace].
  rewrite DecodeRune_ascii, Hs by done. cbn [TrimRightSpace].
  rewrite spaceRune_ascii by done. eauto.
Qed.

Lemma encodeTokens_plain ext name toks : forall i,
  encodeTokens ext name "" i toks = inr (SendRaw_args toks).
Proof.
  induction toks as [|t toks IH]; intros i; [done|].
  cbn [encodeTokens SendRaw_args]. rewrite andb_false_r. by rewrite IH.
Qed.

Lemma encodeTokens_other ext name modifier toks : forall i,
  String.eqb name "SET" = false ->
  exists body, encodeTokens ext name modifier i toks = inr body.
Proof.
  induction toks as [|t toks IH]; intros i Hname; [by eexists|].
  cbn [encodeTokens]. rewrite Hname. cbn [andb].
  destruct (IH (i + 1) Hname) as [tail ->]. by eexists.
Qed.

(** [Parse] on a line of plain words: the bytes it builds are those of
    [SendRaw] on the words. *)
Lemma Parse_plain ext w ws :
  plainWord w = true -> forallb plainWord ws = true ->
  Parse ext (joinWords (w :: ws)) None
  = inr (mkParsed (joinWords (w :: ws)) (ToUpper (unicodeUpper ext) w) ws
           (SendRaw_bytes (w :: ws)) "" "" None).
Proof.
  intros Hw Hws. unfold Parse.
  destruct (plainWord_spec w Hw) as (Hne & Hall & _).
  destruct w as [|c w]; [done|].
  assert (Hc : 33 <= byteval c <= 126).
  { simpl in Hall. apply andb_true_iff in Hall as [Hc%plainByte_spec _]. lia. }
  assert (Hblank : String.eqb (TrimSpace (joinWords (String c w :: ws))) "" = false).
  { assert (Hj : exists s', joinWords (String c w :: ws) = String c s').
    { destruct ws; [by eexists|]. cbn [joinWords String.append]. by eexists. }
    destruct Hj as [s' ->].
    by destruct (TrimSpace_head c s') as [t ->];
      [lia|by apply IsSpace_printable|]. }
  rewrite Hblank. cbv zeta.
  destruct (join_no_suffixes (String c w) ws Hw Hws) as [Hp Hm].
  rewrite Hp. change (-1 =? -1) with true. cbv iota.
  rewrite Hm. change (-1 =? -1) with true. cbv iota.
  rewrite (tokenize_join (String c w) ws) by done.
  by rewrite encodeTokens_plain.
Qed.

(** *** [Parse] returns a command for every line that starts with a
    command name other than SET *)

Lemma Index_from_skip q x sub' verb t : forall j found,
  allBytes q verb = true -> q x = false ->
  Index_from j (verb +:+ t) (String x sub')
  = Index_from (j + len verb) t (String x sub') /\
  LastIndex_from j found (verb +:+ t) (String x sub')
  = LastIndex_from (j + len verb) found t (String x sub').
Proof.
  induction verb as [|c verb IH]; intros j found Hv Hx.
  { unfold len. simpl. by rewrite Z.add_0_r. }
  simpl in Hv. apply andb_true_iff in Hv as [Hc Hv].
  cbn [String.append Index_from LastIndex_from HasPrefix].
  assert (Ascii.eqb x c = false) as ->.
  { apply Ascii.eqb_neq. intros ->. congruence. }
  cbn [andb]. destruct (IH (j + 1) found Hv Hx) as [-> ->].
  unfold len. simpl String.length. rewrite Nat2Z.inj_succ.
  by replace (j + 1 + Z.of_nat (String.length verb))
    with (j + Z.succ (Z.of_nat (String.length verb))) by lia.
Qed.

Lemma Index_from_range sub s : forall j,
  Index_from j s sub = -1 \/ j <= Index_from j s sub.
Proof.
  induction s as [|c s IH]; intros j; cbn [Index_from];
    destruct (HasPrefix _ sub); auto; try lia.
  destruct (IH (j + 1)); [auto|right; lia].
Qed.

Lemma LastIndex_from_range sub j0 s : forall j found,
  j0 <= j -> (found = -1 \/ j0 <= found) ->
  LastIndex_from j found s sub = -1 \/ j0 <= LastIndex_from j found s sub.
Proof.
  induction s as [|c s IH]; intros j found Hj Hf; cbn [LastIndex_from].
  - destruct (HasPrefix _ sub); auto.
  - apply IH; [lia|]. destruct (HasPrefix _ sub); auto.
Qed.

Lemma take_app_ge s t n :
  (String.length s <= n)%nat -> take n (s +:+ t) = s +:+ take (n - String.length s) t.
Proof.
  revert n. induction s as [|c s IH]; intros n Hn.
  { simpl. by rewrite Nat.sub_0_r. }
  destruct n as [|n]; [simpl in Hn; lia|].
  cbn [String.append take String.length Nat.sub]. rewrite IH; [done|]. simpl in Hn. lia.
Qed.

Lemma headed_take k t : headed t -> headed (take k t).
Proof.
  intros [->|[t' ->]]; destruct k; simpl; unfold headed; eauto.
Qed.

Lemma capitals_spec verb :
  capitals verb = true ->
  verb <> "" /\ allBytes plainByte verb = true /\
  isASCII verb = true /\ mapBytes upperByte verb = verb /\
  allBytes (fun c => negb (Ascii.eqb c " ") && negb (Ascii.eqb c "#")) verb = true.
Proof.
  unfold capitals. intros [Hne Hall]%andb_true_iff.
  apply negb_true_iff, String.eqb_neq in Hne. split; [done|]. clear Hne.
  induction verb as [|c verb IH]; [done|].
  simpl in Hall. apply andb_true_iff in Hall as [Hc Hall].
  apply andb_true_iff in Hc as [H1%Z.leb_le H2%Z.leb_le].
  destruct (IH Hall) as (I1 & I2 & I3 & I4).
  unfold isASCII in *. cbn [allBytes mapBytes]. rewrite I1, I2, I3, I4.
  repeat split.
  - apply andb_true_iff. split; [|done]. unfold plainByte.
    rewrite !andb_true_iff, !negb_true_iff, !Z.eqb_neq, !Z.leb_le. lia.
  - apply andb_true_iff. split; [|done]. apply Z.ltb_lt. unfold utf8.RuneSelf. lia.
  - f_equal. unfold upperByte.
    destruct (97 <=? byteval c) eqn:E; [apply Z.leb_le in E; lia|done].
  - apply andb_true_iff. split; [|done].
    apply andb_true_iff; split; apply negb_true_iff, Ascii.eqb_neq;
      intros ->; vm_compute in H1, H2; congruence.
Qed.

Lemma cut_verb verb t i :
  headed t -> (i = -1 \/ len verb <= i) ->
  exists t', (if i =? -1 then verb +:+ t else take (Z.to_nat i) (verb +:+ t))
             = verb +:+ t' /\ headed t'.
Proof.
  intros Ht [->|Hi]; [by eexists|].
  destruct (i =? -1) eqn:E; [by eexists|].
  rewrite take_app_ge by (unfold len in Hi; lia).
  eexists. split; [done|]. by apply headed_take.
Qed.

Lemma tokenize_verb verb t :
  capitals verb = true -> headed t ->
  exists more, tokenize (verb +:+ t) = verb :: more.
Proof.
  intros (Hne & Hplain & _)%capitals_spec Ht. unfold tokenize.
  rewrite rangeRunes_plain by done. cbn [String.append].
  assert (Hlen : (0 <? len verb) = true).
  { apply Z.ltb_lt. destruct verb; [done|]. unfold len. simpl. lia. }
  destruct Ht as [->|[t' ->]].
  - cbn [rangeRunes currentToken tokens]. rewrite Hlen. by eexists.
  - rewrite rangeRunes_space, Hlen. cbn [app].
    destruct (rangeRunes_tokens t' 0 (mkTok [verb] "" false false))
      as [more Hmore].
    cbn [tokens app] in Hmore. rewrite Hmore.
    match goal with
    | |- context [if ?b then _ else _] => destruct b
    end; cbn [app]; eexists; reflexivity.
Qed.

Lemma Parse_verb ext verb tail :
  capitals verb = true -> verb <> "SET" ->
  exists cmd, Parse ext (verb +:+ " " +:+ tail) None = inr cmd.
Proof.
  intros Hverb Hset. unfold Parse.
  destruct (String.eqb (TrimSpace _) ""); [by eexists|]. cbv zeta.
  destruct (capitals_spec verb Hverb) as (Hne & Hplain & Hascii & Hupper & Hq).
  destruct (cut_verb verb (" " +:+ tail) (Index (verb +:+ " " +:+ tail) " | "))
    as (t1 & -> & Ht1).
  { right. by eexists. }
  { unfold Index.
    rewrite (proj1 (Index_from_skip (fun c => negb (Ascii.eqb c " ") && negb (Ascii.eqb c "#"))
               " " "| " verb _ 0 0 Hq eq_refl)).
    destruct (Index_from_range " | " (" " +:+ tail) (0 + len verb)); [auto|right; lia]. }
  destruct (cut_verb verb t1 (LastIndex (verb +:+ t1) "#:")) as (t2 & -> & Ht2).
  { done. }
  { unfold LastIndex.
    rewrite (proj2 (Index_from_skip (fun c => negb (Ascii.eqb c " ") && negb (Ascii.eqb c "#"))
               "#" ":" verb _ 0 (-1) Hq eq_refl)).
    apply LastIndex_from_range; [lia|auto]. }
  destruct (tokenize_verb verb t2 Hverb Ht2) as [more ->].
  unfold ToUpper at 1. rewrite Hascii, Hupper.
  destruct (encodeTokens_other ext verb
              (if LastIndex (verb +:+ t1) "#:" =? -1 then ""
               else TrimSpace (drop (Z.to_nat (LastIndex (verb +:+ t1) "#:" + 2)) (verb +:+ t1)))
              (verb :: more) 0) as [body Hbody].
  { by apply String.eqb_neq. }
  rewrite Hbody. by eexists.
Qed.

End CommandFacts.

Module IterFacts.
Import Go strconv resp command conn mock wire StringFacts CommandFacts.

Lemma loop_mono {S R} (body : S -> control S R) n : forall m s r,
  (n <= m)%nat -> loop body n s = Returned r -> loop body m s = Returned r.
Proof.
  induction n as [|n IH]; intros m s r Hm; [done|].
  destruct m as [|m]; [lia|]. cbn [loop].
  destruct (body s); try done. apply IH. lia.
Qed.

Lemma loop_Continue {S R} (body : S -> control S R) n s s' :
  body s = Continue s' -> loop body (Datatypes.S n) s = loop body n s'.
Proof. intros H. cbn [loop]. by rewrite H. Qed.

Lemma loop_Return {S R} (body : S -> control S R) n s r :
  body s = Return r -> loop body (Datatypes.S n) s = Returned r.
Proof. intros H. cbn [loop]. by rewrite H. Qed.

Section Consumers.
Context {K : Type} (yield : RedisValue -> K -> bool * K).

(** The pairing loop yields the adjacent pairs of what lies past [i]. *)
Lemma yieldPairs_pairUp n : forall pre rest k,
  (length rest <= n)%nat ->
  yieldPairs yield n (Z.of_nat (length pre)) (pre ++ rest) k
  = yieldEach yield (pairUp rest) k.
Proof.
  induction n as [|n IH]; intros pre rest k Hn.
  - destruct rest; [|simpl in Hn; lia]. cbn [yieldPairs].
    rewrite List.app_nil_r, Z.ltb_irrefl. done.
  - cbn [yieldPairs]. rewrite List.length_app.
    destruct rest as [|f [|v rest]].
    + simpl length. rewrite Nat.add_0_r, Z.ltb_irrefl. done.
    + simpl length.
      destruct (Z.of_nat (length pre) <? Z.of_nat (length pre + 1)) eqn:E1;
        [|apply Z.ltb_ge in E1; lia].
      destruct (Z.of_nat (length pre) + 1 <? Z.of_nat (length pre + 1)) eqn:E2;
        [apply Z.ltb_lt in E2; lia|].
      assert (E3 : (Z.of_nat (length pre) + 2 <? Z.of_nat (length pre + 1)) = false)
        by (apply Z.ltb_ge; lia).
      destruct n; cbn [yieldPairs]; rewrite List.length_app; simpl length;
        by rewrite E3.
    + simpl length.
      destruct (Z.of_nat (length pre) <? Z.of_nat (length pre + S (S (length rest))))
        eqn:E1; [|apply Z.ltb_ge in E1; lia].
      destruct (Z.of_nat (length pre) + 1 <? Z.of_nat (length pre + S (S (length rest))))
        eqn:E2; [|apply Z.ltb_ge in E2; lia].
      rewrite Nat2Z.id.
      replace (Z.to_nat (Z.of_nat (length pre) + 1)) with (S (length pre)) by lia.
      rewrite nth_middle.
      replace (pre ++ f :: v :: rest) with ((pre ++ [f]) ++ v :: rest)
        by (by rewrite <- List.app_assoc).
      replace (S (length pre)) with (length (pre ++ [f]))
        by (rewrite List.length_app; simpl; lia).
      rewrite nth_middle. cbn [pairUp yieldEach].
      destruct (yield (RedisArray [f; v]) k) as [more k'].
      destruct more; [|done].
      replace ((pre ++ [f]) ++ v :: rest) with ((pre ++ [f; v]) ++ rest)
        by (by rewrite <- !List.app_assoc).
      replace (Z.of_nat (length pre) + 2) with (Z.of_nat (length (pre ++ [f; v])))
        by (rewrite List.length_app; simpl; lia).
      apply IH. simpl in Hn. lia.
Qed.

Lemma yieldHash_pairUp vals k :
  yieldHash yield vals k = yieldEach yield (pairUp vals) k.
Proof. unfold yieldHash. by apply (yieldPairs_pairUp _ [] vals). Qed.

End Consumers.

Lemma yieldEach_collect xs : forall k, yieldEach collect xs k = (true, k ++ xs).
Proof.
  induction xs as [|x xs IH]; intros k; cbn [yieldEach collect].
  - by rewrite List.app_nil_r.
  - rewrite IH. by rewrite <- List.app_assoc.
Qed.

Lemma yieldHash_collect vals k : yieldHash collect vals k = (true, k ++ pairUp vals).
Proof. by rewrite yieldHash_pairUp, yieldEach_collect. Qed.

Lemma pairUp_flatten fvs : pairUp (flatten fvs) = map pair fvs.
Proof. induction fvs as [|[f v] fvs IH]; [done|]. simpl. by rewrite <- IH. Qed.

Lemma pairUp_flatten_odd fvs x : pairUp (flatten fvs ++ [x]) = map pair fvs.
Proof. induction fvs as [|[f v] fvs IH]; [done|]. simpl. by rewrite <- IH. Qed.

Lemma last_cons {A} (l : list A) : forall x d, List.last (x :: l) d = List.last l x.
Proof.
  induction l as [|y l IH]; intros x d; [done|].
  change (List.last (x :: y :: l) d) with (List.last (y :: l) d).
  rewrite !IH. done.
Qed.

(** *** The scripted peer *)
Lemma Receive_scripted timeout (w : Scripted) :
  0 < timeout ->
  Receive timeout w =
    match script w with
    | ReceiveFails err :: rest => (inl err, mkScripted rest (written w) (closed w))
    | Reply v :: rest => (inr v, mkScripted rest (written w) (closed w))
    | _ => (inl EOF, w)
    end.
Proof.
  intros Ht. unfold Receive. apply Z.ltb_lt in Ht. rewrite Ht. cbn.
  destruct w as [[|[]] ?]; done.
Qed.

Lemma Send_scripted cmd (w : Scripted) :
  Send cmd w =
    match script w with
    | SendFails err :: rest =>
        (Some err, mkScripted rest (written w ++ [CommandBytes cmd]) (closed w))
    | _ => (None, mkScripted (script w) (written w ++ [CommandBytes cmd]) (closed w))
    end.
Proof. reflexivity. Qed.

(** *** The scan family against a scripted peer *)
Section Scan.
Variable ext : Extern.
Variables (verb : string) (cmdStr : string -> string) (what : string).
Variable emit : list RedisValue -> list RedisValue -> bool * list RedisValue.
Variable out : list RedisValue -> list RedisValue.
Hypothesis parses : forall cursor, exists cmd, Parse ext (cmdStr cursor) None = inr cmd.
Hypothesis emits : forall vals k, emit vals k = (true, k ++ out vals).

#[local] Abbreviation body := (scanBody ext collect verb cmdStr what emit).

Lemma request_bytes line cmd :
  Parse ext line None = inr cmd -> CommandBytes cmd = request ext line.
Proof. intros H. unfold request. by rewrite H. Qed.

Lemma scanBody_page cursor p rest wr cl k :
  body (cursor, mkScripted (scanReply p :: rest) wr cl, k)
  = let w := mkScripted rest (wr ++ [request ext (cmdStr cursor)]) cl in
    if moreToScan p then Continue (cursorOf p, w, k ++ out (snd p))
    else Return (w, k ++ out (snd p)).
Proof.
  destruct (parses cursor) as [cmd Hcmd].
  rewrite <- (request_bytes _ _ Hcmd). unfold scanBody.
  rewrite Hcmd, Send_scripted. unfold scanReply. cbn [script written closed].
  rewrite Receive_scripted by done. cbn [script written closed].
  rewrite emits. cbn [negb].
  unfold moreToScan, cursorOf. by destruct (String.eqb _ "0").
Qed.

Lemma scanBody_fail cursor ex rest wr cl k :
  failing scanShape ex = true ->
  exists msg,
    body (cursor, mkScripted (ex :: rest) wr cl, k)
    = Return (mkScripted rest (wr ++ [request ext (cmdStr cursor)]) cl,
              k ++ [RedisError msg]).
Proof.
  intros Hex. destruct (parses cursor) as [cmd Hcmd].
  rewrite <- (request_bytes _ _ Hcmd). unfold scanBody.
  rewrite Hcmd, Send_scripted.
  destruct ex as [err|err|v|]; [| | |done]; cbn [script written closed].
  - cbn. by eexists.
  - rewrite Receive_scripted by done. cbn. by eexists.
  - rewrite Receive_scripted by done. cbn [script written closed].
    destruct v as [| | |[|c0 [|v1 vs]]| |]; try (cbn; by eexists).
    destruct v1; try done; cbn; by eexists.
Qed.

Lemma scan_pages pages : forall cursor wr cl k m rest,
  forallb moreToScan pages = true ->
  loop body (length pages + m) (cursor, mkScripted (map scanReply pages ++ rest) wr cl, k)
  = loop body m
      (cursorAfter cursor pages,
       mkScripted rest
         (wr ++ map (fun c => request ext (cmdStr c)) (cursorsUsed cursor pages)) cl,
       k ++ flat_map (fun p => out (snd p)) pages).
Proof.
  induction pages as [|p pages IH]; intros cursor wr cl k m rest Hp.
  { cbn. by rewrite !List.app_nil_r. }
  cbn [forallb] in Hp. apply andb_true_iff in Hp as [Hp Hps].
  cbn [length Nat.add map app]. erewrite loop_Continue;
    [|rewrite scanBody_page; cbv zeta; rewrite Hp; reflexivity].
  rewrite IH by done. cbn [cursorsUsed map flat_map].
  rewrite <- !List.app_assoc. cbn [app].
  unfold cursorAfter. cbn [map]. by rewrite last_cons.
Qed.

Lemma chain_split pages :
  chain pages = true ->
  exists init final,
    pages = init ++ [final] /\ forallb moreToScan init = true /\
    moreToScan final = false.
Proof.
  induction pages as [|p pages IH]; [done|].
  destruct pages as [|q pages].
  - cbn [chain]. intros H%negb_true_iff. by exists [], p.
  - change (chain (p :: q :: pages)) with (moreToScan p && chain (q :: pages)).
    intros [Hp Hc]%andb_true_iff.
    destruct (IH Hc) as (init & final & -> & Hi & Hf).
    exists (p :: init), final. cbn [forallb]. by rewrite Hp, Hi.
Qed.

Lemma length_cursorsUsed pages : forall cursor,
  length (cursorsUsed cursor pages) = length pages.
Proof. induction pages; intros; cbn [cursorsUsed length]; by rewrite ?IHpages. Qed.

Lemma cursorsUsed_app pages : forall cursor final,
  cursorsUsed cursor (pages ++ [final])
  = cursorsUsed cursor pages ++ [cursorAfter cursor pages].
Proof.
  induction pages as [|p pages IH]; intros cursor final; [done|].
  cbn [app cursorsUsed]. rewrite IH. unfold cursorAfter. cbn [map].
  by rewrite last_cons.
Qed.

(** A run over a chain of pages returns with the elements of them all. *)
Lemma scan_run pages cursor wr cl k fuel rest :
  chain pages = true -> (length pages <= fuel)%nat ->
  loop body fuel (cursor, mkScripted (map scanReply pages ++ rest) wr cl, k)
  = Returned
      (mkScripted rest
         (wr ++ map (fun c => request ext (cmdStr c)) (cursorsUsed cursor pages)) cl,
       k ++ flat_map (fun p => out (snd p)) pages).
Proof.
  intros (init & final & -> & Hinit & Hfinal)%chain_split Hfuel.
  apply (loop_mono _ (length init + 1)).
  { rewrite List.length_app in Hfuel. simpl in Hfuel. lia. }
  rewrite map_app, <- List.app_assoc, scan_pages by done.
  cbn [map app]. erewrite loop_Return;
    [|rewrite scanBody_page; cbv zeta; rewrite Hfinal; reflexivity].
  rewrite cursorsUsed_app, map_app, flat_map_app. cbn [map flat_map].
  by rewrite <- !List.app_assoc, List.app_nil_r.
Qed.

(** A failing exchange after pages that go on ends the run with one
    error. *)
Lemma scan_error pages bad :
  forallb moreToScan pages = true -> failing scanShape bad = true ->
  forall cursor rest fuel, (length pages < fuel)%nat ->
  exists msg w,
    loop body fuel (cursor, play (map scanReply pages ++ bad :: rest), [])
    = Returned (w, flat_map (fun p => out (snd p)) pages ++ [RedisError msg])
    /\ script w = rest /\ length (written w) = S (length pages).
Proof.
  intros Hpages Hbad cursor rest fuel Hfuel.
  destruct (scanBody_fail (cursorAfter cursor pages) bad rest
              ([] ++ map (fun c => request ext (cmdStr c)) (cursorsUsed cursor pages))
              false ([] ++ flat_map (fun p => out (snd p)) pages) Hbad)
    as [msg Hmsg].
  exists msg. eexists. split; [|split].
  - apply (loop_mono _ (length pages + 1)); [lia|].
    unfold play. rewrite scan_pages by done.
    erewrite loop_Return; [|exact Hmsg]. reflexivity.
  - done.
  - cbn [written app]. rewrite List.length_app, length_map, length_cursorsUsed.
    simpl. lia.
Qed.

End Scan.

(** *** The list range against a scripted peer *)
Section ListRange.
Variable ext : Extern.
Variable key : string.

#[local] Abbreviation lbody := (listBody ext collect key).

Lemma lrange_parses start :
  exists cmd, Parse ext (lrangeLine key start) None = inr cmd.
Proof. by apply (Parse_verb ext "LRANGE"). Qed.

Lemma listBody_reply start page rest wr cl k :
  lbody (start, mkScripted (arrayReply page :: rest) wr cl, k)
  = let w := mkScripted rest (wr ++ [request ext (lrangeLine key start)]) cl in
    if nonEmpty page then Continue (add start 100, w, k ++ page)
    else Return (w, k).
Proof.
  destruct (lrange_parses start) as [cmd Hcmd].
  rewrite <- (request_bytes _ _ _ Hcmd). unfold listBody.
  fold (lrangeLine key start).
  rewrite Hcmd, Send_scripted. unfold arrayReply. cbn [script written closed].
  rewrite Receive_scripted by done. cbn [script written closed].
  unfold nonEmpty. destruct (Z.of_nat (length page) =? 0); [done|].
  rewrite yieldEach_collect. done.
Qed.

Lemma listBody_fail start ex rest wr cl k :
  failing arrayShape ex = true ->
  exists msg,
    lbody (start, mkScripted (ex :: rest) wr cl, k)
    = Return (mkScripted rest (wr ++ [request ext (lrangeLine key start)]) cl,
              k ++ [RedisError msg]).
Proof.
  intros Hex. destruct (lrange_parses start) as [cmd Hcmd].
  rewrite <- (request_bytes _ _ _ Hcmd). unfold listBody.
  fold (lrangeLine key start). rewrite Hcmd, Send_scripted.
  destruct ex as [err|err|v|]; [| | |done]; cbn [script written closed].
  - cbn. by eexists.
  - rewrite Receive_scripted by done. cbn. by eexists.
  - rewrite Receive_scripted by done. cbn [script written closed].
    destruct v; try done; cbn; by eexists.
Qed.

Lemma list_pages pages : forall start wr cl k m rest,
  forallb nonEmpty pages = true ->
  loop lbody (length pages + m)
    (start, mkScripted (map arrayReply pages ++ rest) wr cl, k)
  = loop lbody m
      (startAfter start pages,
       mkScripted rest
         (wr ++ map (fun s => request ext (lrangeLine key s)) (startsUsed start pages)) cl,
       k ++ concat pages).
Proof.
  induction pages as [|p pages IH]; intros start wr cl k m rest Hp.
  { cbn. by rewrite !List.app_nil_r. }
  cbn [forallb] in Hp. apply andb_true_iff in Hp as [Hp Hps].
  cbn [length Nat.add map app]. erewrite loop_Continue;
    [|rewrite listBody_reply; cbv zeta; rewrite Hp; reflexivity].
  rewrite IH by done. cbn [startsUsed map concat].
  rewrite <- !List.app_assoc. done.
Qed.

Lemma length_startsUsed pages : forall start,
  length (startsUsed start pages) = length pages.
Proof. induction pages; intros; cbn [startsUsed length]; by rewrite ?IHpages. Qed.

Lemma list_error pages bad :
  forallb nonEmpty pages = true -> failing arrayShape bad = true ->
  forall start rest fuel, (length pages < fuel)%nat ->
  exists msg w,
    loop lbody fuel (start, play (map arrayReply pages ++ bad :: rest), [])
    = Returned (w, concat pages ++ [RedisError msg])
    /\ script w = rest /\ length (written w) = S (length pages).
Proof.
  intros Hpages Hbad start rest fuel Hfuel.
  destruct (listBody_fail (startAfter start pages) bad rest
              ([] ++ map (fun s => request ext (lrangeLine key s)) (startsUsed start pages))
              false ([] ++ concat pages) Hbad) as [msg Hmsg].
  exists msg. eexists. split; [|split].
  - apply (loop_mono _ (length pages + 1)); [lia|].
    unfold play. rewrite list_pages by done.
    erewrite loop_Return; [|exact Hmsg]. reflexivity.
  - done.
  - cbn [written app]. rewrite List.length_app, length_map, length_startsUsed.
    simpl. lia.
Qed.

End ListRange.

(** *** The stream range against a scripted peer *)
Section StreamRange.
Variable ext : Extern.
Variable key : string.

#[local] Abbreviation sbody := (streamBody ext collect key).

Lemma xrange_parses cursor :
  exists cmd, Parse ext (xrangeLine key cursor) None = inr cmd.
Proof. by apply (Parse_verb ext "XRANGE"). Qed.

Lemma streamBody_reply cursor page rest wr cl k :
  sbody (cursor, mkScripted (arrayReply page :: rest) wr cl, k)
  = let w := mkScripted rest (wr ++ [request ext (xrangeLine key cursor)]) cl in
    if nonEmpty page then
      match lastID page with
      | Some id => Continue ("(" +:+ id, w, k ++ page)
      | None =>
          Return (w, k ++ page ++ [RedisError "unexpected XRANGE entry format"])
      end
    else Return (w, k).
Proof.
  destruct (xrange_parses cursor) as [cmd Hcmd].
  rewrite <- (request_bytes _ _ _ Hcmd). unfold streamBody.
  fold (xrangeLine key cursor).
  rewrite Hcmd, Send_scripted. unfold arrayReply. cbn [script written closed].
  rewrite Receive_scripted by done. cbn [script written closed].
  unfold nonEmpty. destruct (Z.of_nat (length page) =? 0); [done|].
  rewrite yieldEach_collect. cbn [negb]. unfold lastID.
  destruct (last page) as [[| | |[|id fields]| |]|];
    unfold yield_return, collect; cbn; by rewrite <- ?List.app_assoc.
Qed.

Lemma streamBody_fail cursor ex rest wr cl k :
  failing arrayShape ex = true ->
  exists msg,
    sbody (cursor, mkScripted (ex :: rest) wr cl, k)
    = Return (mkScripted rest (wr ++ [request ext (xrangeLine key cursor)]) cl,
              k ++ [RedisError msg]).
Proof.
  intros Hex. destruct (xrange_parses cursor) as [cmd Hcmd].
  rewrite <- (request_bytes _ _ _ Hcmd). unfold streamBody.
  fold (xrangeLine key cursor). rewrite Hcmd, Send_scripted.
  destruct ex as [err|err|v|]; [| | |done]; cbn [script written closed].
  - cbn. by eexists.
  - rewrite Receive_scripted by done. cbn. by eexists.
  - rewrite Receive_scripted by done. cbn [script written closed].
    destruct v; try done; cbn; by eexists.
Qed.

Lemma entryPage_spec page :
  entryPage page = true ->
  nonEmpty page = true /\ lastID page = Some (default "" (lastID page)).
Proof.
  unfold entryPage. intros [? Hid%bool_decide_eq_true]%andb_true_iff.
  split; [done|]. by destruct (lastID page).
Qed.

Lemma stream_pages pages : forall cursor wr cl k m rest,
  forallb entryPage pages = true ->
  loop sbody (length pages + m)
    (cursor, mkScripted (map arrayReply pages ++ rest) wr cl, k)
  = loop sbody m
      (streamCursorAfter cursor pages,
       mkScripted rest
         (wr ++ map (fun c => request ext (xrangeLine key c))
                  (streamCursors cursor pages)) cl,
       k ++ concat pages).
Proof.
  induction pages as [|p pages IH]; intros cursor wr cl k m rest Hp.
  { cbn. by rewrite !List.app_nil_r. }
  cbn [forallb] in Hp. apply andb_true_iff in Hp as [Hp Hps].
  destruct (entryPage_spec p Hp) as [Hne Hid].
  cbn [length Nat.add map app]. erewrite loop_Continue;
    [|rewrite streamBody_reply; cbv zeta; rewrite Hne, Hid; reflexivity].
  fold (nextCursor p). rewrite IH by done. cbn [streamCursors map concat].
  rewrite <- !List.app_assoc. unfold streamCursorAfter. cbn [map].
  by rewrite last_cons.
Qed.

Lemma length_streamCursors pages : forall cursor,
  length (streamCursors cursor pages) = length pages.
Proof. induction pages; intros; cbn [streamCursors length]; by rewrite ?IHpages. Qed.

Lemma streamCursors_app pages : forall cursor final,
  streamCursors cursor (pages ++ [final])
  = streamCursors cursor pages ++ [streamCursorAfter cursor pages].
Proof.
  induction pages as [|p pages IH]; intros cursor final; [done|].
  cbn [app streamCursors]. rewrite IH. unfold streamCursorAfter. cbn [map].
  by rewrite last_cons.
Qed.

Lemma stream_error pages bad :
  forallb entryPage pages = true -> failing arrayShape bad = true ->
  forall cursor rest fuel, (length pages < fuel)%nat ->
  exists msg w,
    loop sbody fuel (cursor, play (map arrayReply pages ++ bad :: rest), [])
    = Returned (w, concat pages ++ [RedisError msg])
    /\ script w = rest /\ length (written w) = S (length pages).
Proof.
  intros Hpages Hbad cursor rest fuel Hfuel.
  destruct (streamBody_fail (streamCursorAfter cursor pages) bad rest
              ([] ++ map (fun c => request ext (xrangeLine key c))
                       (streamCursors cursor pages))
              false ([] ++ concat pages) Hbad) as [msg Hmsg].
  exists msg. eexists. split; [|split].
  - apply (loop_mono _ (length pages + 1)); [lia|].
    unfold play. rewrite stream_pages by done.
    erewrite loop_Return; [|exact Hmsg]. reflexivity.
  - done.
  - cbn [written app]. rewrite List.length_app, length_map, length_streamCursors.
    simpl. lia.
Qed.

(** A page whose last entry is no array with an id is yielded, and the
    error follows it. *)
Lemma stream_malformed pages page :
  forallb entryPage pages = true -> nonEmpty page = true -> lastID page = None ->
  forall cursor rest fuel, (length pages < fuel)%nat ->
  exists msg w,
    loop sbody fuel (cursor, play (map arrayReply pages ++ arrayReply page :: rest), [])
    = Returned (w, (concat pages ++ page) ++ [RedisError msg])
    /\ script w = rest /\ length (written w) = S (length pages).
Proof.
  intros Hpages Hne Hid cursor rest fuel Hfuel.
  exists "unexpected XRANGE entry format". eexists. split; [|split].
  - apply (loop_mono _ (length pages + 1)); [lia|].
    unfold play. rewrite stream_pages by done.
    erewrite loop_Return;
      [|rewrite streamBody_reply; cbv zeta; rewrite Hne, Hid; reflexivity].
    cbn [app]. by rewrite <- !List.app_assoc.
  - done.
  - cbn [written app]. rewrite List.length_app, length_map, length_streamCursors.
    simpl. lia.
Qed.

(** The peer has gone after the pages: the next request is written and
    its read fails. *)
Lemma streamBody_eof cursor wr cl k :
  sbody (cursor, mkScripted [] wr cl, k)
  = Return (mkScripted [] (wr ++ [request ext (xrangeLine key cursor)]) cl,
            k ++ [RedisError "XRANGE receive failed: EOF"]).
Proof.
  destruct (xrange_parses cursor) as [cmd Hcmd].
  rewrite <- (request_bytes _ _ _ Hcmd). unfold streamBody.
  fold (xrangeLine key cursor). rewrite Hcmd, Send_scripted.
  cbn [script written closed]. rewrite Receive_scripted by done. done.
Qed.

End StreamRange.

End IterFacts.

Module ServedFacts.
Import Go strconv resp command conn mock wire.
Import StringFacts StrconvFacts RespFacts CodecFacts CommandFacts IterFacts.

Lemma add_small a b : MinInt <= a + b <= MaxInt -> add a b = a + b.
Proof.
  unfold add, wrap, MinInt, MaxInt. intros H.
  rewrite Z.mod_small by lia. lia.
Qed.

Lemma length_formatBits fuel : forall u acc,
  (String.length (formatBits fuel u acc) <= fuel + String.length acc)%nat.
Proof.
  induction fuel as [|fuel IH]; intros u acc; cbn [formatBits]; [lia|].
  destruct (u <? 10); [simpl; lia|].
  specialize (IH (u / 10) (String (byte_of (48 + u mod 10)) acc)).
  simpl in IH. lia.
Qed.

Lemma len_Itoa i : MinInt <= i <= MaxInt -> len (Itoa i) <= 65.
Proof.
  intros Hi. unfold Itoa, utoa, len.
  assert (Hlog : forall u, 0 <= u <= 2 ^ 63 -> Z.log2 u <= 63).
  { intros u [_ Hu]. apply Z.log2_le_mono in Hu.
    by rewrite Z.log2_pow2 in Hu. }
  unfold MinInt, MaxInt in Hi.
  destruct (i <? 0) eqn:E.
  - apply Z.ltb_lt in E.
    pose proof (length_formatBits (S (Z.to_nat (Z.log2 (- i)))) (- i) "").
    pose proof (Hlog (- i) ltac:(lia)). simpl String.length in *. lia.
  - apply Z.ltb_ge in E.
    pose proof (length_formatBits (S (Z.to_nat (Z.log2 i))) i "").
    pose proof (Hlog i ltac:(lia)). simpl String.length in *. lia.
Qed.

Lemma plainWord_Itoa i : 0 <= i -> plainWord (Itoa i) = true.
Proof.
  intros Hi. unfold Itoa.
  destruct (i <? 0) eqn:E; [apply Z.ltb_lt in E; lia|].
  destruct (utoa_spec i Hi) as (Hne & Hall & _).
  unfold plainWord. apply andb_true_iff. split.
  - by apply negb_true_iff, String.eqb_neq.
  - eapply allBytes_impl; [|exact Hall]. intros c Hc. unfold isDigit in Hc.
    apply andb_true_iff in Hc as [?%Z.leb_le ?%Z.leb_le]. unfold plainByte.
    rewrite !andb_true_iff, !negb_true_iff, !Z.eqb_neq, !Z.leb_le. lia.
Qed.

Section Served.
Variable ext : Extern.
Variable key : string.
Variable l : list RedisValue.
Hypothesis key_plain : plainWord key = true.
Hypothesis key_len : len key <= MaxInt.

#[local] Abbreviation peer := (server (serveList key l)).

#[local] Abbreviation lrangeBytes := (lrangeBytes key).

Lemma serveList_lrange start :
  0 <= start <= MaxInt - 100 ->
  serveList key l (lrangeBytes start) = RedisArray (lrange l start (start + 99)).
Proof.
  intros Hs. unfold serveList, lrangeBytes. rewrite ParseValue_SendRaw.
  - cbn [commandValue map bulk]. cbn [String.eqb Ascii.eqb Bool.eqb].
    rewrite !Atoi_Itoa by (unfold MinInt, MaxInt in *; lia).
    by rewrite String.eqb_refl.
  - cbn [commandValue map wellFormed bulk length forallb].
    rewrite !Z.eqb_refl. cbn [andb].
    pose proof (len_Itoa start ltac:(unfold MinInt, MaxInt in *; lia)).
    pose proof (len_Itoa (start + 99) ltac:(unfold MinInt, MaxInt in *; lia)).
    repeat (apply andb_true_iff; split); try done; apply Z.leb_le;
      unfold MaxInt in *; lia.
Qed.

Lemma Receive_served timeout serve (w : Served) :
  0 < timeout ->
  Receive (transport := server serve) timeout w =
    match replies w with
    | v :: rest => (inr v, mkServed (requests w) rest)
    | [] => (inl EOF, w)
    end.
Proof.
  intros Ht. unfold Receive. apply Z.ltb_lt in Ht. rewrite Ht. cbn.
  by destruct (replies w).
Qed.

Lemma listBody_served start reqs k :
  0 <= start <= MaxInt - 100 ->
  listBody (transport := peer) ext collect key (start, mkServed reqs [], k)
  = let w := mkServed (reqs ++ [lrangeBytes start]) [] in
    let page := lrange l start (start + 99) in
    if nonEmpty page then Continue (start + 100, w, k ++ page)
    else Return (w, k).
Proof.
  intros Hs. unfold listBody.
  rewrite !add_small by (unfold MinInt, MaxInt in *; lia).
  change ("LRANGE " +:+ key +:+ " " +:+ Itoa start +:+ " " +:+ Itoa (start + 99))
    with (joinWords ["LRANGE"; key; Itoa start; Itoa (start + 99)]).
  rewrite Parse_plain.
  2: done.
  2: { cbn [forallb]. rewrite key_plain, !plainWord_Itoa by lia. done. }
  unfold Send. cbn [CommandBytes conn_Write server requests replies app].
  fold (lrangeBytes start). rewrite serveList_lrange by done.
  rewrite Receive_served by done. cbn [replies requests].
  unfold nonEmpty. destruct (Z.of_nat (length _) =? 0); [done|].
  by rewrite yieldEach_collect.
Qed.

End Served.

End ServedFacts.

Import Go strconv resp command conn mock wire.
Import StringFacts StrconvFacts RespFacts CodecFacts CommandFacts IterFacts ServedFacts.

(* ================================================================== *)
(** * Part III: the claims *)
(* ================================================================== *)

(** C2.  The bytes [SendRaw] writes for a command name and its arguments
    are the wire form of the array of their bulk strings, and [ParseValue]
    decodes them to exactly that array, whatever bytes the arguments
    hold, with no byte left over; on every well-formed value tree, of
    any nesting, decoding the wire form gives the tree back and leaves
    what follows it. *)
Theorem SendRaw_ParseValue_roundtrip
    (name : string) (args : list string) (v : RedisValue) (rest : string) :
  wellFormed (commandValue (name :: args)) = true ->
  wellFormed v = true ->
  SendRaw_bytes (name :: args) = encode (commandValue (name :: args)) /\
  ParseValue (SendRaw_bytes (name :: args)) = Ok (commandValue (name :: args)) "" /\
  ParseValue (encode v +:+ rest) = Ok v rest.
Proof.
  intros Hcmd Hv. split; [apply SendRaw_bytes_encode|].
  split; [by apply ParseValue_SendRaw | by apply ParseValue_encode].
Qed.

Lemma SendRaw_ParseValue_roundtrip_witness :
  wellFormed (commandValue ["SET"; "my key"; binaryArg]) = true /\
  wellFormed nestedValue = true /\
  SendRaw_bytes ["SET"; "my key"; binaryArg]
    = encode (commandValue ["SET"; "my key"; binaryArg]) /\
  ParseValue (SendRaw_bytes ["SET"; "my key"; binaryArg])
    = Ok (commandValue ["SET"; "my key"; binaryArg]) "" /\
  ParseValue (encode nestedValue +:+ "+next") = Ok nestedValue "+next".
Proof.
  split; [reflexivity|]. split; [reflexivity|].
  apply (SendRaw_ParseValue_roundtrip "SET" ["my key"; binaryArg] nestedValue "+next");
    reflexivity.
Defined.

(** C3.  A length or count of -1 is the null sentinel and the only one:
    [$-1] and [*-1] decode to [RedisNull]; a length line or count line
    that reads as a number below -1 is a decode error, and so is one
    that does not read as an [int] at all; [$0] followed by CRLF is the
    empty bulk string, not null; and [RedisNull] is decoded from nothing
    but a [$] or [*] line that reads as -1. *)
Theorem null_sentinel (line : string) (n : Z) (rest : string) :
  Atoi line = Some n -> n < -1 ->
  ParseValue ("$-1" +:+ CRLF +:+ rest) = Ok RedisNull rest /\
  ParseValue ("*-1" +:+ CRLF +:+ rest) = Ok RedisNull rest /\
  ParseValue ("$0" +:+ CRLF +:+ CRLF +:+ rest) = Ok (RedisBulkString "" 0) rest /\
  ParseValue ("$" +:+ line +:+ CRLF +:+ rest) = Err (ErrBulkNegative n) /\
  ParseValue ("*" +:+ line +:+ CRLF +:+ rest) = Err (ErrArrayNegative n) /\
  (forall unread, noLF unread = true -> Atoi unread = None ->
     ParseValue ("$" +:+ unread +:+ CRLF +:+ rest) = Err (ErrBulkLength unread) /\
     ParseValue ("*" +:+ unread +:+ CRLF +:+ rest) = Err (ErrArrayCount unread)) /\
  (forall r rest', ParseValue r = Ok RedisNull rest' ->
     exists tag r1 line',
       r = String tag r1 /\ (tag = "$" \/ tag = "*")%char /\
       readLine r1 = Ok line' rest' /\ Atoi line' = Some (-1)).
Proof.
  intros Hline Hn.
  split.
  { change ("$-1" +:+ CRLF +:+ rest) with ("$" +:+ "-1" +:+ CRLF +:+ rest).
    by rewrite (ParseValue_bulk_header "-1" (-1)). }
  split.
  { change ("*-1" +:+ CRLF +:+ rest) with ("*" +:+ "-1" +:+ CRLF +:+ rest).
    by rewrite (ParseValue_array_header "-1" (-1)). }
  split.
  { unfold ParseValue.
    apply (ParseValue_fuel_bulk _ "0" 0 "" rest); [done | lia | done]. }
  split.
  { rewrite (ParseValue_bulk_header line n) by done.
    destruct (n =? -1) eqn:E1; [apply Z.eqb_eq in E1; lia|].
    destruct (n <? -1) eqn:E2; [done|apply Z.ltb_ge in E2; lia]. }
  split.
  { rewrite (ParseValue_array_header line n) by (done || lia).
    destruct (n =? -1) eqn:E1; [apply Z.eqb_eq in E1; lia|done]. }
  split; [intros; by apply ParseValue_header_unread|].
  apply ParseValue_Null.
Qed.

Lemma null_sentinel_witness :
  Atoi "-2" = Some (-2) /\ -2 < -1 /\
  ParseValue ("$-1" +:+ CRLF +:+ "") = Ok RedisNull "" /\
  ParseValue ("*-1" +:+ CRLF +:+ "") = Ok RedisNull "" /\
  ParseValue ("$0" +:+ CRLF +:+ CRLF +:+ "") = Ok (RedisBulkString "" 0) "" /\
  ParseValue ("$" +:+ "-2" +:+ CRLF +:+ "") = Err (ErrBulkNegative (-2)) /\
  ParseValue ("*" +:+ "-2" +:+ CRLF +:+ "") = Err (ErrArrayNegative (-2)) /\
  ParseValue ("$" +:+ "-99999999999999999999" +:+ CRLF +:+ "")
    = Err (ErrBulkLength "-99999999999999999999").
Proof.
  split; [reflexivity|]. split; [lia|].
  destruct (null_sentinel "-2" (-2) "" eq_refl ltac:(lia))
    as (H1 & H2 & H3 & H4 & H5 & H6 & _).
  repeat (split; [assumption|]).
  apply (H6 "-99999999999999999999"); reflexivity.
Defined.

(** C4.  After a length line that reads as [n >= 0], the decoder takes
    the next [n] bytes as they are, whatever they hold, and wants CR LF
    right behind them: with CR LF there the result is the bulk string of
    those bytes and of length [n]; with two other bytes there the result
    is a decode error; and whenever a value comes out, it is the bulk
    string of the first [n] bytes, of length [n], with CR LF behind it. *)
Theorem bulk_string_exact (line : string) (n : Z) :
  Atoi line = Some n -> 0 <= n ->
  (forall payload rest, len payload = n ->
     ParseValue ("$" +:+ line +:+ CRLF +:+ payload +:+ CRLF +:+ rest)
     = Ok (RedisBulkString payload n) rest) /\
  (forall payload c1 c2 rest, len payload = n ->
     String c1 (String c2 "") <> CRLF ->
     ParseValue ("$" +:+ line +:+ CRLF +:+ payload +:+ String c1 (String c2 rest))
     = Err (ErrBulkCRLF (String c1 (String c2 "")))) /\
  (forall r v rest,
     ParseValue ("$" +:+ line +:+ CRLF +:+ r) = Ok v rest ->
     exists payload,
       v = RedisBulkString payload n /\ len payload = n /\
       r = payload +:+ CRLF +:+ rest).
Proof.
  intros Hline Hn.
  assert (Hhead : forall r,
    ParseValue ("$" +:+ line +:+ CRLF +:+ r) =
      bind (ReadFull n ErrBulkPayload) (fun buf =>
        bind (ReadFull 2 ErrBulkCRLFRead) (fun crlf =>
          if String.eqb crlf CRLF then ret (RedisBulkString buf n)
          else fail (ErrBulkCRLF crlf))) r).
  { intros r. rewrite (ParseValue_bulk_header line n) by done.
    destruct (n =? -1) eqn:E1; [apply Z.eqb_eq in E1; lia|].
    destruct (n <? -1) eqn:E2; [apply Z.ltb_lt in E2; lia|done]. }
  split; [|split].
  - intros payload rest <-. rewrite Hhead. unfold bind.
    rewrite ReadFull_app.
    change (CRLF +:+ rest) with (String CR (String LF "") +:+ rest).
    change 2 with (len (String CR (String LF ""))). by rewrite ReadFull_app.
  - intros payload c1 c2 rest <- Hne. rewrite Hhead. unfold bind.
    rewrite ReadFull_app.
    change (String c1 (String c2 rest)) with (String c1 (String c2 "") +:+ rest).
    change 2 with (len (String c1 (String c2 ""))). rewrite ReadFull_app.
    by apply String.eqb_neq in Hne as ->.
  - intros r v rest. rewrite Hhead. unfold bind.
    destruct (ReadFull n ErrBulkPayload r) as [buf r1| |] eqn:H1; try done.
    destruct (ReadFull 2 ErrBulkCRLFRead r1) as [crlf r2| |] eqn:H2; try done.
    apply ReadFull_Ok in H1 as [-> Hlen]; [|done].
    apply ReadFull_Ok in H2 as [-> _]; [|lia].
    destruct (String.eqb_spec crlf CRLF) as [->|]; [|done].
    intros [= <- <-]. by exists buf.
Qed.

Lemma bulk_string_exact_witness :
  Atoi "6" = Some 6 /\ 0 <= 6 /\
  ParseValue ("$" +:+ "6" +:+ CRLF +:+ crlfPayload +:+ CRLF +:+ "+tail")
    = Ok (RedisBulkString crlfPayload 6) "+tail" /\
  ParseValue ("$" +:+ "6" +:+ CRLF +:+ crlfPayload +:+ String CR (String "x" "tail"))
    = Err (ErrBulkCRLF (String CR (String "x" ""))).
Proof.
  split; [reflexivity|]. split; [lia|].
  destruct (bulk_string_exact "6" 6 eq_refl ltac:(lia)) as (Hok & Hbad & _).
  split.
  - apply (Hok crlfPayload "+tail"). reflexivity.
  - apply (Hbad crlfPayload CR "x"%char "tail"); [reflexivity | discriminate].
Defined.

(** ** The list range *)

Lemma lrange_window (l : list RedisValue) start :
  0 <= start ->
  lrange l start (start + 99) = firstn 100 (skipn (Z.to_nat start) l).
Proof.
  intros Hs. unfold lrange.
  destruct (start <? 0) eqn:E1; [apply Z.ltb_lt in E1; lia|].
  destruct (start + 99 <? 0) eqn:E2; [apply Z.ltb_lt in E2; lia|].
  set (n := Z.of_nat (length l)).
  assert (Hlen : length (skipn (Z.to_nat start) l) = (length l - Z.to_nat start)%nat)
    by apply length_skipn.
  destruct ((Z.min (start + 99) (n - 1) <? start) || (n <=? start)) eqn:E3.
  - rewrite firstn_all2; [|subst n; apply orb_true_iff in E3 as [E%Z.ltb_lt|E%Z.leb_le]; lia].
    symmetry. apply length_zero_iff_nil.
    subst n; apply orb_true_iff in E3 as [E%Z.ltb_lt|E%Z.leb_le]; lia.
  - apply orb_false_iff in E3 as [E3%Z.ltb_ge E4%Z.leb_gt].
    destruct (Z.le_gt_cases (start + 99) (n - 1)).
    + rewrite Z.min_l by done. f_equal. lia.
    + rewrite Z.min_r by lia.
      rewrite !firstn_all2; [done|subst n; lia..].
Qed.

(** C1, as the code has it.  For a key the tokenizer leaves as it is and
    a list of 250 elements served slice by slice, [SafeList] writes four
    LRANGE requests, for the windows that start at 0, 100, 200 and 300,
    the last of which is answered by the empty page that ends the loop,
    and yields the 250 elements in their order. *)
Theorem SafeList_four_requests
    (ext : Extern) (key : string) (l : list RedisValue) (fuel : nat) :
  plainWord key = true -> len key <= MaxInt ->
  length l = 250%nat -> (4 <= fuel)%nat ->
  SafeList (transport := server (serveList key l)) ext collect key fuel
    (mkServed [] []) []
  = Returned (mkServed (map (lrangeBytes key) [0; 100; 200; 300]) [], l).
Proof.
  intros Hkey Hlen Hl Hfuel. apply (loop_mono _ 4); [done|].
  unfold SafeList.
  assert (Hpage : forall s, 0 <= s -> (Z.to_nat s < 250)%nat ->
    nonEmpty (lrange l s (s + 99)) = true).
  { intros s Hs Hlt. rewrite lrange_window by done. unfold nonEmpty.
    rewrite length_firstn, length_skipn, Hl.
    apply negb_true_iff, Z.eqb_neq. lia. }
  erewrite loop_Continue;
    [|rewrite listBody_served by (done || (unfold MaxInt; lia));
      cbv zeta; rewrite Hpage by lia; reflexivity].
  erewrite loop_Continue;
    [|rewrite listBody_served by (done || (unfold MaxInt; lia));
      cbv zeta; rewrite Hpage by lia; reflexivity].
  erewrite loop_Continue;
    [|rewrite listBody_served by (done || (unfold MaxInt; lia));
      cbv zeta; rewrite Hpage by lia; reflexivity].
  erewrite loop_Return;
    [|rewrite listBody_served by (done || (unfold MaxInt; lia)); cbv zeta;
      rewrite lrange_window by lia;
      rewrite (skipn_all2 l) by (rewrite Hl; lia); reflexivity].
  f_equal. f_equal.
  rewrite !lrange_window by done. cbn [app].
  change (Z.to_nat 0) with 0%nat. change (Z.to_nat (0 + 100)) with 100%nat.
  change (Z.to_nat (0 + 100 + 100)) with 200%nat. cbn [skipn].
  rewrite <- List.app_assoc.
  transitivity (firstn 100 l ++ skipn 100 l); [|apply firstn_skipn]. f_equal.
  transitivity (firstn 100 (skipn 100 l) ++ skipn 100 (skipn 100 l));
    [|apply firstn_skipn]. f_equal.
  rewrite skipn_skipn. change (100 + 100)%nat with 200%nat.
  apply firstn_all2. rewrite length_skipn, Hl. lia.
Qed.

Lemma SafeList_four_requests_witness :
  plainWord "mylist" = true /\ len "mylist" <= MaxInt /\
  length sampleList = 250%nat /\ (4 <= 4)%nat /\
  SafeList (transport := server (serveList "mylist" sampleList)) plainExtern
    collect "mylist" 4 (mkServed [] []) []
  = Returned (mkServed (map (lrangeBytes "mylist") [0; 100; 200; 300]) [],
              sampleList).
Proof.
  split; [reflexivity|]. split; [by vm_compute|]. split; [reflexivity|].
  split; [lia|].
  apply (SafeList_four_requests plainExtern "mylist" sampleList 4);
    [reflexivity | by vm_compute | reflexivity | lia].
Defined.

(** C1, as the claim has it, fails: on the sample list of 250 elements
    no run of [SafeList] returns having written just the three requests
    for the windows at 0, 100 and 200. *)
Lemma SafeList_three_requests_refuted :
  ~ exists fuel w,
      SafeList (transport := server (serveList "mylist" sampleList)) plainExtern
        collect "mylist" fuel (mkServed [] []) []
      = Returned (w, sampleList)
      /\ requests w = map (lrangeBytes "mylist") [0; 100; 200].
Proof.
  intros (fuel & w & Hrun & Hreq).
  assert (H4 : exists w4,
    SafeList (transport := server (serveList "mylist" sampleList)) plainExtern
      collect "mylist" 4 (mkServed [] []) [] = Returned (w4, sampleList)
    /\ length (requests w4) = 4%nat).
  { vm_compute. eexists. split; reflexivity. }
  destruct H4 as (w4 & Hrun4 & Hlen4).
  assert (w = w4) as ->.
  { destruct (Nat.le_gt_cases fuel 4).
    - apply (loop_mono _ _ 4) in Hrun; [|done]. unfold SafeList in Hrun4. congruence.
    - apply (loop_mono _ _ fuel) in Hrun4; [|lia]. unfold SafeList in Hrun. congruence. }
  rewrite Hreq in Hlen4. simpl in Hlen4. lia.
Qed.

(** ** The scan family and the stream range *)

Lemma scan_parses ext pattern cursor :
  exists cmd, Parse ext (scanLine pattern cursor) None = inr cmd.
Proof. by apply (Parse_verb ext "SCAN"). Qed.

Lemma key_parses ext verb key cursor :
  capitals verb = true -> verb <> "SET" ->
  exists cmd, Parse ext (keyLine verb key cursor) None = inr cmd.
Proof. intros. by apply (Parse_verb ext verb). Qed.

Lemma yieldEach_emits vals k : yieldEach collect vals k = (true, k ++ id vals).
Proof. apply yieldEach_collect. Qed.

Lemma flat_map_snd (pages : list ScanPage) :
  flat_map (fun p => id (snd p)) pages = flat_map snd pages.
Proof. done. Qed.

(** C6.  In a drained run of [SafeHash], a page whose flat array is
    [f1, v1, ..., fn, vn] adds to the sequence the [n] arrays [[fi, vi]],
    in order, between what the pages before it and the pages after it
    add: neither a flat element on its own nor the cursor of the
    reply. *)
Theorem SafeHash_yields_pairs
    (ext : Extern) (key : string) (before after : list ScanPage)
    (c0 : RedisValue) (fvs : list (RedisValue * RedisValue))
    (rest : list Exchange) (fuel : nat) :
  chain (before ++ (c0, flatten fvs) :: after) = true ->
  (length before + S (length after) <= fuel)%nat ->
  SafeHash ext collect key fuel
    (play (map scanReply (before ++ (c0, flatten fvs) :: after) ++ rest)) []
  = Returned
      (mkScripted rest
         (map (fun c => request ext (keyLine "HSCAN" key c))
            (cursorsUsed "0" (before ++ (c0, flatten fvs) :: after))) false,
       flat_map (fun p => pairUp (snd p)) before
       ++ map pair fvs
       ++ flat_map (fun p => pairUp (snd p)) after)
  /\ length (map pair fvs) = length fvs.
Proof.
  intros Hchain Hfuel. split; [|apply length_map].
  unfold SafeHash.
  change (fun cursor => "HSCAN " +:+ key +:+ " " +:+ cursor +:+ " COUNT 100")
    with (keyLine "HSCAN" key).
  unfold play.
  rewrite (scan_run ext "HSCAN" (keyLine "HSCAN" key) "fields" (yieldHash collect) pairUp
             (fun c => key_parses ext "HSCAN" key c eq_refl ltac:(done))
             yieldHash_collect) by (done || (rewrite List.length_app; simpl; lia)).
  cbn [app]. rewrite flat_map_app. cbn [flat_map snd]. by rewrite pairUp_flatten.
Qed.

Lemma SafeHash_yields_pairs_witness :
  chain ([] ++ (bulk "7", flatten [(bulk "f1", bulk "v1"); (bulk "f2", bulk "v2");
                                   (bulk "f3", bulk "v3")])
            :: [(bulk "0", flatten [(bulk "f4", bulk "v4")])]) = true /\
  (length (@nil ScanPage) + S (length [(bulk "0", flatten [(bulk "f4", bulk "v4")])])
   <= 2)%nat /\
  exists w,
    SafeHash plainExtern collect "h" 2
      (play (map scanReply
               [(bulk "7", [bulk "f1"; bulk "v1"; bulk "f2"; bulk "v2";
                            bulk "f3"; bulk "v3"]);
                (bulk "0", [bulk "f4"; bulk "v4"])])) []
    = Returned
        (w, [RedisArray [bulk "f1"; bulk "v1"]; RedisArray [bulk "f2"; bulk "v2"];
             RedisArray [bulk "f3"; bulk "v3"]; RedisArray [bulk "f4"; bulk "v4"]]).
Proof.
  split; [reflexivity|]. split; [simpl; lia|].
  destruct (SafeHash_yields_pairs plainExtern "h" []
              [(bulk "0", flatten [(bulk "f4", bulk "v4")])] (bulk "7")
              [(bulk "f1", bulk "v1"); (bulk "f2", bulk "v2"); (bulk "f3", bulk "v3")]
              [] 2 eq_refl ltac:(simpl; lia)) as [Hrun _].
  eexists. rewrite List.app_nil_r in Hrun. exact Hrun.
Defined.

(** C10.  In a drained run of [SafeHash], a page whose flat array has
    the odd length [2n+1] adds the [n] pairs of its first [2n] elements
    and nothing for the last one: no element holds it, no error is
    yielded for it, and the pages after it follow. *)
Theorem SafeHash_drops_unpaired
    (ext : Extern) (key : string) (before after : list ScanPage)
    (c0 : RedisValue) (fvs : list (RedisValue * RedisValue)) (x : RedisValue)
    (rest : list Exchange) (fuel : nat) :
  chain (before ++ (c0, flatten fvs ++ [x]) :: after) = true ->
  (length before + S (length after) <= fuel)%nat ->
  SafeHash ext collect key fuel
    (play (map scanReply (before ++ (c0, flatten fvs ++ [x]) :: after) ++ rest)) []
  = Returned
      (mkScripted rest
         (map (fun c => request ext (keyLine "HSCAN" key c))
            (cursorsUsed "0" (before ++ (c0, flatten fvs ++ [x]) :: after))) false,
       flat_map (fun p => pairUp (snd p)) before
       ++ map pair fvs
       ++ flat_map (fun p => pairUp (snd p)) after)
  /\ length (map pair fvs) = length fvs.
Proof.
  intros Hchain Hfuel. split; [|apply length_map].
  unfold SafeHash.
  change (fun cursor => "HSCAN " +:+ key +:+ " " +:+ cursor +:+ " COUNT 100")
    with (keyLine "HSCAN" key).
  unfold play.
  rewrite (scan_run ext "HSCAN" (keyLine "HSCAN" key) "fields" (yieldHash collect) pairUp
             (fun c => key_parses ext "HSCAN" key c eq_refl ltac:(done))
             yieldHash_collect) by (done || (rewrite List.length_app; simpl; lia)).
  cbn [app]. rewrite flat_map_app. cbn [flat_map snd]. by rewrite pairUp_flatten_odd.
Qed.

Lemma SafeHash_drops_unpaired_witness :
  chain ([] ++ (bulk "7", flatten [(bulk "f1", bulk "v1")] ++ [bulk "odd"])
            :: [(bulk "0", flatten [(bulk "f2", bulk "v2")])]) = true /\
  (length (@nil ScanPage) + S (length [(bulk "0", flatten [(bulk "f2", bulk "v2")])])
   <= 2)%nat /\
  exists w,
    SafeHash plainExtern collect "h" 2
      (play (map scanReply
               [(bulk "7", [bulk "f1"; bulk "v1"; bulk "odd"]);
                (bulk "0", [bulk "f2"; bulk "v2"])])) []
    = Returned
        (w, [RedisArray [bulk "f1"; bulk "v1"]; RedisArray [bulk "f2"; bulk "v2"]]).
Proof.
  split; [reflexivity|]. split; [simpl; lia|].
  destruct (SafeHash_drops_unpaired plainExtern "h" []
              [(bulk "0", flatten [(bulk "f2", bulk "v2")])] (bulk "7")
              [(bulk "f1", bulk "v1")] (bulk "odd")
              [] 2 eq_refl ltac:(simpl; lia)) as [Hrun _].
  eexists. rewrite List.app_nil_r in Hrun. exact Hrun.
Defined.

(** C5.  In a drained run of [SafeStream], once a page whose last entry
    is [[X, ...]] is consumed, the loop goes on with the cursor ["(" + X]:
    the requests written so far are those of the cursors ["-"] and
    ["(" + last id] of each earlier page, the next request is the XRANGE
    of ["(" + X], whatever the ids of the other entries are, and on the
    wire that cursor is the third token of the request. *)
Theorem SafeStream_next_cursor
    (ext : Extern) (key : string) (pages : list (list RedisValue))
    (entries : list RedisValue) (id : RedisValue) (fields : list RedisValue)
    (rest : list Exchange) (m : nat) :
  forallb entryPage pages = true ->
  let page := entries ++ [RedisArray (id :: fields)] in
  let X := StringValue id in
  SafeStream ext collect key (length pages + 1 + m)
    (play (map arrayReply (pages ++ [page]) ++ rest)) []
  = loop (streamBody ext collect key) m
      ("(" +:+ X,
       mkScripted rest
         (map (fun c => request ext (xrangeLine key c))
            (streamCursors "-" (pages ++ [page]))) false,
       concat (pages ++ [page]))
  /\ SafeStream ext collect key (length pages + 2 + m)
       (play (map arrayReply (pages ++ [page]))) []
     = Returned
         (mkScripted []
            (map (fun c => request ext (xrangeLine key c))
               (streamCursors "-" (pages ++ [page]) ++ ["(" +:+ X])) false,
          concat (pages ++ [page]) ++ [RedisError "XRANGE receive failed: EOF"])
  /\ (plainWord key = true -> plainWord ("(" +:+ X) = true ->
      request ext (xrangeLine key ("(" +:+ X))
      = SendRaw_bytes ["XRANGE"; key; "(" +:+ X; "+"; "COUNT"; "100"]).
Proof.
  intros Hpages page X.
  assert (Hpage : entryPage page = true).
  { unfold entryPage, nonEmpty, lastID, page. rewrite last_snoc, List.length_app.
    apply andb_true_iff. split; [|by apply bool_decide_eq_true].
    apply negb_true_iff, Z.eqb_neq. simpl. lia. }
  assert (Hall : forallb entryPage (pages ++ [page]) = true).
  { rewrite forallb_app, Hpages. simpl. by rewrite Hpage. }
  assert (Hcur : streamCursorAfter "-" (pages ++ [page]) = "(" +:+ X).
  { unfold streamCursorAfter. rewrite map_app. cbn [map]. rewrite last_last.
    unfold nextCursor, lastID, page. by rewrite last_snoc. }
  assert (Hlen : length (pages ++ [page]) = (length pages + 1)%nat).
  { rewrite List.length_app. done. }
  split; [|split].
  - unfold SafeStream, play. rewrite <- Hlen, stream_pages by done.
    by rewrite Hcur.
  - unfold SafeStream, play.
    replace (length pages + 2 + m)%nat with (length (pages ++ [page]) + S m)%nat by lia.
    rewrite <- (List.app_nil_r (map arrayReply (pages ++ [page]))).
    rewrite stream_pages by done. rewrite Hcur.
    erewrite loop_Return; [|apply streamBody_eof].
    by rewrite map_app.
  - intros Hkey HX. unfold request.
    change (xrangeLine key ("(" +:+ X))
      with (joinWords ["XRANGE"; key; "(" +:+ X; "+"; "COUNT"; "100"]).
    rewrite Parse_plain; [done|done|].
    cbn [forallb]. by rewrite Hkey, HX.
Qed.

Lemma SafeStream_next_cursor_witness :
  forallb entryPage
    [[RedisArray [bulk "1-0"; RedisArray [bulk "f"; bulk "v"]]]] = true /\
  exists w,
    SafeStream plainExtern collect "s" 3
      (play (map arrayReply
               [[RedisArray [bulk "1-0"; RedisArray [bulk "f"; bulk "v"]]];
                [RedisArray [bulk "2-0"; RedisArray []];
                 RedisArray [bulk "5-0"; RedisArray [bulk "f"; bulk "v"]]]])) []
    = Returned w /\
    written (fst w)
    = [SendRaw_bytes ["XRANGE"; "s"; "-"; "+"; "COUNT"; "100"];
       SendRaw_bytes ["XRANGE"; "s"; "(1-0"; "+"; "COUNT"; "100"];
       SendRaw_bytes ["XRANGE"; "s"; "(5-0"; "+"; "COUNT"; "100"]].
Proof.
  split; [reflexivity|].
  destruct (SafeStream_next_cursor plainExtern "s"
              [[RedisArray [bulk "1-0"; RedisArray [bulk "f"; bulk "v"]]]]
              [RedisArray [bulk "2-0"; RedisArray []]] (bulk "5-0")
              [RedisArray [bulk "f"; bulk "v"]] [] 0 eq_refl) as (_ & Hrun & _).
  eexists. split; [exact Hrun|]. reflexivity.
Defined.

(** ** Errors inside the iterators *)




(** ** The subscription stream *)

Lemma Subscribe_timeouts (errs : list error) : forall rest wr cl k m,
  forallb Timeout errs = true ->
  Subscribe collect cancelled (length errs + m)
    (mkScripted (map ReceiveFails errs ++ rest) wr cl) k
  = Subscribe collect cancelled m (mkScripted rest wr cl) k.
Proof.
  induction errs as [|err errs IH]; intros rest wr cl k m Herrs; [done|].
  cbn [forallb] in Herrs. apply andb_true_iff in Herrs as [Herr Herrs].
  cbn [length Nat.add map app]. unfold Subscribe in *.
  erewrite loop_Continue; [by apply IH|].
  unfold subscribeBody. cbn [cancelled script].
  rewrite Receive_scripted by done. cbn [script written closed]. by rewrite Herr.
Qed.



(** ** The authentication *)

Lemma auth_parses ext user pass :
  exists cmd,
    (if String.eqb user "" then Parse ext ("AUTH " +:+ pass) None
     else Parse ext ("AUTH " +:+ user +:+ " " +:+ pass) None) = inr cmd
    /\ CommandBytes cmd = request ext (authLine user pass).
Proof.
  unfold request, authLine. destruct (String.eqb user "").
  - destruct (Parse_verb ext "AUTH" pass eq_refl ltac:(done)) as [cmd Hcmd].
    change ("AUTH" +:+ " " +:+ pass) with ("AUTH " +:+ pass) in Hcmd.
    exists cmd. by rewrite Hcmd.
  - destruct (Parse_verb ext "AUTH" (user +:+ " " +:+ pass) eq_refl ltac:(done))
      as [cmd Hcmd].
    change ("AUTH" +:+ " " +:+ user +:+ " " +:+ pass)
      with ("AUTH " +:+ user +:+ " " +:+ pass) in Hcmd.
    exists cmd. by rewrite Hcmd.
Qed.

(** C9.  When a password is given, the transport is open, the AUTH
    command is written and its reply is read, and that reply is anything
    but the simple string ["OK"], an error reply included, then
    [Connect] returns an error and no connection, in the world in which
    the transport has been closed. *)
Theorem Connect_auth_failed
    {W : Type} {transport : Transport W} (ext : Extern)
    (host port user pass : string) (w w0 w1 w2 : W) (reply : RedisValue) :
  pass <> "" ->
  net_Dial (JoinHostPort host port) w = (None, w0) ->
  conn_Write (request ext (authLine user pass)) w0 = (None, w1) ->
  Receive (5 * Second) w1 = (inr reply, w2) ->
  reply <> RedisString "OK" ->
  exists err,
    Connect ext host port user pass w = Returned (inl err, snd (Close w2)).
Proof.
  intros Hpass Hdial Hsend Hrecv Hreply. unfold Connect. rewrite Hdial.
  apply String.eqb_neq in Hpass. rewrite Hpass. cbn [negb].
  destruct (auth_parses ext user pass) as (cmd & -> & Hbytes).
  unfold Send. rewrite Hbytes, Hsend, Hrecv.
  destruct reply as [s| | | |msg|]; try (destruct (Close w2); by eexists).
  destruct (String.eqb_spec s "OK") as [->|]; [done|].
  cbn [negb]. destruct (Close w2); by eexists.
Qed.

Lemma Connect_auth_failed_witness :
  "secret" <> "" /\
  exists err,
    Connect plainExtern "localhost" "6379" "" "secret"
      (play [Reply (RedisError "WRONGPASS invalid password")])
    = Returned
        (inl err,
         mkScripted [] [SendRaw_bytes ["AUTH"; "secret"]] true).
Proof.
  split; [discriminate|].
  apply (Connect_auth_failed (transport := scripted) plainExtern "localhost" "6379" "" "secret"
           (play [Reply (RedisError "WRONGPASS invalid password")])
           (play [Reply (RedisError "WRONGPASS invalid password")])
           (mkScripted [Reply (RedisError "WRONGPASS invalid password")]
              [SendRaw_bytes ["AUTH"; "secret"]] false)
           (mkScripted [] [SendRaw_bytes ["AUTH"; "secret"]] false)
           (RedisError "WRONGPASS invalid password"));
    [discriminate | reflexivity | reflexivity | reflexivity | discriminate].
Defined.

(* ================================================================== *)
(** * Part IV: further properties of the decoder *)
(* ================================================================== *)

Module FrameFacts.
Import Go strconv resp wire conn StringFacts StrconvFacts RespFacts CodecFacts.

(** What a read returns and what it leaves make up what it was given. *)
Lemma ReadString_LF_prefix r : forall line rest,
  ReadString_LF r = Ok line rest -> r = line +:+ rest.
Proof.
  induction r as [|c r IH]; simpl; intros line rest H; [done|].
  destruct (Ascii.eqb c LF); [by inversion H|].
  destruct (ReadString_LF r) as [l r'| |] eqn:E; try done.
  inversion H; subst. simpl. f_equal. by apply IH.
Qed.

Lemma readLine_prefix r line rest :
  readLine r = Ok line rest -> exists consumed, r = consumed +:+ rest.
Proof.
  unfold readLine, bind, ret.
  destruct (ReadString_LF r) as [l r'| |] eqn:E; try done.
  intros [= _ <-]. exists l. by apply ReadString_LF_prefix.
Qed.

Lemma parseElements_prefix PV count : forall n i acc r v rest,
  (forall r' v' rest', PV r' = Ok v' rest' -> exists c, r' = c +:+ rest') ->
  parseElements PV n i count acc r = Ok v rest ->
  exists consumed, r = consumed +:+ rest.
Proof.
  induction n as [|n IH]; intros i acc r v rest HPV; cbn [parseElements];
    destruct (i <? count); try done;
    try (intros [= _ <-]; by exists "").
  destruct (PV r) as [val r'| |] eqn:Hr; try done.
  intros H. apply IH in H as [c2 ->]; [|done].
  apply HPV in Hr as [c1 ->]. exists (c1 +:+ c2). by rewrite app_assoc.
Qed.

Lemma ParseValue_fuel_prefix fuel : forall r v rest,
  ParseValue_fuel fuel r = Ok v rest -> exists consumed, r = consumed +:+ rest.
Proof.
  induction fuel as [|fuel IH]; intros r v rest; [done|].
  destruct r as [|b r]; [done|].
  rewrite ParseValue_fuel_cons.
  assert (Hline : forall (k : string -> Reader RedisValue),
    (forall line r', k line r' = Ok v rest -> exists c, r' = c +:+ rest) ->
    bind readLine k r = Ok v rest ->
    exists consumed, String b r = consumed +:+ rest).
  { intros k Hk. unfold bind.
    destruct (readLine r) as [line r'| |] eqn:Hr; try done.
    intros H. apply Hk in H as [c2 ->]. apply readLine_prefix in Hr as [c1 ->].
    exists (String b (c1 +:+ c2)). simpl. by rewrite app_assoc. }
  destruct (Ascii.eqb b "+"); [|destruct (Ascii.eqb b "-");
    [|destruct (Ascii.eqb b ":"); [|destruct (Ascii.eqb b "$");
      [|destruct (Ascii.eqb b "*"); [|by unfold fail]]]]].
  - apply Hline. intros line r' [= _ <-]. by exists "".
  - apply Hline. intros line r' [= _ <-]. by exists "".
  - apply Hline. intros line r'. destruct (ParseInt line); [|done].
    intros [= _ <-]. by exists "".
  - apply Hline. intros line r'. destruct (Atoi line) as [n|]; [|done].
    destruct (n =? -1) eqn:Hn1. { intros [= _ <-]. by exists "". }
    apply Z.eqb_neq in Hn1.
    destruct (n <? -1) eqn:Hneg; [done|]. apply Z.ltb_ge in Hneg.
    unfold bind. destruct (ReadFull n ErrBulkPayload r') as [buf r1| |] eqn:H1;
      try done.
    destruct (ReadFull 2 ErrBulkCRLFRead r1) as [crlf r2| |] eqn:H2; try done.
    apply ReadFull_Ok in H1 as [-> _]; [|lia].
    apply ReadFull_Ok in H2 as [-> _]; [|lia].
    destruct (String.eqb crlf CRLF); [|done].
    intros [= _ <-]. exists (buf +:+ crlf). by rewrite app_assoc.
  - apply Hline. intros line r'. unfold parseArray.
    destruct (Atoi line) as [n|]; [|done].
    destruct (n =? -1). { intros [= _ <-]. by exists "". }
    destruct (n <? -1); [done|].
    apply parseElements_prefix. intros r'' v' rest'. apply IH.
Qed.

(** Two ways to cut one string meet in a common middle. *)
Lemma app_split p : forall q s t,
  p +:+ q = s +:+ t ->
  (exists m, m <> "" /\ s = p +:+ m /\ q = m +:+ t) \/
  (exists m, p = s +:+ m /\ t = m +:+ q).
Proof.
  induction p as [|c p IH]; intros q s t H.
  - simpl in H. destruct s as [|d s].
    + right. by exists "".
    + left. by exists (String d s).
  - destruct s as [|d s].
    + right. by exists (String c p).
    + simpl in H. injection H as -> H.
      apply IH in H as [(m & ? & -> & ->)|(m & -> & ->)].
      * left. by exists m.
      * right. by exists m.
Qed.

Lemma String_inj c d s t : String c s = String d t -> c = d /\ s = t.
Proof. by intros [= -> ->]. Qed.

Lemma app_nil_inv p q : p +:+ q = "" -> p = "" /\ q = "".
Proof. by destruct p. Qed.

(** A read for a line runs dry on input without LF. *)
Lemma ReadString_LF_dry p : noLF p = true -> ReadString_LF p = Err ErrRead.
Proof.
  induction p as [|c p IH]; simpl; [done|].
  intros [Hc Hp]%andb_true_iff. apply negb_true_iff in Hc. by rewrite Hc, IH.
Qed.

Lemma readLine_dry p : noLF p = true -> readLine p = Err ErrRead.
Proof. intros H. unfold readLine, bind. by rewrite ReadString_LF_dry. Qed.

(** What is cut off a line and its CR LF before their end holds no LF. *)
Lemma header_cut line p m :
  noLF line = true -> m <> "" -> line +:+ CRLF = p +:+ m -> noLF p = true.
Proof.
  intros Hline Hm H.
  assert (Hcr : noLF (line +:+ String CR "") = true).
  { unfold noLF in *. rewrite allBytes_app, Hline. done. }
  change (line +:+ CRLF) with (line +:+ (String CR "" +:+ String LF "")) in H.
  rewrite <- app_assoc in H. symmetry in H.
  apply app_split in H as [(m' & _ & Hp & _)|(m' & -> & Hm')].
  - rewrite Hp in Hcr. unfold noLF in *. rewrite allBytes_app in Hcr.
    by apply andb_true_iff in Hcr as [? _].
  - destruct m' as [|c m']; [by rewrite app_nil_r|].
    simpl in Hm'. injection Hm' as _ Hm'. symmetry in Hm'.
    apply app_nil_inv in Hm' as [_ ->]. done.
Qed.

(** A bulk string cut short is a decode error. *)
Lemma bulk_truncated fuel a p m :
  len a <= MaxInt -> m <> "" ->
  p +:+ m = "$" +:+ Itoa (len a) +:+ CRLF +:+ a +:+ CRLF ->
  exists e, ParseValue_fuel (S fuel) p = Err e.
Proof.
  intros Hmax Hm H. pose proof (len_nonneg a) as Hpos.
  destruct p as [|c p]; [by exists ErrRead|].
  change (String c (p +:+ m)
          = String "$" (Itoa (len a) +:+ CRLF +:+ a +:+ CRLF)) in H.
  apply String_inj in H as [-> H].
  rewrite (proj1 (proj2 (proj2 (proj2 (ParseValue_fuel_tag fuel p))))).
  unfold parseBulkString, bind.
  rewrite <- app_assoc in H.
  apply app_split in H as [(m1 & Hm1 & Hh & _)|(m2 & -> & Hbody)].
  - rewrite readLine_dry; [by eexists|].
    eapply header_cut; [apply Itoa_noLF|exact Hm1|exact Hh].
  - rewrite app_assoc, readLine_app by apply Itoa_noLF.
    rewrite Atoi_Itoa by (unfold MinInt; lia).
    destruct (len a =? -1) eqn:E1; [apply Z.eqb_eq in E1; lia|].
    destruct (len a <? -1) eqn:E2; [apply Z.ltb_lt in E2; lia|].
    symmetry in Hbody.
    apply app_split in Hbody as [(m3 & Hm3 & -> & _)|(m3 & -> & Hcrlf)].
    + unfold ReadFull. rewrite len_app.
      assert (0 < len m3).
      { destruct m3; [done|]. unfold len. simpl. lia. }
      destruct (len m2 <? len m2 + len m3) eqn:E; [by eexists|].
      apply Z.ltb_ge in E. lia.
    + rewrite ReadFull_app. unfold ReadFull at 1.
      assert (len m3 < 2).
      { apply (f_equal len) in Hcrlf. rewrite len_app in Hcrlf.
        assert (0 < len m) by (destruct m; [done|]; unfold len; simpl; lia).
        change (len CRLF) with 2 in Hcrlf. lia. }
      destruct (len m3 <? 2) eqn:E; [by eexists|].
      apply Z.ltb_ge in E. lia.
Qed.

Lemma SendRaw_args_cons a args :
  SendRaw_args (a :: args)
  = ("$" +:+ Itoa (len a) +:+ CRLF +:+ a +:+ CRLF) +:+ SendRaw_args args.
Proof. cbn [SendRaw_args]. by rewrite !app_assoc. Qed.

(** The elements of a command cut short are a decode error. *)
Lemma elements_truncated fuel args : forall p m N i acc,
  Forall (fun a => len a <= MaxInt) args -> m <> "" ->
  p +:+ m = SendRaw_args args -> (String.length p < N)%nat ->
  exists e,
    parseElements (ParseValue_fuel (S fuel)) N i (i + Z.of_nat (length args)) acc p
    = Err e.
Proof.
  induction args as [|a args IH]; intros p m N i acc Hargs Hm H HN.
  - simpl in H. by apply app_nil_inv in H as [_ ->].
  - inversion Hargs as [|? ? Ha Hargs']; subst.
    destruct N as [|N]; [lia|]. cbn [parseElements].
    assert ((i <? i + Z.of_nat (length (a :: args))) = true) as ->.
    { apply Z.ltb_lt. simpl length. lia. }
    rewrite SendRaw_args_cons in H.
    apply app_split in H as [(m1 & Hm1 & Hh & _)|(m2 & -> & Hbody)].
    + destruct (bulk_truncated fuel a p m1 Ha Hm1 (eq_sym Hh)) as [e ->].
      by eexists.
    + rewrite !app_assoc.
      rewrite ParseValue_fuel_bulk with (n := len a);
        [|apply Atoi_Itoa; pose proof (len_nonneg a); unfold MinInt; lia
         |apply len_nonneg|done].
      replace (i + Z.of_nat (length (a :: args)))
        with (i + 1 + Z.of_nat (length args)) by (simpl length; lia).
      apply (IH m2 m); [done|done|done|].
      rewrite length_app in HN. simpl in HN. lia.
Qed.

(** A line that does not end in the suffix is left as it is. *)
Lemma TrimSuffix_absent x suffix :
  (forall t, x <> t +:+ suffix) -> TrimSuffix x suffix = x.
Proof.
  induction x as [|c x IH]; intros H; cbn [TrimSuffix]; [done|].
  destruct (String.eqb_spec (String c x) suffix) as [E|_].
  - exfalso. by apply (H "").
  - f_equal. apply IH. intros t ->. by apply (H (String c t)).
Qed.

Lemma app_inj_tail s : forall t c,
  s +:+ String c "" = t +:+ String c "" -> s = t.
Proof.
  induction s as [|a s IH]; intros [|b t] c H; simpl in H.
  - done.
  - injection H as _ H. by destruct t.
  - injection H as _ H. by destruct s.
  - injection H as -> H. f_equal. by eapply IH.
Qed.

Lemma readLine_bare_LF s rest :
  noLF s = true -> (forall t, s <> t +:+ String CR "") ->
  readLine (s +:+ String LF rest) = Ok (s +:+ String LF "") rest.
Proof.
  intros Hs Hcr. unfold readLine, bind, ret.
  rewrite ReadString_LF_app by done. f_equal.
  apply TrimSuffix_absent. intros t H.
  change CRLF with (String CR "" +:+ String LF "") in H.
  rewrite <- app_assoc in H. apply app_inj_tail in H. by apply (Hcr t).
Qed.

Lemma ParseInt_LF s : ParseInt (s +:+ String LF "") = None.
Proof.
  destruct (ParseInt (s +:+ String LF "")) as [n|] eqn:E; [|done].
  apply ParseInt_noLF in E. rewrite allBytes_app in E.
  by apply andb_true_iff in E as [_ ?].
Qed.

(** The elements of a command in front of an array's other elements. *)
Lemma parseElements_args fuel args : forall n i count acc rest,
  Forall (fun a => len a <= MaxInt) args ->
  (length args <= n)%nat -> i + Z.of_nat (length args) <= count ->
  parseElements (ParseValue_fuel (S fuel)) n i count acc (SendRaw_args args +:+ rest)
  = parseElements (ParseValue_fuel (S fuel)) (n - length args)
      (i + Z.of_nat (length args)) count (acc ++ map bulk args) rest.
Proof.
  induction args as [|a args IH]; intros n i count acc rest Hargs Hn Hi.
  - simpl. rewrite Z.add_0_r, Nat.sub_0_r, List.app_nil_r. done.
  - inversion Hargs as [|? ? Ha Hargs']; subst.
    destruct n as [|n]; [simpl in Hn; lia|].
    rewrite SendRaw_args_cons, !app_assoc. cbn [parseElements].
    assert ((i <? count) = true) as ->.
    { apply Z.ltb_lt. simpl length in Hi. lia. }
    rewrite ParseValue_fuel_bulk with (n := len a);
      [|apply Atoi_Itoa; pose proof (len_nonneg a); unfold MinInt; lia
       |apply len_nonneg|done].
    rewrite IH; [|done|simpl in Hn; lia|simpl length in Hi; lia].
    simpl length. simpl map. rewrite <- List.app_assoc. simpl.
    f_equal. lia.
Qed.

Lemma length_SendRaw_args args :
  (length args <= String.length (SendRaw_args args))%nat.
Proof.
  induction args as [|a args IH]; [done|].
  rewrite SendRaw_args_cons, length_app. simpl. lia.
Qed.

End FrameFacts.

Import Go strconv resp command conn mock wire.
Import StringFacts StrconvFacts RespFacts CodecFacts CommandFacts IterFacts ServedFacts.
Import FrameFacts.

(** X1.  A value that [ParseValue] returns was read off the front of the
    input: the bytes it leaves are the input without a non-empty prefix,
    so the reader never skips ahead and never hands back a byte it has
    taken. *)
Theorem ParseValue_consumes_prefix (r : string) (v : RedisValue) (rest : string) :
  ParseValue r = Ok v rest ->
  exists consumed, consumed <> "" /\ r = consumed +:+ rest.
Proof.
  intros H. pose proof H as Hlen.
  apply ParseValue_fuel_total in Hlen; [|lia].
  apply ParseValue_fuel_prefix in H as [c ->]. exists c. split; [|done].
  intros ->. simpl in Hlen. lia.
Qed.

Lemma ParseValue_consumes_prefix_witness :
  ParseValue ("+OK" +:+ CRLF +:+ ":1" +:+ CRLF) = Ok (RedisString "OK") (":1" +:+ CRLF) /\
  exists consumed,
    consumed <> "" /\
    "+OK" +:+ CRLF +:+ ":1" +:+ CRLF = consumed +:+ (":1" +:+ CRLF).
Proof.
  split; [reflexivity|].
  apply (ParseValue_consumes_prefix _ (RedisString "OK")). reflexivity.
Defined.

(** X2.  No command is decoded from a part of its bytes: every proper
    prefix of what [SendRaw] writes for a list of arguments, the empty
    one included, makes [ParseValue] fail; it returns no value for it. *)
Theorem ParseValue_truncated (args : list string) (p m : string) :
  Z.of_nat (length args) <= MaxInt ->
  Forall (fun a => len a <= MaxInt) args ->
  m <> "" -> p +:+ m = SendRaw_bytes args ->
  exists e, ParseValue p = Err e.
Proof.
  intros Hn Hargs Hm H. unfold ParseValue.
  destruct p as [|c p]; [by exists ErrRead|].
  change (String c (p +:+ m)
          = String "*" (Itoa (Z.of_nat (length args)) +:+ CRLF +:+ SendRaw_args args))
    in H.
  apply String_inj in H as [-> H].
  rewrite (proj2 (proj2 (proj2 (proj2 (ParseValue_fuel_tag _ p))))).
  unfold parseArray, bind. rewrite <- app_assoc in H.
  apply app_split in H as [(m1 & Hm1 & Hh & _)|(m2 & -> & Hbody)].
  - rewrite readLine_dry; [by eexists|].
    eapply header_cut; [apply Itoa_noLF|exact Hm1|exact Hh].
  - rewrite app_assoc, readLine_app by apply Itoa_noLF.
    rewrite Atoi_Itoa by (unfold MinInt; lia).
    destruct (Z.of_nat (length args) =? -1) eqn:E1; [apply Z.eqb_eq in E1; lia|].
    destruct (Z.of_nat (length args) <? -1) eqn:E2; [apply Z.ltb_lt in E2; lia|].
    apply (elements_truncated _ args m2 m _ 0 []); [done|done|done|lia].
Qed.

Lemma ParseValue_truncated_witness :
  Z.of_nat (length ["GET"; "mykey"]) <= MaxInt /\
  "ey" +:+ CRLF <> "" /\
  ("*2" +:+ CRLF +:+ "$3" +:+ CRLF +:+ "GET" +:+ CRLF +:+ "$5" +:+ CRLF +:+ "myk")
    +:+ ("ey" +:+ CRLF) = SendRaw_bytes ["GET"; "mykey"] /\
  exists e,
    ParseValue
      ("*2" +:+ CRLF +:+ "$3" +:+ CRLF +:+ "GET" +:+ CRLF +:+ "$5" +:+ CRLF +:+ "myk")
    = Err e.
Proof.
  split; [vm_compute; discriminate|]. split; [done|]. split; [reflexivity|].
  apply (ParseValue_truncated ["GET"; "mykey"] _ ("ey" +:+ CRLF)).
  - vm_compute; discriminate.
  - repeat constructor; vm_compute; discriminate.
  - done.
  - reflexivity.
Defined.

(** X3.  Only CR LF is taken off the end of a line: a line that ends in
    LF without CR in front of it keeps that LF.  It comes out of a
    simple string and of an error reply with the LF as its last byte,
    and as an integer, as a bulk length or as an array count it does not
    read as a number, so that the value is refused. *)
Theorem bare_LF_line (s rest : string) :
  noLF s = true -> (forall t, s <> t +:+ String CR "") ->
  let line := s +:+ String LF "" in
  ParseValue ("+" +:+ s +:+ String LF rest) = Ok (RedisString line) rest /\
  ParseValue ("-" +:+ s +:+ String LF rest) = Ok (RedisError line) rest /\
  ParseValue (":" +:+ s +:+ String LF rest) = Err (ErrInteger line) /\
  ParseValue ("$" +:+ s +:+ String LF rest) = Err (ErrBulkLength line) /\
  ParseValue ("*" +:+ s +:+ String LF rest) = Err (ErrArrayCount line).
Proof.
  intros Hs Hcr line. unfold ParseValue.
  repeat split; tag;
    unfold parseSimpleString, parseError, parseInteger, parseBulkString,
      parseArray, bind, ret, fail, Atoi;
    rewrite readLine_bare_LF by done; try done;
    fold line; unfold line; by rewrite ParseInt_LF.
Qed.

Lemma bare_LF_line_witness :
  noLF "42" = true /\ (forall t, "42" <> t +:+ String CR "") /\
  ParseValue ("+" +:+ "42" +:+ String LF "") = Ok (RedisString ("42" +:+ String LF "")) "" /\
  ParseValue (":" +:+ "42" +:+ String LF "") = Err (ErrInteger ("42" +:+ String LF "")).
Proof.
  split; [reflexivity|].
  assert (Hcr : forall t, "42" <> t +:+ String CR "").
  { intros [|a [|b [|c t]]]; simpl; discriminate. }
  split; [exact Hcr|].
  pose proof (bare_LF_line "42" "" eq_refl Hcr) as (H1 & _ & H3 & _).
  exact (conj H1 H3).
Defined.



(* ================================================================== *)
(** * Part V: further properties of the tokenizer and of [Parse] *)
(* ================================================================== *)

Module TokenFacts.
Import Go strconv utf8 unicode strings command conn shapes.
Import StringFacts StrconvFacts CommandFacts.

(** No turn of the loop adds an empty token. *)
Lemma tokStep_nonempty st r :
  Forall (fun t => t <> "") (tokens st) ->
  Forall (fun t => t <> "") (tokens (tokStep st r)).
Proof.
  intros H. unfold tokStep.
  repeat match goal with
         | |- context [if ?b then _ else _] => destruct b eqn:?
         end; cbn [tokens]; try done.
  apply Forall_app. split; [done|]. constructor; [|done].
  intros E. rewrite E in *. done.
Qed.

Lemma rangeRunes_nonempty s : forall skip st,
  Forall (fun t => t <> "") (tokens st) ->
  Forall (fun t => t <> "") (tokens (rangeRunes s skip st)).
Proof.
  induction s as [|c s IH]; intros skip st H; cbn [rangeRunes]; [done|].
  destruct skip as [|k]; [|by apply IH].
  destruct (DecodeRuneInString (String c s)) as [r size].
  by apply IH, tokStep_nonempty.
Qed.

(** A line of plain words in front of a space. *)
Lemma rangeRunes_words ws : forall w acc rest,
  plainWord w = true -> forallb plainWord ws = true ->
  rangeRunes (joinWords (w :: ws) +:+ String " " rest) 0 (mkTok acc "" false false)
  = rangeRunes rest 0 (mkTok (acc ++ w :: ws) "" false false).
Proof.
  induction ws as [|w' ws IH]; intros w acc rest Hw Hws;
    destruct (plainWord_spec w Hw) as (_ & Hall & Hlen).
  - cbn [joinWords]. rewrite rangeRunes_plain by done.
    rewrite rangeRunes_space. cbn [String.append].
    by destruct (0 <? len w) eqn:E; [|apply Z.ltb_ge in E; lia].
  - cbn [forallb] in Hws. apply andb_true_iff in Hws as [Hw' Hws].
    change (joinWords (w :: w' :: ws)) with (w +:+ String " " (joinWords (w' :: ws))).
    rewrite app_assoc. rewrite rangeRunes_plain by done.
    cbn [String.append]. rewrite rangeRunes_space. cbn [String.append].
    destruct (0 <? len w) eqn:E; [|apply Z.ltb_ge in E; lia].
    rewrite IH by done. by rewrite <- List.app_assoc.
Qed.

Lemma quotedByte_spec c :
  quotedByte c = true ->
  byteval c < 128 /\ byteval c <> 34 /\ byteval c <> 92.
Proof.
  unfold quotedByte. intros [[H1 H2]%andb_true_iff H3]%andb_true_iff.
  apply Z.ltb_lt in H1. apply negb_true_iff, Z.eqb_neq in H2, H3. done.
Qed.

(** Between quotes every such byte goes into the token, the space
    included. *)
Lemma rangeRunes_quoted s : forall rest toks cur,
  allBytes quotedByte s = true ->
  rangeRunes (s +:+ rest) 0 (mkTok toks cur true false)
  = rangeRunes rest 0 (mkTok toks (cur +:+ s) true false).
Proof.
  induction s as [|c s IH]; intros rest toks cur Hs.
  { by rewrite app_nil_r. }
  simpl in Hs. apply andb_true_iff in Hs as [Hc Hs].
  apply quotedByte_spec in Hc as (H1 & H2 & H3).
  cbn [String.append rangeRunes].
  rewrite DecodeRune_ascii by done. unfold tokStep. cbn [escaped inQuotes].
  destruct (byteval c =? 92) eqn:E1; [apply Z.eqb_eq in E1; lia|].
  destruct (byteval c =? 34) eqn:E2; [apply Z.eqb_eq in E2; lia|].
  rewrite andb_false_r. cbn [tokens currentToken Nat.sub].
  rewrite EncodeRune_ascii by done. rewrite IH by done.
  by rewrite app_assoc.
Qed.

End TokenFacts.

Import Go strconv resp utf8 unicode strings command conn mock wire shapes.
Import StringFacts StrconvFacts RespFacts CodecFacts CommandFacts IterFacts ServedFacts.
Import TokenFacts.

(** X5.  [tokenize] yields no empty token, whatever the input: an
    argument written as two quotes with nothing between them is not
    passed on. *)
Theorem tokenize_no_empty_token (input : string) :
  Forall (fun t => t <> "") (tokenize input).
Proof.
  unfold tokenize.
  pose proof (rangeRunes_nonempty input 0 (mkTok [] "" false false)
                (List.Forall_nil _)) as H.
  destruct (0 <? len (currentToken _)) eqn:E; [|done].
  apply Forall_app. split; [done|]. constructor; [|done].
  intros E'. rewrite E' in E. done.
Qed.

(** X6.  Quotes keep an argument together: behind a line of plain
    words, an argument between quotes that holds ASCII bytes other than
    the quote and the backslash, spaces and control bytes included, is
    one token, the bytes between the quotes; with nothing between the
    quotes there is no token for it. *)
Theorem tokenize_quoted (w : string) (ws : list string) (s : string) :
  plainWord w = true -> forallb plainWord ws = true ->
  allBytes quotedByte s = true ->
  tokenize (joinWords (w :: ws) +:+ " " +:+ quoted s)
  = (w :: ws) ++ (if String.eqb s "" then [] else [s]).
Proof.
  intros Hw Hws Hs. unfold tokenize, quoted.
  change (" " +:+ String "034" (s +:+ String "034" ""))
    with (String " " (String "034" (s +:+ String "034" ""))).
  rewrite rangeRunes_words by done.
  cbn [rangeRunes]. rewrite DecodeRune_ascii by (by vm_compute).
  change (tokStep (mkTok ([] ++ w :: ws) "" false false) (byteval "034"))
    with (mkTok (w :: ws) "" true false).
  cbn [Nat.sub]. rewrite rangeRunes_quoted by done.
  cbn [rangeRunes]. rewrite DecodeRune_ascii by (by vm_compute).
  change (tokStep (mkTok (w :: ws) ("" +:+ s) true false) (byteval "034"))
    with (mkTok (w :: ws) s false false).
  cbn [rangeRunes currentToken tokens].
  destruct s as [|c s]; [simpl; by rewrite List.app_nil_r|].
  unfold len. simpl String.length.
  destruct (0 <? Z.of_nat (S (String.length s))) eqn:E; [done|].
  apply Z.ltb_ge in E. lia.
Qed.

Lemma tokenize_quoted_witness :
  plainWord "SET" = true /\ forallb plainWord ["key"] = true /\
  allBytes quotedByte "hello  world" = true /\
  tokenize ("SET key " +:+ quoted "hello  world") = ["SET"; "key"; "hello  world"] /\
  tokenize ("SET key " +:+ quoted "") = ["SET"; "key"].
Proof.
  split; [reflexivity|]. split; [reflexivity|]. split; [reflexivity|]. split.
  - exact (tokenize_quoted "SET" ["key"] "hello  world" eq_refl eq_refl eq_refl).
  - exact (tokenize_quoted "SET" ["key"] "" eq_refl eq_refl eq_refl).
Defined.

Module ParseFacts.
Import Go strconv utf8 unicode strings command conn shapes.
Import StringFacts StrconvFacts CommandFacts TokenFacts.

Lemma to_nat_len s : Z.to_nat (len s) = String.length s.
Proof. unfold len. apply Nat2Z.id. Qed.

Lemma HasPrefix_app p s : HasPrefix (p +:+ s) p = true.
Proof.
  induction p as [|c p IH]; [by destruct s|].
  cbn [String.append HasPrefix]. by rewrite Ascii.eqb_refl.
Qed.

(** The first [" | "] behind a text without the bar. *)
Lemma Index_pipe x shell : forall j,
  allBytes (fun c => negb (Ascii.eqb c "|")) x = true ->
  Index_from j (x +:+ " | " +:+ shell) " | " = j + len x.
Proof.
  induction x as [|c x IH]; intros j Hx.
  { change ("" +:+ " | " +:+ shell) with (String " " ("| " +:+ shell)).
    cbn [Index_from]. change (String " " ("| " +:+ shell)) with (" | " +:+ shell).
    rewrite HasPrefix_app. unfold len. simpl. lia. }
  simpl in Hx. apply andb_true_iff in Hx as [Hc Hx].
  change (String c x +:+ " | " +:+ shell) with (String c (x +:+ " | " +:+ shell)).
  cbn [Index_from].
  assert (HasPrefix (String c (x +:+ " | " +:+ shell)) " | " = false) as ->.
  { cbn [HasPrefix]. destruct (Ascii.eqb " " c); [|done]. cbn [andb].
    destruct x as [|d x]; [done|]. simpl in Hx.
    apply andb_true_iff in Hx as [Hd _]. cbn [String.append HasPrefix].
    apply negb_true_iff in Hd. rewrite Ascii.eqb_sym in Hd. by rewrite Hd. }
  rewrite IH by done. unfold len. simpl String.length. lia.
Qed.

Lemma LastIndex_from_cons i found c s sub :
  LastIndex_from i found (String c s) sub
  = LastIndex_from (i + 1) (if HasPrefix (String c s) sub then i else found) s sub.
Proof. reflexivity. Qed.

(** The last ["#:"] between two texts without the hash sign. *)
Lemma LastIndex_codec x codec : forall j found,
  allBytes (fun c => negb (Ascii.eqb c "#")) x = true ->
  allBytes (fun c => negb (Ascii.eqb c "#")) codec = true ->
  LastIndex_from j found (x +:+ "#:" +:+ codec) "#:" = j + len x.
Proof.
  intros j found Hx Hc.
  destruct (Index_from_skip (fun c => negb (Ascii.eqb c "#")) "#" ":" x
              ("#:" +:+ codec) j found Hx eq_refl) as [_ ->].
  change ("#:" +:+ codec) with (String "#" (String ":" codec)).
  rewrite LastIndex_from_cons.
  change (String "#" (String ":" codec)) with ("#:" +:+ codec).
  rewrite HasPrefix_app.
  by destruct (Index_absent (fun c => negb (Ascii.eqb c "#")) "#:" (String ":" codec)
                 (j + len x + 1) (j + len x)) as [_ H].
Qed.

(** White space is trimmed off no graphic text. *)
Lemma graphic_spec c :
  graphic c = true -> byteval c < 128 /\ IsSpace (byteval c) = false.
Proof.
  unfold graphic. intros [H1%Z.leb_le H2%Z.leb_le]%andb_true_iff.
  split; [lia|]. apply IsSpace_printable. lia.
Qed.

Lemma TrimRightSpace_graphic s : allBytes graphic s = true -> TrimRightSpace s = s.
Proof.
  induction s as [|c s IH]; [done|]. simpl. intros [Hc Hs]%andb_true_iff.
  rewrite IH by done. apply graphic_spec in Hc as [? ?].
  by rewrite spaceRune_ascii.
Qed.

Lemma TrimSpace_graphic s : allBytes graphic s = true -> TrimSpace s = s.
Proof.
  intros Hs. unfold TrimSpace.
  assert (TrimLeftSpace s 0 = s) as ->.
  { destruct s as [|c s]; [done|]. simpl in Hs.
    apply andb_true_iff in Hs as [Hc _]. apply graphic_spec in Hc as [? Hsp].
    cbn [TrimLeftSpace]. by rewrite DecodeRune_ascii, Hsp. }
  by apply TrimRightSpace_graphic.
Qed.

Lemma plainByte_graphic c : plainByte c = true -> graphic c = true.
Proof.
  intros H%plainByte_spec. unfold graphic.
  apply andb_true_iff. split; apply Z.leb_le; lia.
Qed.

Lemma plainByte_not c (x : ascii) :
  byteval x = 35 \/ byteval x = 124 ->
  plainByte c = true -> negb (Ascii.eqb c x) = true.
Proof.
  intros Hx H%plainByte_spec. apply negb_true_iff, Ascii.eqb_neq.
  intros ->. lia.
Qed.

Lemma words_without (x : ascii) w ws :
  byteval x = 35 \/ byteval x = 124 ->
  plainWord w = true -> forallb plainWord ws = true ->
  allBytes (fun c => negb (Ascii.eqb c x)) (joinWords (w :: ws)) = true.
Proof.
  intros Hx Hw Hws. apply joinWords_allBytes.
  { destruct Hx as [Hx|Hx]; apply negb_true_iff, Ascii.eqb_neq; intros <-;
      vm_compute in Hx; discriminate. }
  eapply forallb_impl; [|exact (proj2 (andb_true_iff _ _)
      (conj Hw Hws) : forallb plainWord (w :: ws) = true)].
  intros y (_ & Hy & _)%plainWord_spec.
  eapply allBytes_impl; [|exact Hy]. intros c. by apply plainByte_not.
Qed.

(** A line of plain words is not blank. *)
Lemma words_not_blank w ws rest :
  plainWord w = true ->
  String.eqb (TrimSpace (joinWords (w :: ws) +:+ rest)) "" = false.
Proof.
  intros Hw. destruct (plainWord_spec w Hw) as (Hne & Hall & _).
  destruct w as [|c w]; [done|].
  assert (Hc : 33 <= byteval c <= 126).
  { simpl in Hall. apply andb_true_iff in Hall as [Hc%plainByte_spec _]. lia. }
  assert (Hj : exists s', joinWords (String c w :: ws) +:+ rest = String c s').
  { destruct ws; cbn [joinWords String.append]; by eexists. }
  destruct Hj as [s' ->].
  by destruct (TrimSpace_head c s') as [t ->];
    [lia|by apply IsSpace_printable|].
Qed.

(** The tokens of a line of plain words, with or without a space
    behind it. *)
Lemma tokenize_words w ws sp :
  plainWord w = true -> forallb plainWord ws = true ->
  sp = "" \/ sp = " " ->
  tokenize (joinWords (w :: ws) +:+ sp) = w :: ws.
Proof.
  intros Hw Hws [-> | ->].
  - rewrite app_nil_r. by apply tokenize_join.
  - unfold tokenize.
    change (joinWords (w :: ws) +:+ " ") with (joinWords (w :: ws) +:+ String " " "").
    by rewrite rangeRunes_words.
Qed.

(** Without a codec, and under another name than SET, the tokens are
    written as they are. *)
Lemma encodeTokens_other_name ext name modifier toks : forall i,
  String.eqb name "SET" = false ->
  encodeTokens ext name modifier i toks = inr (SendRaw_args toks).
Proof.
  induction toks as [|t toks IH]; intros i Hname; [done|].
  cbn [encodeTokens SendRaw_args]. rewrite Hname. cbn [andb].
  by rewrite IH.
Qed.

Lemma encodeTokens_past ext name modifier toks : forall i,
  2 < i -> encodeTokens ext name modifier i toks = inr (SendRaw_args toks).
Proof.
  induction toks as [|t toks IH]; intros i Hi; [done|].
  cbn [encodeTokens SendRaw_args].
  assert ((i =? 2) = false) as -> by (apply Z.eqb_neq; lia).
  rewrite andb_false_r. cbn [andb]. by rewrite IH by lia.
Qed.

(** [Parse] on a line of plain words with a codec suffix: the suffix is
    cut off and named as the modifier, and the words are tokens. *)
Lemma Parse_codec ext w ws sp codec :
  plainWord w = true -> forallb plainWord ws = true ->
  sp = "" \/ sp = " " -> allBytes plainByte codec = true ->
  Parse ext (joinWords (w :: ws) +:+ sp +:+ "#:" +:+ codec) None
  = match encodeTokens ext (ToUpper (unicodeUpper ext) w) codec 0 (w :: ws) with
    | inl err => inl err
    | inr body =>
        inr (mkParsed (joinWords (w :: ws) +:+ sp +:+ "#:" +:+ codec)
               (ToUpper (unicodeUpper ext) w) ws
               ("*" +:+ Itoa (Z.of_nat (length (w :: ws))) +:+ CRLF +:+ body)
               codec "" None)
    end.
Proof.
  intros Hw Hws Hsp Hcodec. unfold Parse.
  rewrite words_not_blank by done. cbv zeta.
  assert (Hwithout : forall x : ascii, byteval x = 35 \/ byteval x = 124 ->
    allBytes (fun c => negb (Ascii.eqb c x)) (joinWords (w :: ws) +:+ sp) = true /\
    allBytes (fun c => negb (Ascii.eqb c x)) codec = true).
  { intros x Hx. split.
    - rewrite allBytes_app, words_without by done.
      destruct Hsp as [-> | ->]; [done|].
      cbn [allBytes andb]. rewrite andb_true_r.
      apply negb_true_iff, Ascii.eqb_neq. intros <-.
      destruct Hx as [Hx|Hx]; vm_compute in Hx; discriminate.
    - eapply allBytes_impl; [|exact Hcodec]. intros c. by apply plainByte_not. }
  assert (Hno : Index (joinWords (w :: ws) +:+ sp +:+ "#:" +:+ codec) " | " = -1).
  { destruct (Hwithout "|"%char (or_intror eq_refl)) as [H1 H2].
    eapply (Index_absent (fun c => negb (Ascii.eqb c "|")) " | " _ 0 0); [|done].
    rewrite <- app_assoc, allBytes_app, H1. simpl. exact H2. }
  rewrite Hno. change (-1 =? -1) with true. cbv iota.
  destruct (Hwithout "#"%char (or_introl eq_refl)) as [H1 H2].
  unfold LastIndex. rewrite <- app_assoc.
  rewrite LastIndex_codec by done. rewrite Z.add_0_l.
  pose proof (len_nonneg (joinWords (w :: ws) +:+ sp)) as Hpos.
  destruct (len (joinWords (w :: ws) +:+ sp) =? -1) eqn:E;
    [apply Z.eqb_eq in E; lia|].
  rewrite to_nat_len, take_app.
  replace (Z.to_nat (len (joinWords (w :: ws) +:+ sp) + 2))
    with (String.length ((joinWords (w :: ws) +:+ sp) +:+ "#:")).
  2:{ rewrite (length_app _ "#:"). unfold len. simpl. lia. }
  rewrite <- (app_assoc _ "#:" codec), drop_app.
  rewrite TrimSpace_graphic.
  2:{ eapply allBytes_impl; [|exact Hcodec]. apply plainByte_graphic. }
  rewrite tokenize_words by done.
  rewrite !app_assoc. done.
Qed.

End ParseFacts.

Import ParseFacts.

(** X7.  What follows the first [" | "] of a line is kept for the shell
    and is not sent: behind a line of plain words, whatever the text
    after the bar holds, a codec suffix or further bars included,
    [Parse] builds the bytes of the words alone and records the trimmed
    text as the pipe, with no codec. *)
Theorem Parse_pipe (ext : Extern) (w : string) (ws : list string) (shell : string) :
  plainWord w = true -> forallb plainWord ws = true ->
  Parse ext (joinWords (w :: ws) +:+ " | " +:+ shell) None
  = inr (mkParsed (joinWords (w :: ws) +:+ " | " +:+ shell)
           (ToUpper (unicodeUpper ext) w) ws
           (SendRaw_bytes (w :: ws)) "" (TrimSpace shell) None).
Proof.
  intros Hw Hws. unfold Parse.
  rewrite words_not_blank by done. cbv zeta.
  unfold Index. rewrite Index_pipe by (apply (words_without "|"); auto).
  rewrite Z.add_0_l.
  pose proof (len_nonneg (joinWords (w :: ws))) as Hpos.
  destruct (len (joinWords (w :: ws)) =? -1) eqn:E; [apply Z.eqb_eq in E; lia|].
  rewrite to_nat_len, take_app.
  replace (Z.to_nat (len (joinWords (w :: ws)) + 3))
    with (String.length (joinWords (w :: ws) +:+ " | ")).
  2:{ rewrite length_app. unfold len. simpl. lia. }
  rewrite <- app_assoc, drop_app.
  destruct (join_no_suffixes w ws Hw Hws) as [_ Hm].
  rewrite Hm. change (-1 =? -1) with true. cbv iota.
  rewrite (tokenize_join w ws) by done.
  by rewrite encodeTokens_plain.
Qed.

Lemma Parse_pipe_witness :
  plainWord "GET" = true /\ forallb plainWord ["mykey"] = true /\
  Parse plainExtern ("GET mykey | jq . #:x | wc") None
  = inr (mkParsed "GET mykey | jq . #:x | wc" "GET" ["mykey"]
           (SendRaw_bytes ["GET"; "mykey"]) "" "jq . #:x | wc" None).
Proof.
  split; [reflexivity|]. split; [reflexivity|].
  exact (Parse_pipe plainExtern "GET" ["mykey"] "jq . #:x | wc" eq_refl eq_refl).
Defined.

(** X8.  Under a name other than SET a codec suffix changes nothing of
    what is sent: behind a line of plain words, with or without a space
    in between, [Parse] records the codec as the modifier and builds the
    bytes of the words as they are; the serializer is not asked, so that
    a codec it does not know is no error here. *)
Theorem Parse_codec_unused
    (ext : Extern) (w : string) (ws : list string) (sp codec : string) :
  plainWord w = true -> forallb plainWord ws = true ->
  sp = "" \/ sp = " " -> allBytes plainByte codec = true ->
  ToUpper (unicodeUpper ext) w <> "SET" ->
  Parse ext (joinWords (w :: ws) +:+ sp +:+ "#:" +:+ codec) None
  = inr (mkParsed (joinWords (w :: ws) +:+ sp +:+ "#:" +:+ codec)
           (ToUpper (unicodeUpper ext) w) ws
           (SendRaw_bytes (w :: ws)) codec "" None).
Proof.
  intros Hw Hws Hsp Hcodec Hname.
  rewrite Parse_codec by done.
  rewrite encodeTokens_other_name; [done|].
  by apply String.eqb_neq.
Qed.

Lemma Parse_codec_unused_witness :
  plainWord "GET" = true /\ forallb plainWord ["mykey"] = true /\
  allBytes plainByte "nosuchcodec" = true /\
  forall serialize,
    Parse (mkExtern (fun s => s) serialize) ("GET mykey" +:+ "" +:+ "#:" +:+ "nosuchcodec")
      None
    = inr (mkParsed "GET mykey#:nosuchcodec" "GET" ["mykey"]
             (SendRaw_bytes ["GET"; "mykey"]) "nosuchcodec" "" None).
Proof.
  split; [reflexivity|]. split; [reflexivity|]. split; [reflexivity|].
  intros serialize.
  apply (Parse_codec_unused (mkExtern (fun s => s) serialize) "GET" ["mykey"] ""
           "nosuchcodec"); try reflexivity.
  - by left.
  - discriminate.
Defined.

(** X9.  Under the name SET a codec suffix is applied to the value and
    to nothing else: in a line [SET key value ...] of plain words the
    third token is replaced by what the serializer makes of it, with the
    length of the result in front, while the name, the key and the
    tokens after the value are written as they are and the arguments
    keep the value as it was typed; when the serializer fails, [Parse]
    returns an error and no command. *)
Theorem Parse_SET_codec
    (ext : Extern) (k v : string) (more : list string) (sp codec : string) :
  plainWord k = true -> plainWord v = true -> forallb plainWord more = true ->
  sp = "" \/ sp = " " -> plainWord codec = true ->
  let line := joinWords ("SET" :: k :: v :: more) +:+ sp +:+ "#:" +:+ codec in
  (forall data, Serialize ext codec v = inr data ->
     Parse ext line None
     = inr (mkParsed line "SET" (k :: v :: more)
              (SendRaw_bytes ("SET" :: k :: data :: more)) codec "" None)) /\
  (forall err, Serialize ext codec v = inl err ->
     exists e, Parse ext line None = inl e).
Proof.
  intros Hk Hv Hmore Hsp Hcodec line. subst line.
  destruct (plainWord_spec codec Hcodec) as (Hne & Hall & _).
  assert (Hparse := Parse_codec ext "SET" (k :: v :: more) sp codec eq_refl).
  rewrite Hparse; [|by cbn [forallb]; rewrite Hk, Hv|done|done].
  change (ToUpper (unicodeUpper ext) "SET") with "SET".
  cbn [encodeTokens]. change (String.eqb "SET" "SET") with true.
  change (0 =? 2) with false. change (0 + 1 =? 2) with false.
  change (0 + 1 + 1 =? 2) with true. cbn [andb].
  assert (negb (String.eqb codec "") = true) as ->.
  { by apply negb_true_iff, String.eqb_neq. }
  rewrite encodeTokens_past by lia.
  split.
  - intros data ->. unfold SendRaw_bytes. cbn [SendRaw_args length]. done.
  - intros err ->. by eexists.
Qed.

Lemma Parse_SET_codec_witness :
  plainWord "key" = true /\ plainWord "value" = true /\ plainWord "rot" = true /\
  Parse (mkExtern (fun s => s) (fun _ data => inr (data +:+ data)))
    ("SET key value EX 10" +:+ " " +:+ "#:" +:+ "rot") None
  = inr (mkParsed "SET key value EX 10 #:rot" "SET" ["key"; "value"; "EX"; "10"]
           (SendRaw_bytes ["SET"; "key"; "valuevalue"; "EX"; "10"]) "rot" "" None)
  /\ exists e,
       Parse (mkExtern (fun s => s) (fun _ _ => inl (mkError "unknown serializer" false)))
         ("SET key value" +:+ "" +:+ "#:" +:+ "rot") None = inl e.
Proof.
  split; [reflexivity|]. split; [reflexivity|]. split; [reflexivity|]. split.
  - apply (Parse_SET_codec (mkExtern (fun s => s) (fun _ data => inr (data +:+ data)))
             "key" "value" ["EX"; "10"] " " "rot"); try reflexivity. by right.
  - apply (Parse_SET_codec
             (mkExtern (fun s => s) (fun _ _ => inl (mkError "unknown serializer" false)))
             "key" "value" [] "" "rot" eq_refl eq_refl eq_refl (or_introl eq_refl)
             eq_refl)
      with (err := mkError "unknown serializer" false).
    reflexivity.
Defined.

(* ================================================================== *)
(** * Part VI: the registry of the command documentation *)
(* ================================================================== *)

Module RegistryFacts.
Import Go strconv strings command conn registry.
Import StringFacts StrconvFacts CommandFacts.

(** The index that [NewRegistry] builds. *)
Lemma indexDocs_indexed ds : forall pre idx,
  (forall name i, idx !! name = Some i ->
     0 <= i /\ exists doc, (pre ++ ds) !! Z.to_nat i = Some doc /\ Command doc = name) ->
  forall name i, indexDocs (Z.of_nat (length pre)) ds idx !! name = Some i ->
    0 <= i /\ exists doc, (pre ++ ds) !! Z.to_nat i = Some doc /\ Command doc = name.
Proof.
  induction ds as [|d ds IH]; intros pre idx Hidx name i; cbn [indexDocs].
  { apply Hidx. }
  replace (Z.of_nat (length pre) + 1) with (Z.of_nat (length (pre ++ [d])))
    by (rewrite List.length_app; simpl; lia).
  replace (pre ++ d :: ds) with ((pre ++ [d]) ++ ds) by (by rewrite <- List.app_assoc).
  apply IH. intros n j Hn.
  destruct (decide (n = Command d)) as [->|Hne].
  - rewrite lookup_insert_eq in Hn. injection Hn as <-. split; [lia|].
    exists d. split; [|done]. rewrite Nat2Z.id, <- List.app_assoc.
    by apply list_lookup_middle.
  - rewrite lookup_insert_ne in Hn by congruence. rewrite <- List.app_assoc. by apply Hidx.
Qed.

Lemma NewRegistry_indexed embedded r :
  NewRegistry (inr embedded) = inr r -> indexed r.
Proof.
  intros [= <-]. unfold indexed. cbn [index docs].
  apply (indexDocs_indexed (embedded ++ appCommands) [] ∅).
  intros name i H. by rewrite lookup_empty in H.
Qed.

(** [mergeOne] adds at the end and leaves the rest as it is. *)
Lemma mergeOne_indexed r sc : indexed r -> indexed (mergeOne r sc).
Proof.
  intros Hr. unfold mergeOne.
  destruct (index r !! Name sc) eqn:E; [done|].
  intros name i. cbn [index docs]. intros H.
  destruct (decide (name = Name sc)) as [->|Hne].
  - rewrite lookup_insert_eq in H. injection H as <-. split; [lia|].
    eexists. split; [rewrite Nat2Z.id; by apply list_lookup_middle|done].
  - rewrite lookup_insert_ne in H by congruence.
    destruct (Hr name i H) as (Hi & doc & Hdoc & Hc). split; [done|].
    exists doc. split; [|done]. by apply lookup_app_l_Some.
Qed.

Lemma mergeAll_indexed subs : forall r, indexed r -> indexed (fold_left mergeOne subs r).
Proof.
  induction subs as [|sc subs IH]; intros r Hr; [done|].
  simpl. by apply IH, mergeOne_indexed.
Qed.

Lemma Merge_indexed cmds : forall r, indexed r -> indexed (MergeServerCommands r cmds).
Proof.
  unfold MergeServerCommands.
  induction cmds as [|sc cmds IH]; intros r Hr; [done|].
  simpl. by apply IH, mergeAll_indexed, mergeOne_indexed.
Qed.

Lemma built_indexed r : built r -> indexed r.
Proof.
  induction 1 as [embedded r H|r cmds _ IH].
  - by eapply NewRegistry_indexed.
  - by apply Merge_indexed.
Qed.

(** What a name holds in the index and in the docs stays. *)
Lemma mergeOne_index r sc name i :
  index r !! name = Some i -> index (mergeOne r sc) !! name = Some i.
Proof.
  intros H. unfold mergeOne. destruct (index r !! Name sc) eqn:E; [done|].
  cbn [index]. rewrite lookup_insert_ne; [done|]. intros <-. congruence.
Qed.

Lemma mergeOne_docs r sc n doc :
  docs r !! n = Some doc -> docs (mergeOne r sc) !! n = Some doc.
Proof.
  intros H. unfold mergeOne. destruct (index r !! Name sc); [done|].
  cbn [docs]. by apply lookup_app_l_Some.
Qed.

Lemma mergeOne_dangerous r sc : dangerous (mergeOne r sc) = dangerous r.
Proof. unfold mergeOne. by destruct (index r !! Name sc). Qed.

Lemma mergeOne_has r sc : exists i, index (mergeOne r sc) !! Name sc = Some i.
Proof.
  unfold mergeOne. destruct (index r !! Name sc) eqn:E; [by eexists|].
  cbn [index]. rewrite lookup_insert_eq. by eexists.
Qed.

Lemma mergeOne_only r sc name i :
  index (mergeOne r sc) !! name = Some i ->
  index r !! name = Some i \/ name = Name sc.
Proof.
  unfold mergeOne. destruct (index r !! Name sc) eqn:E; [by left|].
  cbn [index]. destruct (decide (name = Name sc)) as [->|Hne]; [by right|].
  rewrite lookup_insert_ne by congruence. by left.
Qed.

(** A step that keeps a property of the registry keeps it through the
    whole of a merge. *)
Lemma Merge_keeps (P : Registry -> Prop) :
  (forall r sc, P r -> P (mergeOne r sc)) ->
  forall cmds r, P r -> P (MergeServerCommands r cmds).
Proof.
  intros Hstep. unfold MergeServerCommands.
  assert (Hall : forall subs r, P r -> P (fold_left mergeOne subs r)).
  { induction subs as [|sc subs IH]; intros r Hr; [done|]. simpl. auto. }
  induction cmds as [|sc cmds IH]; intros r Hr; [done|].
  simpl. apply IH, Hall, Hstep, Hr.
Qed.

Lemma mergeAll_has subs : forall r name,
  In name (map Name subs) ->
  exists i, index (fold_left mergeOne subs r) !! name = Some i.
Proof.
  induction subs as [|sc subs IH]; intros r name; [done|].
  simpl. intros [<-|Hin]; [|by apply IH].
  destruct (mergeOne_has r sc) as [i Hi]. exists i.
  assert (Hall : forall subs r, index r !! Name sc = Some i ->
                                index (fold_left mergeOne subs r) !! Name sc = Some i).
  { clear. induction subs as [|s subs IH]; intros r Hr; [done|].
    simpl. by apply IH, mergeOne_index. }
  by apply Hall.
Qed.

Lemma Merge_has cmds : forall r name,
  In name (mergedNames cmds) ->
  exists i, index (MergeServerCommands r cmds) !! name = Some i.
Proof.
  induction cmds as [|sc cmds IH]; intros r name; [done|].
  unfold mergedNames. cbn [flat_map]. rewrite in_app_iff.
  intros [Hin|Hin]; [|by apply IH].
  change (MergeServerCommands r (sc :: cmds))
    with (MergeServerCommands (fold_left mergeOne (Subcommands sc) (mergeOne r sc)) cmds).
  assert (Hhere : exists i,
    index (fold_left mergeOne (Subcommands sc) (mergeOne r sc)) !! name = Some i).
  { destruct Hin as [<-|Hin]; [|by apply mergeAll_has].
    destruct (mergeOne_has r sc) as [i Hi]. exists i.
    generalize dependent (mergeOne r sc). generalize (Subcommands sc).
    induction l as [|s subs IHs]; intros r' Hr'; [done|].
    simpl. by apply IHs, mergeOne_index. }
  destruct Hhere as [i Hi]. exists i.
  apply (Merge_keeps (fun r => index r !! name = Some i)); [|done].
  intros r' sc'. apply mergeOne_index.
Qed.

Lemma Merge_only cmds : forall r name i,
  index (MergeServerCommands r cmds) !! name = Some i ->
  index r !! name = Some i \/ In name (mergedNames cmds).
Proof.
  assert (Hall : forall subs r name i,
    index (fold_left mergeOne subs r) !! name = Some i ->
    index r !! name = Some i \/ In name (map Name subs)).
  { induction subs as [|sc subs IH]; intros r name i H; [by left|].
    simpl in H. apply IH in H as [H|H]; [|right; by right].
    apply mergeOne_only in H as [H| ->]; [by left|right; by left]. }
  induction cmds as [|sc cmds IH]; intros r name i H; [by left|].
  change (MergeServerCommands r (sc :: cmds))
    with (MergeServerCommands (fold_left mergeOne (Subcommands sc) (mergeOne r sc)) cmds)
    in H.
  unfold mergedNames. cbn [flat_map]. rewrite in_app_iff.
  apply IH in H as [H|H]; [|right; by right].
  apply Hall in H as [H|H]; [|right; left; by right].
  apply mergeOne_only in H as [H| ->]; [by left|right; left; by left].
Qed.

(** What [Get] returns, read off the index. *)
Lemma Get_indexed ext r cmd :
  indexed r ->
  Get ext r cmd
  = Returned (i ← index r !! ToUpper (unicodeUpper ext) cmd; docs r !! Z.to_nat i).
Proof.
  intros Hr. unfold Get.
  destruct (index r !! ToUpper (unicodeUpper ext) cmd) as [i|] eqn:E; [|done].
  destruct (Hr _ _ E) as (Hi & doc & Hdoc & _). cbn.
  apply Z.leb_le in Hi. by rewrite Hi, Hdoc.
Qed.

(** The map of the dangerous names. *)
Lemma dangerous_lookup names : forall (m : gmap string bool) k,
  fold_left (fun m cmd => <[cmd := true]> m) names m !! k
  = if member k names then Some true else m !! k.
Proof.
  induction names as [|n names IH]; intros m k; [done|].
  cbn [fold_left member existsb]. rewrite IH.
  destruct (member k names) eqn:E.
  { unfold member in E. rewrite E. by rewrite orb_true_r. }
  unfold member in E. rewrite E, orb_false_r.
  destruct (String.eqb_spec k n) as [->|Hne].
  - by rewrite lookup_insert_eq.
  - by rewrite lookup_insert_ne by congruence.
Qed.

(** The loops of [GetCommands] and of [Search] keep the docs that
    match, in their order. *)
Lemma matches_filter {A} (f : CommandDoc -> A) prefix ds : forall acc,
  fold_left
    (fun matches doc =>
       if HasPrefix (Command doc) prefix then matches ++ [f doc] else matches)
    ds acc
  = acc ++ map f (List.filter (fun doc => HasPrefix (Command doc) prefix) ds).
Proof.
  induction ds as [|d ds IH]; intros acc; cbn [fold_left List.filter].
  { by rewrite List.app_nil_r. }
  rewrite IH. destruct (HasPrefix (Command d) prefix); [|done].
  cbn [map]. by rewrite <- List.app_assoc.
Qed.

(** The hint names [n] arguments. *)
Lemma wrap_small z : MinInt <= z <= MaxInt -> wrap z = z.
Proof.
  unfold wrap, MinInt, MaxInt. intros H.
  rewrite Z.mod_small by lia. lia.
Qed.

(** A doc that [Get] finds is found after a merge step, and after any
    number of them. *)
Lemma Get_found ext r name doc :
  Get ext r name = Returned (Some doc) <->
  exists i,
    index r !! ToUpper (unicodeUpper ext) name = Some i /\ 0 <= i /\
    docs r !! Z.to_nat i = Some doc.
Proof.
  unfold Get. split.
  - destruct (index r !! ToUpper (unicodeUpper ext) name) as [i|]; [|done].
    destruct (0 <=? i) eqn:Hi; [|done]. apply Z.leb_le in Hi.
    destruct (docs r !! Z.to_nat i) as [d|] eqn:Hd; [|done].
    intros [= ->]. by exists i.
  - intros (i & -> & Hi%Z.leb_le & Hd). by rewrite Hi, Hd.
Qed.

Lemma Get_kept_step ext r sc name doc :
  Get ext r name = Returned (Some doc) ->
  Get ext (mergeOne r sc) name = Returned (Some doc).
Proof.
  rewrite !Get_found. intros (i & Hi & ? & Hd). exists i.
  split; [by apply mergeOne_index|]. split; [done|by apply mergeOne_docs].
Qed.

Lemma Get_kept_all ext subs name doc : forall r,
  Get ext r name = Returned (Some doc) ->
  Get ext (fold_left mergeOne subs r) name = Returned (Some doc).
Proof.
  induction subs as [|sc subs IH]; intros r H; [done|].
  simpl. by apply IH, Get_kept_step.
Qed.

Lemma Get_kept ext cmds r name doc :
  Get ext r name = Returned (Some doc) ->
  Get ext (MergeServerCommands r cmds) name = Returned (Some doc).
Proof.
  apply (Merge_keeps (fun r' => Get ext r' name = Returned (Some doc))).
  intros r' sc. apply Get_kept_step.
Qed.

Lemma Merge_app r before after :
  MergeServerCommands r (before ++ after)
  = MergeServerCommands (MergeServerCommands r before) after.
Proof. unfold MergeServerCommands. by rewrite fold_left_app. Qed.

Lemma Merge_cons r sc cmds :
  MergeServerCommands r (sc :: cmds)
  = MergeServerCommands (fold_left mergeOne (Subcommands sc) (mergeOne r sc)) cmds.
Proof. reflexivity. Qed.

Lemma built_dangerous r :
  built r ->
  dangerous r = fold_left (fun m cmd => <[cmd := true]> m) dangerousList ∅.
Proof.
  induction 1 as [embedded r H|r cmds _ IH].
  - by injection H as <-.
  - rewrite <- IH.
    apply (Merge_keeps (fun r' => dangerous r' = dangerous r)); [|done].
    intros r' sc <-. apply mergeOne_dangerous.
Qed.

(** The names of the arguments are plain words. *)
Lemma argNames_plain n : forallb plainWord (argNames n) = true.
Proof.
  unfold argNames. generalize 0%nat.
  induction (Z.to_nat n) as [|k IH]; intros start; [done|].
  cbn [seq map forallb]. rewrite IH, andb_true_r.
  pose proof (ServedFacts.plainWord_Itoa (Z.of_nat start + 1) ltac:(lia)) as H.
  apply plainWord_spec in H as (_ & Hall & _).
  unfold plainWord. cbn [String.append String.eqb negb andb allBytes].
  by rewrite Hall.
Qed.

Lemma length_argNames n : length (argNames n) = Z.to_nat n.
Proof. unfold argNames. by rewrite List.length_map, List.length_seq. Qed.

(** What the two loops of [primaryACLGroup] return. *)
Lemma HasPrefix_at cat : HasPrefix cat "@" = true -> cat = "@" +:+ drop 1 cat.
Proof.
  destruct cat as [|c cat]; [done|]. cbn [HasPrefix].
  intros [->%Ascii.eqb_eq _]%andb_true_iff. done.
Qed.

Lemma domainGroup_cons cat cats :
  domainGroup (cat :: cats)
  = if negb (member cat skip) && HasPrefix cat "@" then Some (drop 1 cat)
    else domainGroup cats.
Proof. reflexivity. Qed.

Lemma domainGroup_spec cats : forall g,
  domainGroup cats = Some g ->
  In ("@" +:+ g) cats /\ member ("@" +:+ g) skip = false.
Proof.
  induction cats as [|cat cats IH]; intros g; [done|]. rewrite domainGroup_cons.
  destruct (negb (member cat skip) && HasPrefix cat "@") eqn:E.
  - apply andb_true_iff in E as [Hs%negb_true_iff Hp%HasPrefix_at].
    intros H. assert (g = drop 1 cat) as -> by congruence.
    rewrite <- Hp. split; [by left|done].
  - intros H. destruct (IH _ H). split; [by right|done].
Qed.

Lemma domainGroup_none cats cat :
  domainGroup cats = None -> In cat cats ->
  member cat skip = true \/ HasPrefix cat "@" = false.
Proof.
  induction cats as [|c cats IH]; [done|]. rewrite domainGroup_cons.
  destruct (negb (member c skip) && HasPrefix c "@") eqn:E; [done|].
  intros H [->|Hin]; [|by apply IH].
  apply andb_false_iff in E as [E|E]; [left; by apply negb_false_iff|by right].
Qed.

Lemma fallbackGroup_spec cats g :
  fallbackGroup cats = Some g ->
  In ("@" +:+ g) cats /\ In g ["connection"; "pubsub"; "admin"].
Proof.
  induction cats as [|cat cats IH]; [done|]. cbn [fallbackGroup].
  destruct (String.eqb_spec cat "@connection") as [->|_].
  { intros [= <-]. split; [by left|by left]. }
  destruct (String.eqb_spec cat "@pubsub") as [->|_].
  { intros [= <-]. split; [by left|right; by left]. }
  destruct (String.eqb_spec cat "@admin") as [->|_].
  { intros [= <-]. split; [by left|right; right; by left]. }
  cbn [orb]. intros H. destruct (IH H). split; [by right|done].
Qed.

End RegistryFacts.

Import Go strconv resp strings command conn mock registry.
Import StringFacts StrconvFacts CommandFacts RegistryFacts.

(** X10.  [Get] never takes a doc from a position that is not there: on
    the registry [NewRegistry] builds, and after any number of merges
    of server commands, [Get] returns for every name, without a panic
    on the slice of docs, and a doc it returns bears the name asked
    for, in upper case. *)
Theorem Get_never_panics (ext : Extern) (r : Registry) (cmd : string) :
  built r ->
  exists found,
    Get ext r cmd = Returned found /\
    forall doc, found = Some doc -> Command doc = ToUpper (unicodeUpper ext) cmd.
Proof.
  intros Hr%built_indexed. rewrite Get_indexed by done.
  eexists. split; [done|]. intros doc H.
  destruct (index r !! ToUpper (unicodeUpper ext) cmd) as [i|] eqn:E; [|done].
  destruct (Hr _ _ E) as (_ & d & Hd & Hc). cbn in H. congruence.
Qed.

Lemma Get_never_panics_witness :
  exists r,
    NewRegistry (inr [mkDoc "GET" "Get the value of a key" "key" "1.0.0" "string"])
    = inr r /\
    exists found,
      Get plainExtern
        (MergeServerCommands r [mkServerCommand "NEWCMD" (-2) ["@string"; "@read"] []])
        "newcmd"
      = Returned found /\
      forall doc, found = Some doc -> Command doc = ToUpper (fun s => s) "newcmd".
Proof.
  eexists. split; [reflexivity|].
  apply (Get_never_panics plainExtern). apply built_merge.
  by eapply built_new.
Defined.

(** X11.  A merge of server commands changes nothing that was known:
    a doc that [Get] found before the merge is the doc it finds after
    it, and the answer of [IsDangerous] is the same for every name. *)
Theorem MergeServerCommands_keeps
    (ext : Extern) (r : Registry) (cmds : list ServerCommand)
    (name : string) (doc : CommandDoc) :
  Get ext r name = Returned (Some doc) ->
  Get ext (MergeServerCommands r cmds) name = Returned (Some doc) /\
  forall cmd,
    IsDangerous ext (MergeServerCommands r cmds) cmd = IsDangerous ext r cmd.
Proof.
  intros H. split; [by apply Get_kept|].
  intros cmd. unfold IsDangerous.
  assert (dangerous (MergeServerCommands r cmds) = dangerous r) as ->; [|done].
  apply (Merge_keeps (fun r' => dangerous r' = dangerous r)); [|done].
  intros r' sc <-. apply mergeOne_dangerous.
Qed.

Lemma MergeServerCommands_keeps_witness :
  exists r,
    NewRegistry (inr [mkDoc "GET" "Get the value of a key" "key" "1.0.0" "string"])
    = inr r /\
    Get plainExtern r "get"
    = Returned (Some (mkDoc "GET" "Get the value of a key" "key" "1.0.0" "string")) /\
    Get plainExtern
      (MergeServerCommands r [mkServerCommand "GET" 2 ["@string"; "@read"; "@fast"] []])
      "get"
    = Returned (Some (mkDoc "GET" "Get the value of a key" "key" "1.0.0" "string")).
Proof.
  eexists. split; [reflexivity|]. split; [by vm_compute|].
  apply (MergeServerCommands_keeps plainExtern). by vm_compute.
Defined.

(** X12.  A merge makes the commands of the server known: on a registry
    of a run, a command of the list whose name is in upper case and was
    not known when its turn came is found afterwards by a doc of that
    name, with the hint of its arity as arguments and the group of its
    ACL categories; and every command of the list and every direct
    subcommand whose name is in upper case is found by a doc of its
    name. *)
Theorem MergeServerCommands_adds
    (ext : Extern) (r : Registry) (before after : list ServerCommand)
    (sc : ServerCommand) (name : string) :
  built r ->
  (ToUpper (unicodeUpper ext) (Name sc) = Name sc ->
   Get ext (MergeServerCommands r before) (Name sc) = Returned None ->
   Get ext (MergeServerCommands r (before ++ sc :: after)) (Name sc)
   = Returned (Some (mkDoc (Name sc) "" (arityHint (Arity sc)) ""
                       (primaryACLGroup (ACLCats sc))))) /\
  (ToUpper (unicodeUpper ext) name = name ->
   In name (mergedNames (before ++ sc :: after)) ->
   exists doc,
     Get ext (MergeServerCommands r (before ++ sc :: after)) name
     = Returned (Some doc) /\ Command doc = name).
Proof.
  intros Hr%built_indexed. split.
  - intros Hup Hnone. rewrite Merge_app, Merge_cons.
    set (r1 := MergeServerCommands r before) in *.
    assert (Hr1 : indexed r1) by (by apply Merge_indexed).
    rewrite Get_indexed, Hup in Hnone by done.
    assert (Hfresh : index r1 !! Name sc = None).
    { destruct (index r1 !! Name sc) as [i|] eqn:E; [|done].
      destruct (Hr1 _ _ E) as (_ & d & Hd & _). cbn in Hnone. congruence. }
    apply Get_kept, Get_kept_all.
    rewrite Get_indexed, Hup by (by apply mergeOne_indexed).
    unfold mergeOne. rewrite Hfresh. cbn [index docs].
    rewrite lookup_insert_eq. cbn. rewrite Nat2Z.id.
    f_equal. by apply list_lookup_middle.
  - intros Hup Hin.
    destruct (Merge_has (before ++ sc :: after) r name Hin) as [i Hi].
    assert (Hr' : indexed (MergeServerCommands r (before ++ sc :: after)))
      by (by apply Merge_indexed).
    destruct (Hr' _ _ Hi) as (_ & doc & Hdoc & Hc).
    exists doc. split; [|done].
    rewrite Get_indexed, Hup, Hi by done. cbn. by rewrite Hdoc.
Qed.

Lemma MergeServerCommands_adds_witness :
  exists r,
    NewRegistry (inr [mkDoc "GET" "Get the value of a key" "key" "1.0.0" "string"])
    = inr r /\
    Get plainExtern
      (MergeServerCommands r
         ([] ++ mkServerCommand "NEWCMD" (-2) ["@string"; "@read"]
                  [mkServerCommand "NEWCMD CHILD" 3 [] []] :: []))
      "NEWCMD"
    = Returned (Some (mkDoc "NEWCMD" "" "arg1 [arg ...]" "" "string")) /\
    exists doc,
      Get plainExtern
        (MergeServerCommands r
           ([] ++ mkServerCommand "NEWCMD" (-2) ["@string"; "@read"]
                    [mkServerCommand "NEWCMD CHILD" 3 [] []] :: []))
        "NEWCMD CHILD"
      = Returned (Some doc) /\ Command doc = "NEWCMD CHILD".
Proof.
  eexists. split; [reflexivity|].
  set (sc := mkServerCommand "NEWCMD" (-2) ["@string"; "@read"]
               [mkServerCommand "NEWCMD CHILD" 3 [] []]).
  pose proof (fun r Hr =>
    MergeServerCommands_adds plainExtern r [] [] sc "NEWCMD CHILD" Hr) as H.
  match goal with |- Get _ (MergeServerCommands ?r _) _ = _ /\ _ =>
    destruct (H r (built_new _ _ eq_refl)) as [H1 H2] end.
  split.
  - apply H1; by vm_compute.
  - apply H2; [by vm_compute|]. right. by left.
Defined.

(** X13.  A merge adds nothing but the commands of the list and their
    direct subcommands: on a registry of a run, a doc that [Get] finds
    after the merge was found before it, or the name asked for is, in
    upper case, the name of a command of the list or of one of its
    direct subcommands.  The subcommands of a subcommand are not
    merged. *)
Theorem MergeServerCommands_only_listed
    (ext : Extern) (r : Registry) (cmds : list ServerCommand)
    (name : string) (doc : CommandDoc) :
  built r ->
  Get ext (MergeServerCommands r cmds) name = Returned (Some doc) ->
  Get ext r name = Returned (Some doc) \/
  In (ToUpper (unicodeUpper ext) name) (mergedNames cmds).
Proof.
  intros Hr%built_indexed H.
  pose proof H as H'. apply Get_found in H' as (i & Hi & Hpos & Hdoc).
  apply Merge_only in Hi as [Hi|Hin]; [left|by right].
  destruct (Hr _ _ Hi) as (_ & d & Hd & _).
  assert (Hget : Get ext r name = Returned (Some d)).
  { apply Get_found. by exists i. }
  pose proof (Get_kept ext cmds r name d Hget) as Hget'. congruence.
Qed.

Lemma MergeServerCommands_only_listed_witness :
  exists r,
    NewRegistry (inr []) = inr r /\
    Get plainExtern
      (MergeServerCommands r
         [mkServerCommand "A" 1 []
            [mkServerCommand "A B" 1 [] [mkServerCommand "A B C" 1 [] []]]])
      "a b"
    = Returned (Some (mkDoc "A B" "" "" "" "")) /\
    (Get plainExtern r "a b" = Returned (Some (mkDoc "A B" "" "" "" "")) \/
     In (ToUpper (fun s => s) "a b")
       (mergedNames
          [mkServerCommand "A" 1 []
             [mkServerCommand "A B" 1 [] [mkServerCommand "A B C" 1 [] []]]])).
Proof.
  eexists. split; [reflexivity|]. split; [by vm_compute|].
  apply (MergeServerCommands_only_listed plainExtern).
  - by eapply built_new.
  - by vm_compute.
Defined.

(** X14.  The dangerous commands are the fourteen names of the list and
    stay so: on every registry of a run, whatever has been merged into
    it, [IsDangerous] tells for a name whether its upper case is one of
    them, so that no command of a server is made dangerous and none of
    the list is made safe. *)
Theorem IsDangerous_fixed (ext : Extern) (r : Registry) (cmd : string) :
  built r ->
  IsDangerous ext r cmd = member (ToUpper (unicodeUpper ext) cmd) dangerousList.
Proof.
  intros Hr. unfold IsDangerous.
  rewrite (built_dangerous r Hr), dangerous_lookup.
  destruct (member _ dangerousList); [done|]. by rewrite lookup_empty.
Qed.

Lemma IsDangerous_fixed_witness :
  exists r,
    NewRegistry (inr []) = inr r /\
    IsDangerous plainExtern
      (MergeServerCommands r [mkServerCommand "EVIL" 1 ["@dangerous"] []]) "flushall"
    = true /\
    IsDangerous plainExtern
      (MergeServerCommands r [mkServerCommand "EVIL" 1 ["@dangerous"] []]) "EVIL"
    = false.
Proof.
  eexists. split; [reflexivity|]. split.
  - rewrite IsDangerous_fixed; [reflexivity|].
    apply built_merge. by eapply built_new.
  - rewrite IsDangerous_fixed; [reflexivity|].
    apply built_merge. by eapply built_new.
Defined.

(** X15.  Completion and search agree: the names [GetCommands] returns
    for a prefix are the names of the docs [Search] returns for it, and
    these are the docs of the registry whose name starts with the
    prefix in upper case, each as often as it is there and in the order
    of the registry. *)
Theorem GetCommands_Search (ext : Extern) (r : Registry) (prefix : string) :
  GetCommands ext r prefix = map Command (Search ext r prefix) /\
  Search ext r prefix
  = List.filter
      (fun doc => HasPrefix (Command doc) (ToUpper (unicodeUpper ext) prefix))
      (docs r).
Proof.
  unfold GetCommands, Search.
  rewrite (matches_filter Command), (matches_filter (fun doc => doc)).
  cbn [app]. by rewrite List.map_id.
Qed.

(** X16.  What a merge adds is offered by the completion: on a registry
    of a run, the name of every command of the list and of every direct
    subcommand is among the names [GetCommands] returns for a prefix
    whose upper case it starts with. *)
Theorem merged_commands_complete
    (ext : Extern) (r : Registry) (cmds : list ServerCommand)
    (name prefix : string) :
  built r ->
  In name (mergedNames cmds) ->
  HasPrefix name (ToUpper (unicodeUpper ext) prefix) = true ->
  In name (GetCommands ext (MergeServerCommands r cmds) prefix).
Proof.
  intros Hr%built_indexed Hin Hp.
  destruct (Merge_has cmds r name Hin) as [i Hi].
  destruct (Merge_indexed cmds r Hr _ _ Hi) as (_ & doc & Hdoc & <-).
  unfold GetCommands. rewrite (matches_filter Command). cbn [app].
  apply in_map, filter_In. split; [|done].
  by eapply list_elem_of_In, list_elem_of_lookup_2.
Qed.

Lemma merged_commands_complete_witness :
  exists r,
    NewRegistry (inr []) = inr r /\
    In "ZZZTESTCMD"
      (GetCommands plainExtern
         (MergeServerCommands r [mkServerCommand "ZZZTESTCMD" 2 [] []]) "zzztest").
Proof.
  eexists. split; [reflexivity|].
  apply (merged_commands_complete plainExtern).
  - by eapply built_new.
  - by left.
  - reflexivity.
Defined.



(** X18.  The group [primaryACLGroup] picks is a category of the list
    without its [@], or the empty group; it is none of the meta
    categories [read], [write], [fast], [slow], [dangerous] and
    [keyspace]; and [admin] is picked only when the list holds no
    category with an [@] besides the meta categories. *)
Theorem primaryACLGroup_domain (cats : list string) :
  (primaryACLGroup cats = "" \/ In ("@" +:+ primaryACLGroup cats) cats) /\
  ~ In (primaryACLGroup cats)
      ["read"; "write"; "fast"; "slow"; "dangerous"; "keyspace"] /\
  (primaryACLGroup cats = "admin" ->
   forall cat, In cat cats -> member cat skip = true \/ HasPrefix cat "@" = false).
Proof.
  unfold primaryACLGroup.
  destruct (domainGroup cats) as [g|] eqn:Hd.
  - destruct (domainGroup_spec cats g Hd) as [Hin Hskip].
    split; [by right|]. split.
    + intros H. simpl in H.
      destruct H as [<-|[<-|[<-|[<-|[<-|[<-|[]]]]]]]; by vm_compute in Hskip.
    + intros ->. by vm_compute in Hskip.
  - destruct (fallbackGroup cats) as [g|] eqn:Hf; cbn [default].
    + destruct (fallbackGroup_spec cats g Hf) as [Hin Hg].
      split; [by right|]. split.
      * intros H. simpl in Hg, H.
        destruct Hg as [<-|[<-|[<-|[]]]];
          destruct H as [H|[H|[H|[H|[H|[H|[]]]]]]]; discriminate.
      * intros _ cat. by apply domainGroup_none.
    + split; [by left|]. split; [|done].
      simpl. intros [H|[H|[H|[H|[H|[H|[]]]]]]]; discriminate.
Qed.

(* ================================================================== *)
(** * Part VII: the connection, the server information, the key value *)
(* ================================================================== *)

Module ClientFacts.
Import Go strconv utf8 unicode strings resp command conn mock wire.
Import registry info keyvalue shapes.
Import StringFacts StrconvFacts CommandFacts IterFacts TokenFacts ParseFacts.

(** The command of one capital word. *)
Lemma Parse_word ext verb :
  capitals verb = true ->
  Parse ext verb None
  = inr (mkParsed verb verb [] (SendRaw_bytes [verb]) "" "" None).
Proof.
  intros Hv. destruct (capitals_spec verb Hv) as (Hne & Hall & Hascii & Hup & _).
  assert (Hw : plainWord verb = true).
  { unfold plainWord. rewrite Hall, andb_true_r.
    by apply negb_true_iff, String.eqb_neq. }
  pose proof (Parse_plain ext verb [] Hw eq_refl) as H. cbn [joinWords] in H.
  rewrite H. unfold ToUpper. by rewrite Hascii, Hup.
Qed.

(** [getServerInfo] against the scripted peer. *)
Lemma getServerInfo_bulk ext c value n rest wr cl :
  getServerInfo ext c (mkScripted (Reply (RedisBulkString value n) :: rest) wr cl)
  = Returned (None,
              mkConnection (Host c) (Port c) (fold_left infoLine (Split value CRLF) ∅),
              mkScripted rest (wr ++ [SendRaw_bytes ["INFO"]]) cl).
Proof.
  unfold getServerInfo. rewrite (Parse_word ext "INFO") by done.
  rewrite Send_scripted. cbn [script written closed CommandBytes].
  rewrite Receive_scripted by done. done.
Qed.

Lemma getServerInfo_fail ext c ex rest wr cl :
  failing bulkShape ex = true ->
  exists err,
    getServerInfo ext c (mkScripted (ex :: rest) wr cl)
    = Returned (Some err, c, mkScripted rest (wr ++ [SendRaw_bytes ["INFO"]]) cl).
Proof.
  intros Hex. unfold getServerInfo. rewrite (Parse_word ext "INFO") by done.
  rewrite Send_scripted. cbn [script written closed CommandBytes].
  destruct ex as [err|err|v|]; [| | |done]; cbn [script written closed].
  - by eexists.
  - rewrite Receive_scripted by done. cbn [script written closed]. by eexists.
  - rewrite Receive_scripted by done. cbn [script written closed].
    destruct v; try done; by eexists.
Qed.

(** *** The lines of the INFO reply *)

Lemma concat_cons x xs : String.concat "" (x :: xs) = x +:+ String.concat "" xs.
Proof. destruct xs; cbn [String.concat]; [by rewrite app_nil_r|done]. Qed.

(** [Split] gives back a line that holds no CR and goes on behind its
    CR LF. *)
Lemma Split_line line : forall rest cur,
  allBytes (fun c => negb (Ascii.eqb c CR)) line = true ->
  Split_from (line +:+ CRLF +:+ rest) CRLF 0 cur
  = (cur +:+ line) :: Split_from rest CRLF 0 "".
Proof.
  induction line as [|c line IH]; intros rest cur Hl.
  { rewrite app_nil_r.
    change ("" +:+ CRLF +:+ rest) with (String CR (String LF rest)).
    cbn [Split_from].
    change (String CR (String LF rest)) with (CRLF +:+ rest).
    by rewrite HasPrefix_app. }
  simpl in Hl. apply andb_true_iff in Hl as [Hc Hl].
  change (String c line +:+ CRLF +:+ rest) with (String c (line +:+ CRLF +:+ rest)).
  cbn [Split_from HasPrefix CRLF].
  apply negb_true_iff in Hc. rewrite Ascii.eqb_sym in Hc. rewrite Hc. cbn [andb].
  rewrite IH by done. by rewrite app_assoc.
Qed.

Lemma Split_lines ls : forall rest,
  Forall (fun l => allBytes (fun c => negb (Ascii.eqb c CR)) l = true) ls ->
  Split_from (String.concat "" (map (fun l => l +:+ CRLF) ls) +:+ rest) CRLF 0 ""
  = ls ++ Split_from rest CRLF 0 "".
Proof.
  induction ls as [|l ls IH]; intros rest Hls; [done|].
  inversion Hls as [|? ? Hl Hls']; subst.
  cbn [map]. rewrite concat_cons, !app_assoc.
  rewrite Split_line by done. cbn [String.append app]. by rewrite IH.
Qed.

(** The three kinds of line. *)
Lemma infoLine_blank info : infoLine info "" = info.
Proof. reflexivity. Qed.

Lemma printable_spec c :
  printable c = true -> 32 <= byteval c <= 126.
Proof. unfold printable. intros [?%Z.leb_le ?%Z.leb_le]%andb_true_iff. lia. Qed.

Lemma infoLine_title info title : infoLine info ("# " +:+ title) = info.
Proof.
  unfold infoLine. change ("# " +:+ title) with (String "#" (String " " title)).
  destruct (TrimSpace_head "#" (String " " title)) as [t ->]; [by vm_compute..|].
  change (String "#" t) with ("#" +:+ t) at 2.
  by rewrite HasPrefix_app, orb_true_r.
Qed.

Lemma infoKeyByte_spec c :
  infoKeyByte c = true ->
  graphic c = true /\ Ascii.eqb c ":" = false /\ Ascii.eqb c "#" = false.
Proof.
  unfold infoKeyByte.
  intros [[Hg H1%negb_true_iff]%andb_true_iff H2%negb_true_iff]%andb_true_iff.
  apply Z.eqb_neq in H1, H2. split; [done|].
  split; apply Ascii.eqb_neq; intros ->; by vm_compute in H1, H2.
Qed.

Lemma Index_colon k v : forall j,
  allBytes infoKeyByte k = true ->
  Index_from j (k +:+ ":" +:+ v) ":" = j + len k.
Proof.
  induction k as [|c k IH]; intros j Hk.
  { change ("" +:+ ":" +:+ v) with (String ":" v). cbn [Index_from].
    change (String ":" v) with (":" +:+ v). rewrite HasPrefix_app.
    unfold len. simpl. lia. }
  simpl in Hk. apply andb_true_iff in Hk as [Hc Hk].
  apply infoKeyByte_spec in Hc as (_ & Hc & _).
  change (String c k +:+ ":" +:+ v) with (String c (k +:+ ":" +:+ v)).
  cbn [Index_from HasPrefix]. rewrite Ascii.eqb_sym in Hc. rewrite Hc. cbn [andb].
  rewrite IH by done. unfold len. simpl String.length. lia.
Qed.

Lemma infoLine_entry info k v :
  allBytes infoKeyByte k = true -> allBytes graphic v = true ->
  infoLine info (k +:+ ":" +:+ v) = <[k := v]> info.
Proof.
  intros Hk Hv. unfold infoLine.
  assert (Hg : allBytes graphic (k +:+ ":" +:+ v) = true).
  { assert (Hkg : allBytes graphic k = true).
    { eapply allBytes_impl; [|exact Hk]. intros c Hc.
      by apply infoKeyByte_spec in Hc as (Hg & _). }
    by rewrite !allBytes_app, Hv, Hkg. }
  rewrite TrimSpace_graphic by done.
  assert (String.eqb (k +:+ ":" +:+ v) "" = false) as ->.
  { by destruct k. }
  assert (HasPrefix (k +:+ ":" +:+ v) "#" = false) as ->.
  { destruct k as [|c k]; [done|]. simpl in Hk.
    apply andb_true_iff in Hk as [Hc _]. apply infoKeyByte_spec in Hc as (_ & _ & Hc).
    change (String c k +:+ ":" +:+ v) with (String c (k +:+ ":" +:+ v)).
    cbn [HasPrefix]. rewrite Ascii.eqb_sym in Hc. by rewrite Hc. }
  cbn [orb]. unfold Index. rewrite Index_colon by done. rewrite Z.add_0_l.
  pose proof (len_nonneg k).
  destruct (len k =? -1) eqn:E; [apply Z.eqb_eq in E; lia|].
  rewrite to_nat_len, take_app.
  replace (Z.to_nat (len k + 1)) with (String.length (k +:+ ":")).
  2:{ rewrite length_app. unfold len. simpl. lia. }
  by rewrite <- app_assoc, drop_app.
Qed.

(** Entries that are put one after the other: the last one of a key
    stays. *)
Lemma fold_entries (kvs : list (string * string)) : forall pre,
  Forall (fun kv => infoEntry kv = true) kvs ->
  fold_left infoLine (map (fun kv => fst kv +:+ ":" +:+ snd kv) kvs)
    (list_to_map (rev pre))
  = (list_to_map (rev (pre ++ kvs)) : gmap string string).
Proof.
  induction kvs as [|[k v] kvs IH]; intros pre Hkvs.
  { by rewrite List.app_nil_r. }
  inversion Hkvs as [|? ? Hkv Hkvs']; subst.
  unfold infoEntry in Hkv. cbn [fst snd] in Hkv.
  apply andb_true_iff in Hkv as [Hk Hv].
  cbn [map fold_left fst snd]. rewrite infoLine_entry by done.
  replace (<[k:=v]> (list_to_map (rev pre)) : gmap string string)
    with (list_to_map (rev (pre ++ [(k, v)])) : gmap string string).
  2:{ rewrite rev_app_distr. reflexivity. }
  rewrite IH by done. by rewrite <- List.app_assoc.
Qed.

Lemma fold_sections (secs : list (string * list (string * string))) : forall pre,
  forallb infoShape secs = true ->
  fold_left infoLine
    (flat_map
       (fun sec =>
          ("# " +:+ fst sec)
            :: map (fun kv => fst kv +:+ ":" +:+ snd kv) (snd sec) ++ [""])
       secs)
    (list_to_map (rev pre))
  = (list_to_map (rev (pre ++ flat_map snd secs)) : gmap string string).
Proof.
  induction secs as [|[title kvs] secs IH]; intros pre Hsecs.
  { cbn. by rewrite List.app_nil_r. }
  cbn [forallb] in Hsecs. apply andb_true_iff in Hsecs as [Hsec Hsecs].
  unfold infoShape in Hsec. cbn [fst snd] in Hsec.
  apply andb_true_iff in Hsec as [Ht Hkvs].
  cbn [flat_map fst snd]. rewrite fold_left_app. cbn [fold_left].
  rewrite infoLine_title, fold_left_app, fold_entries.
  2:{ apply List.Forall_forall. intros kv Hin.
      by apply (proj1 (forallb_forall _ _) Hkvs). }
  cbn [fold_left]. rewrite infoLine_blank, IH by done.
  by rewrite <- List.app_assoc.
Qed.

Lemma graphic_no_CR c : graphic c = true -> negb (Ascii.eqb c CR) = true.
Proof.
  intros H. apply negb_true_iff, Ascii.eqb_neq. intros ->. by vm_compute in H.
Qed.

Lemma concat_app xs : forall ys,
  String.concat "" (xs ++ ys) = String.concat "" xs +:+ String.concat "" ys.
Proof.
  induction xs as [|x xs IH]; intros ys; [done|].
  cbn [app]. by rewrite !concat_cons, IH, app_assoc.
Qed.

Lemma infoSection_lines title kvs :
  infoSection (title, kvs)
  = String.concat ""
      (map (fun l => l +:+ CRLF)
         (("# " +:+ title)
            :: map (fun kv => fst kv +:+ ":" +:+ snd kv) kvs ++ [""])).
Proof.
  unfold infoSection. cbn [map fst snd].
  rewrite concat_cons, List.map_app, concat_app. cbn [map].
  rewrite concat_cons. cbn [String.concat].
  rewrite List.map_map, !app_assoc, app_nil_r.
  do 3 f_equal.
  change ("" +:+ CRLF) with CRLF. f_equal. f_equal.
  apply map_ext. intros [k v]. unfold infoLineOf. cbn [fst snd].
  by rewrite !app_assoc.
Qed.

Lemma infoText_lines secs :
  forallb infoShape secs = true ->
  Split (infoText secs) CRLF
  = flat_map
      (fun sec =>
         ("# " +:+ fst sec)
           :: map (fun kv => fst kv +:+ ":" +:+ snd kv) (snd sec) ++ [""])
      secs ++ [""].
Proof.
  intros Hsecs. unfold Split.
  set (lines := flat_map _ secs).
  assert (Htext : infoText secs = String.concat "" (map (fun l => l +:+ CRLF) lines)).
  { subst lines. clear Hsecs. unfold infoText.
    induction secs as [|[title kvs] secs IH]; [done|].
    cbn [map flat_map fst snd].
    rewrite concat_cons, IH, List.map_app, concat_app.
    by rewrite infoSection_lines. }
  rewrite Htext, <- (app_nil_r (String.concat "" _)).
  rewrite Split_lines; [done|].
  subst lines. apply List.Forall_forall. intros l Hl.
  apply in_flat_map in Hl as ([title kvs] & Hsec & Hl).
  pose proof (proj1 (forallb_forall _ _) Hsecs _ Hsec) as Hshape.
  unfold infoShape in Hshape. cbn [fst snd] in *.
  apply andb_true_iff in Hshape as [Ht Hkvs].
  destruct Hl as [<-|Hl].
  - change ("# " +:+ title) with (String "#" (String " " title)).
    cbn [allBytes]. eapply allBytes_impl in Ht; [by rewrite Ht|].
    intros c Hc. apply negb_true_iff, Ascii.eqb_neq. intros ->.
    by vm_compute in Hc.
  - apply in_app_iff in Hl as [Hl|[<-|[]]]; [|done].
    apply in_map_iff in Hl as ([k v] & <- & Hkv).
    pose proof (proj1 (forallb_forall _ _) Hkvs _ Hkv) as He.
    unfold infoEntry in He. cbn [fst snd] in *.
    apply andb_true_iff in He as [Hk Hv].
    rewrite !allBytes_app.
    apply andb_true_iff. split; [|apply andb_true_iff; split; [done|]].
    + eapply allBytes_impl; [|exact Hk]. intros c Hc.
      apply infoKeyByte_spec in Hc as (Hg & _). by apply graphic_no_CR.
    + eapply allBytes_impl; [|exact Hv]. apply graphic_no_CR.
Qed.

(** *** The commands of the server *)

Lemma parseCommandEntry_shape ext v :
  if entryShape v
  then exists sc, parseCommandEntry ext v = inr sc
  else exists e, parseCommandEntry ext v = inl e.
Proof.
  destruct v as [| | |values| |]; try (cbn; by eexists).
  destruct values as [|v0 [|v1 more]]; cbn; by eexists.
Qed.

Lemma parseEntries_filter ext entries :
  Forall2 (fun entry sc => parseCommandEntry ext entry = inr sc)
    (List.filter entryShape entries) (parseEntries ext entries).
Proof.
  induction entries as [|entry entries IH]; [constructor|].
  cbn [List.filter parseEntries].
  pose proof (parseCommandEntry_shape ext entry) as H.
  destruct (entryShape entry); destruct H as [x Hx]; rewrite Hx; [|done].
  by constructor.
Qed.

Lemma parseEntries_in ext entry sc entries :
  In entry entries -> parseCommandEntry ext entry = inr sc ->
  In sc (parseEntries ext entries).
Proof.
  intros Hin Hsc. induction entries as [|e entries IH]; [done|].
  cbn [parseEntries]. destruct Hin as [->|Hin].
  - rewrite Hsc. by left.
  - destruct (parseCommandEntry ext e); [|right]; by apply IH.
Qed.

Lemma FetchServerCommands_reply ext v rest wr cl :
  FetchServerCommands ext (mkScripted (Reply v :: rest) wr cl)
  = Returned
      (match v with
       | RedisError _ => inr []
       | RedisArray values => inr (parseEntries ext values)
       | response =>
           inl (mkError ("expected array for COMMAND, got " +:+ fmt_T response) false)
       end,
       mkScripted rest (wr ++ [SendRaw_bytes ["COMMAND"]]) cl).
Proof.
  unfold FetchServerCommands. rewrite (Parse_word ext "COMMAND") by done.
  rewrite Send_scripted. cbn [script written closed CommandBytes].
  rewrite Receive_scripted by done. cbn [script written closed].
  by destruct v.
Qed.

Lemma FetchServerCommands_fail ext ex rest wr cl :
  failing arrayShape ex = true ->
  exists res,
    FetchServerCommands ext (mkScripted (ex :: rest) wr cl)
    = Returned (res, mkScripted rest (wr ++ [SendRaw_bytes ["COMMAND"]]) cl) /\
    match res with inr cmds => cmds = [] | inl _ => True end.
Proof.
  intros Hex. destruct ex as [err|err|v|]; [| | |done].
  - unfold FetchServerCommands. rewrite (Parse_word ext "COMMAND") by done.
    rewrite Send_scripted. cbn [script written closed CommandBytes]. by eexists.
  - unfold FetchServerCommands. rewrite (Parse_word ext "COMMAND") by done.
    rewrite Send_scripted. cbn [script written closed CommandBytes].
    rewrite Receive_scripted by done. cbn [script written closed]. by eexists.
  - rewrite FetchServerCommands_reply. destruct v; try done; by eexists.
Qed.

End ClientFacts.

Import Go strconv resp utf8 unicode strings command conn mock wire.
Import registry info keyvalue shapes.
Import StringFacts StrconvFacts RespFacts CodecFacts CommandFacts IterFacts ServedFacts.
Import TokenFacts ParseFacts RegistryFacts ClientFacts.

(** X19.  Without a password [Connect] does not authenticate, a user
    name given or not: against a peer that answers a bulk string, the
    one request it writes is INFO, and the connection it returns holds
    the host, the port and the lines of that reply as the server
    information. *)
Theorem Connect_without_password
    (ext : Extern) (host port user value : string) (n : Z)
    (rest : list Exchange) :
  Connect ext host port user "" (play (Reply (RedisBulkString value n) :: rest))
  = Returned
      (inr (mkConnection host port (fold_left infoLine (Split value CRLF) ∅)),
       mkScripted rest [SendRaw_bytes ["INFO"]] false).
Proof.
  unfold Connect, play. cbn [net_Dial scripted String.eqb negb].
  by rewrite getServerInfo_bulk.
Qed.



(** X21.  What [getServerInfo] makes of the INFO reply: for a reply of
    sections, each a title line behind [#], lines [key:value] and a
    blank line, the server information holds for every key the value
    of its last line, the text behind the first colon as it is, colons
    included; the titles and the blank lines leave nothing. *)
Theorem ServerInfo_of_INFO
    (ext : Extern) (c : Connection)
    (secs : list (string * list (string * string))) (n : Z)
    (rest : list Exchange) :
  forallb infoShape secs = true ->
  getServerInfo ext c (play (Reply (RedisBulkString (infoText secs) n) :: rest))
  = Returned
      (None,
       mkConnection (Host c) (Port c) (list_to_map (rev (flat_map snd secs))),
       mkScripted rest [SendRaw_bytes ["INFO"]] false).
Proof.
  intros Hsecs. unfold play. rewrite getServerInfo_bulk.
  rewrite infoText_lines by done. rewrite fold_left_app. cbn [fold_left].
  rewrite infoLine_blank.
  pose proof (fold_sections secs [] Hsecs) as H. cbn [rev app] in H.
  change (list_to_map [] : gmap string string) with (∅ : gmap string string) in H.
  by rewrite H.
Qed.

Lemma ServerInfo_of_INFO_witness :
  forallb infoShape
    [("Server", [("redis_version", "7.0.0"); ("os", "Linux")]);
     ("Keyspace", [("db0", "keys=150,expires=0"); ("os", "x:y")])] = true /\
  exists c w,
    getServerInfo plainExtern (mkConnection "h" "p" ∅)
      (play [Reply (RedisBulkString
               (infoText
                  [("Server", [("redis_version", "7.0.0"); ("os", "Linux")]);
                   ("Keyspace", [("db0", "keys=150,expires=0"); ("os", "x:y")])])
               0)])
    = Returned (None, c, w) /\
    ServerInfo c !! "redis_version" = Some "7.0.0" /\
    ServerInfo c !! "os" = Some "x:y" /\
    ServerInfo c !! "db0" = Some "keys=150,expires=0".
Proof.
  split; [reflexivity|]. eexists _, _. split.
  - apply (ServerInfo_of_INFO plainExtern (mkConnection "h" "p" ∅)). reflexivity.
  - by vm_compute.
Defined.

(** X22.  [GetKeyValue] returns for every key, on every transport: the
    commands it builds from the key always parse, so that it never
    sends a command that is not there.  What it returns is one of
    three: an error and neither a value nor a sequence; the type
    [string] and the value alone; or the type of a collection, one of
    [list], [set], [zset], [hash] and [stream], and the sequence
    alone. *)
Theorem GetKeyValue_one_result
    {W : Type} {transport : Transport W} (ext : Extern) (key : string) (w : W) :
  exists kv w',
    GetKeyValue ext key w = Returned (kv, w') /\
    match err kv with
    | Some _ => single kv = None /\ collection kv = None
    | None =>
        (typeName kv = "string" /\ single kv <> None /\ collection kv = None) \/
        (In (typeName kv) ["list"; "set"; "zset"; "hash"; "stream"] /\
         single kv = None /\ collection kv <> None)
    end.
Proof.
  unfold GetKeyValue.
  destruct (Parse_verb ext "TYPE" key eq_refl ltac:(done)) as [typeCmd HT].
  destruct (Parse_verb ext "GET" key eq_refl ltac:(done)) as [getCmd HG].
  change ("TYPE" +:+ " " +:+ key) with ("TYPE " +:+ key) in HT.
  change ("GET" +:+ " " +:+ key) with ("GET " +:+ key) in HG.
  rewrite HT.
  destruct (Send typeCmd w) as [[e|] w1]; [by eexists _, _|].
  destruct (Receive _ w1) as [[e|v] w2]; [by eexists _, _|].
  destruct v as [t| | | | |]; try by eexists _, _.
  destruct (String.eqb t "string") eqn:E1.
  { rewrite HG.
    destruct (Send getCmd w2) as [[e|] w3]; [by eexists _, _|].
    destruct (Receive _ w3) as [[e|v] w4]; [by eexists _, _|].
    apply String.eqb_eq in E1 as ->.
    eexists _, _. split; [reflexivity|]. cbn. left. done. }
  destruct (String.eqb t "list") eqn:E2.
  { apply String.eqb_eq in E2 as ->.
    eexists _, _. split; [reflexivity|]. cbn. right. split; [tauto|done]. }
  destruct (String.eqb t "set") eqn:E3.
  { apply String.eqb_eq in E3 as ->.
    eexists _, _. split; [reflexivity|]. cbn. right. split; [tauto|done]. }
  destruct (String.eqb t "zset") eqn:E4.
  { apply String.eqb_eq in E4 as ->.
    eexists _, _. split; [reflexivity|]. cbn. right. split; [tauto|done]. }
  destruct (String.eqb t "hash") eqn:E5.
  { apply String.eqb_eq in E5 as ->.
    eexists _, _. split; [reflexivity|]. cbn. right. split; [tauto|done]. }
  destruct (String.eqb t "stream") eqn:E6.
  { apply String.eqb_eq in E6 as ->.
    eexists _, _. split; [reflexivity|]. cbn. right. split; [tauto|done]. }
  destruct (String.eqb t "none"); by eexists _, _.
Qed.

(** X23.  The key is not sent as one argument: [GetKeyValue] puts it
    into the text of a command, which is cut into words again.  For a
    key of plain words with one space between them, the requests TYPE
    and GET carry every word of the key as an argument of its own; and
    for the type [string] the reply to GET is the value returned,
    whatever it is, an error reply included. *)
Theorem GetKeyValue_string_key
    (ext : Extern) (word : string) (words : list string) (v : RedisValue)
    (rest : list Exchange) :
  forallb plainWord (word :: words) = true ->
  GetKeyValue ext (joinWords (word :: words))
    (play (Reply (RedisString "string") :: Reply v :: rest))
  = Returned
      (mkKeyValue "string" (Some v) None None,
       mkScripted rest
         [SendRaw_bytes ("TYPE" :: word :: words);
          SendRaw_bytes ("GET" :: word :: words)] false).
Proof.
  intros Hws. unfold GetKeyValue, play.
  change ("TYPE " +:+ joinWords (word :: words))
    with (joinWords ("TYPE" :: word :: words)).
  change ("GET " +:+ joinWords (word :: words))
    with (joinWords ("GET" :: word :: words)).
  rewrite (Parse_plain ext "TYPE" (word :: words)) by done.
  rewrite Send_scripted. cbn [script written closed CommandBytes].
  rewrite Receive_scripted by done. cbn [script written closed String.eqb Ascii.eqb].
  change (String.eqb "string" "string") with true. cbv iota.
  rewrite (Parse_plain ext "GET" (word :: words)) by done.
  rewrite Send_scripted. cbn [script written closed CommandBytes].
  rewrite Receive_scripted by done. done.
Qed.

Lemma GetKeyValue_string_key_witness :
  forallb plainWord ["my"; "key"] = true /\
  GetKeyValue plainExtern "my key"
    (play [Reply (RedisString "string"); Reply (RedisError "WRONGTYPE")])
  = Returned
      (mkKeyValue "string" (Some (RedisError "WRONGTYPE")) None None,
       mkScripted []
         [SendRaw_bytes ["TYPE"; "my"; "key"]; SendRaw_bytes ["GET"; "my"; "key"]]
         false).
Proof.
  split; [reflexivity|].
  exact (GetKeyValue_string_key plainExtern "my" ["key"] (RedisError "WRONGTYPE") []
           eq_refl).
Defined.

(** X24.  [FetchServerCommands] passes over the entries it cannot
    read: of the reply to COMMAND it returns one command for every
    entry that is an array of two elements or more, in the order of the
    reply, and nothing for the others; an error reply gives no command
    and no error. *)
Theorem FetchServerCommands_skips_malformed
    (ext : Extern) (entries : list RedisValue) (msg : string)
    (rest : list Exchange) :
  (exists cmds,
     FetchServerCommands ext (play (Reply (RedisArray entries) :: rest))
     = Returned (inr cmds, mkScripted rest [SendRaw_bytes ["COMMAND"]] false) /\
     Forall2 (fun entry sc => parseCommandEntry ext entry = inr sc)
       (List.filter entryShape entries) cmds) /\
  FetchServerCommands ext (play (Reply (RedisError msg) :: rest))
  = Returned (inr [], mkScripted rest [SendRaw_bytes ["COMMAND"]] false).
Proof.
  unfold play. rewrite !FetchServerCommands_reply. split; [|done].
  eexists. split; [reflexivity|]. apply parseEntries_filter.
Qed.

(** X25.  What the server lists becomes known to the registry: after
    [mergeServerCommands] on a registry of a run, against a peer that
    answers COMMAND with an array, every entry of two elements or more
    is found by [Get] under its name, written as the server writes it
    with a space for every bar, and the doc found bears this name in
    upper case.  A failure of the exchange, and an error reply, leave
    the registry as it was. *)
Theorem server_commands_known
    (ext : Extern) (r : Registry) (entries : list RedisValue)
    (v0 v1 : RedisValue) (more : list RedisValue) (rest : list Exchange) :
  built r ->
  In (RedisArray (v0 :: v1 :: more)) entries ->
  (exists r' doc,
     mergeServerCommands ext r (play (Reply (RedisArray entries) :: rest))
     = Returned (r', mkScripted rest [SendRaw_bytes ["COMMAND"]] false) /\
     built r' /\
     Get ext r' (ReplaceAll (StringValue v0) "|" " ") = Returned (Some doc) /\
     Command doc
     = ToUpper (unicodeUpper ext) (ReplaceAll (StringValue v0) "|" " ")) /\
  (forall ex, failing arrayShape ex = true ->
     mergeServerCommands ext r (play (ex :: rest))
     = Returned (r, mkScripted rest [SendRaw_bytes ["COMMAND"]] false)).
Proof.
  intros Hr Hin. split.
  - unfold mergeServerCommands, play. rewrite FetchServerCommands_reply.
    set (cmds := parseEntries ext entries).
    assert (Hsame : match cmds with [] => r | _ => MergeServerCommands r cmds end
                    = MergeServerCommands r cmds) by by destruct cmds.
    rewrite Hsame.
    set (name := ToUpper (unicodeUpper ext) (ReplaceAll (StringValue v0) "|" " ")).
    destruct (parseCommandEntry_shape ext (RedisArray (v0 :: v1 :: more)))
      as [sc Hsc].
    assert (Hname : Name sc = name).
    { cbn in Hsc. by injection Hsc as <-. }
    assert (Hmerged : In name (mergedNames cmds)).
    { unfold mergedNames. apply in_flat_map. exists sc.
      split; [by eapply parseEntries_in|]. left. done. }
    destruct (Merge_has cmds r name Hmerged) as [i Hi].
    assert (Hix : indexed (MergeServerCommands r cmds)).
    { by apply Merge_indexed, built_indexed. }
    destruct (Hix _ _ Hi) as (Hpos & doc & Hdoc & Hcmd).
    exists (MergeServerCommands r cmds), doc.
    split; [done|]. split; [by constructor|]. split; [|done].
    apply Get_found. exists i. done.
  - intros ex Hex. unfold mergeServerCommands, play.
    destruct (FetchServerCommands_fail ext ex rest [] false Hex) as (res & -> & Hres).
    destruct res as [e|cmds]; [done|]. by rewrite Hres.
Qed.

Lemma server_commands_known_witness :
  exists r,
    NewRegistry (inr [mkDoc "GET" "Get the value of a key" "key" "1.0.0" "string"])
    = inr r /\
    exists r' doc,
      mergeServerCommands plainExtern r
        (play [Reply (RedisArray
                 [RedisInteger 7;
                  RedisArray [RedisBulkString "config|get" 10; RedisInteger (-3)]])])
      = Returned (r', mkScripted [] [SendRaw_bytes ["COMMAND"]] false) /\
      built r' /\
      Get plainExtern r' "config get" = Returned (Some doc) /\
      Command doc = "CONFIG GET".
Proof.
  eexists. split; [reflexivity|].
  match goal with |- exists r' doc, mergeServerCommands _ ?r _ = _ /\ _ =>
    destruct (server_commands_known plainExtern r
                [RedisInteger 7;
                 RedisArray [RedisBulkString "config|get" 10; RedisInteger (-3)]]
                (RedisBulkString "config|get" 10) (RedisInteger (-3)) [] []
                (built_new _ _ eq_refl) ltac:(right; by left))
      as [(r' & doc & H) _] end.
  exists r', doc. exact H.
Defined.

(* ================================================================== *)
(** * Part VIII: paging under any consumer, the views and the export *)
(* ================================================================== *)

Module PagingFacts.
Import Go strconv utf8 unicode strings resp command conn mock wire.
Import registry info keyvalue views output shapes.
Import StringFacts StrconvFacts CommandFacts IterFacts ServedFacts.

(** *** The list of any length, served slice by slice *)
Section Served.
Variable ext : Extern.
Variable key : string.
Variable l : list RedisValue.
Hypothesis key_plain : plainWord key = true.
Hypothesis key_len : len key <= MaxInt.

(** From the window at [100 * i] on, [m] pages that hold elements and
    the empty one that ends the loop. *)
Lemma served_run m : forall (i : nat) reqs k,
  (length l <= 100 * (i + m))%nat ->
  (m = 0%nat \/ (100 * (i + m - 1) < length l)%nat) ->
  100 * Z.of_nat (i + m) <= MaxInt - 100 ->
  loop (listBody (transport := server (serveList key l)) ext collect key) (S m)
    (100 * Z.of_nat i, mkServed reqs [], k)
  = Returned
      (mkServed
         (reqs ++ map (fun j => lrangeBytes key (100 * Z.of_nat j)) (seq i (S m))) [],
       k ++ skipn (100 * i) l).
Proof.
  induction m as [|m IH]; intros i reqs k Hup Hlow Hmax.
  - erewrite loop_Return;
      [|rewrite (listBody_served ext key l key_plain key_len) by lia; cbv zeta;
        rewrite lrange_window by lia;
        rewrite (skipn_all2 l) by lia; reflexivity].
    rewrite (skipn_all2 l) by lia. by rewrite List.app_nil_r.
  - assert (Hpage : nonEmpty (lrange l (100 * Z.of_nat i) (100 * Z.of_nat i + 99)) = true).
    { rewrite lrange_window by lia. unfold nonEmpty.
      rewrite length_firstn, length_skipn.
      apply negb_true_iff, Z.eqb_neq. lia. }
    erewrite loop_Continue;
      [|rewrite (listBody_served ext key l key_plain key_len) by lia; cbv zeta;
        rewrite Hpage; reflexivity].
    replace (100 * Z.of_nat i + 100) with (100 * Z.of_nat (S i)) by lia.
    rewrite IH by lia.
    rewrite lrange_window by lia.
    replace (Z.to_nat (100 * Z.of_nat i)) with (100 * i)%nat by lia.
    f_equal. f_equal.
    + rewrite <- List.app_assoc. done.
    + rewrite <- List.app_assoc. f_equal.
      replace (100 * S i)%nat with (100 + 100 * i)%nat by lia.
      rewrite <- skipn_skipn. apply firstn_skipn.
Qed.

End Served.

(** *** The iterators under any consumer *)
Section Consumer.
Context {K : Type} (yield : RedisValue -> K -> bool * K).

Lemma yieldEach_app xs : forall ys k,
  yieldEach yield (xs ++ ys) k
  = let (more, k1) := yieldEach yield xs k in
    if more then yieldEach yield ys k1 else (false, k1).
Proof.
  induction xs as [|x xs IH]; intros ys k; cbn [app yieldEach].
  - by destruct (yieldEach yield ys k).
  - destruct (yield x k) as [[] k1]; [apply IH|done].
Qed.

(** A consumer that goes on through all of [xs ++ ys] goes on through
    [xs]. *)
Lemma yieldEach_app_true xs ys k k' :
  yieldEach yield (xs ++ ys) k = (true, k') ->
  exists k1, yieldEach yield xs k = (true, k1) /\ yieldEach yield ys k1 = (true, k').
Proof.
  rewrite yieldEach_app. destruct (yieldEach yield xs k) as [[] k1]; [|done].
  intros H. by exists k1.
Qed.

Section Scan.
Variable ext : Extern.
Variables (verb : string) (cmdStr : string -> string) (what : string).
Variable emit : list RedisValue -> K -> bool * K.
Variable out : list RedisValue -> list RedisValue.
Hypothesis parses : forall cursor, exists cmd, Parse ext (cmdStr cursor) None = inr cmd.
Hypothesis emits : forall vals k, emit vals k = yieldEach yield (out vals) k.

#[local] Abbreviation body := (scanBody ext yield verb cmdStr what emit).

Lemma scanBody_page_any cursor p rest wr cl k :
  body (cursor, mkScripted (scanReply p :: rest) wr cl, k)
  = let w := mkScripted rest (wr ++ [request ext (cmdStr cursor)]) cl in
    let (more, k') := yieldEach yield (out (snd p)) k in
    if more
    then if moreToScan p then Continue (cursorOf p, w, k') else Return (w, k')
    else Return (w, k').
Proof.
  destruct (parses cursor) as [cmd Hcmd].
  rewrite <- (request_bytes _ _ _ Hcmd). unfold scanBody.
  rewrite Hcmd, Send_scripted. unfold scanReply. cbn [script written closed].
  rewrite Receive_scripted by done. cbn [script written closed].
  rewrite emits. cbv zeta. destruct (yieldEach yield (out (snd p)) k) as [[] k'];
    cbn [negb]; [|done].
  unfold moreToScan, cursorOf. by destruct (String.eqb _ "0").
Qed.

Lemma scan_pages_any pages : forall cursor wr cl k k' m rest,
  forallb moreToScan pages = true ->
  yieldEach yield (flat_map (fun p => out (snd p)) pages) k = (true, k') ->
  loop body (length pages + m) (cursor, mkScripted (map scanReply pages ++ rest) wr cl, k)
  = loop body m
      (cursorAfter cursor pages,
       mkScripted rest
         (wr ++ map (fun c => request ext (cmdStr c)) (cursorsUsed cursor pages)) cl,
       k').
Proof.
  induction pages as [|p pages IH]; intros cursor wr cl k k' m rest Hp Hk.
  { cbn in Hk. injection Hk as ->. cbn. by rewrite !List.app_nil_r. }
  cbn [forallb] in Hp. apply andb_true_iff in Hp as [Hp Hps].
  cbn [flat_map] in Hk. apply yieldEach_app_true in Hk as (k1 & Hk1 & Hk).
  cbn [length Nat.add map app]. erewrite loop_Continue;
    [|rewrite scanBody_page_any; cbv zeta; rewrite Hk1, Hp; reflexivity].
  rewrite (IH _ _ _ _ k') by done. cbn [cursorsUsed map].
  rewrite <- !List.app_assoc. cbn [app].
  unfold cursorAfter. cbn [map]. by rewrite last_cons.
Qed.

(** The consumer stops in the page [p]: the run returns there. *)
Lemma scan_stop pages p cursor rest fuel k k1 k2 :
  forallb moreToScan pages = true ->
  yieldEach yield (flat_map (fun p => out (snd p)) pages) k = (true, k1) ->
  yieldEach yield (out (snd p)) k1 = (false, k2) ->
  (length pages < fuel)%nat ->
  loop body fuel (cursor, play (map scanReply pages ++ scanReply p :: rest), k)
  = Returned
      (mkScripted rest
         (map (fun c => request ext (cmdStr c)) (cursorsUsed cursor (pages ++ [p])))
         false, k2).
Proof.
  intros Hp Hk1 Hk2 Hfuel. apply (loop_mono _ (length pages + 1)); [lia|].
  unfold play. rewrite (scan_pages_any pages _ _ _ _ k1) by done.
  erewrite loop_Return;
    [|rewrite scanBody_page_any; cbv zeta; rewrite Hk2; reflexivity].
  by rewrite cursorsUsed_app, map_app.
Qed.

(** The consumer goes on through a chain of pages: the run returns
    behind the last of them. *)
Lemma scan_run_any pages cursor wr cl k k' fuel rest :
  chain pages = true ->
  yieldEach yield (flat_map (fun p => out (snd p)) pages) k = (true, k') ->
  (length pages <= fuel)%nat ->
  loop body fuel (cursor, mkScripted (map scanReply pages ++ rest) wr cl, k)
  = Returned
      (mkScripted rest
         (wr ++ map (fun c => request ext (cmdStr c)) (cursorsUsed cursor pages)) cl,
       k').
Proof.
  intros (init & final & -> & Hinit & Hfinal)%chain_split Hk Hfuel.
  rewrite flat_map_app in Hk. apply yieldEach_app_true in Hk as (k1 & Hk1 & Hk).
  cbn [flat_map] in Hk. rewrite List.app_nil_r in Hk.
  apply (loop_mono _ (length init + 1)).
  { rewrite List.length_app in Hfuel. simpl in Hfuel. lia. }
  rewrite map_app, <- List.app_assoc, (scan_pages_any init _ _ _ _ k1) by done.
  cbn [map app]. erewrite loop_Return;
    [|rewrite scanBody_page_any; cbv zeta; rewrite Hk, Hfinal; reflexivity].
  rewrite cursorsUsed_app, map_app. cbn [map].
  by rewrite <- !List.app_assoc.
Qed.

End Scan.

Section Ranges.
Variable ext : Extern.
Variable key : string.

Lemma page_of_stop page k1 k2 :
  yieldEach yield page k1 = (false, k2) -> nonEmpty page = true.
Proof. by destruct page. Qed.

Lemma listBody_any start page rest wr cl k :
  nonEmpty page = true ->
  listBody ext yield key (start, mkScripted (arrayReply page :: rest) wr cl, k)
  = let w := mkScripted rest (wr ++ [request ext (lrangeLine key start)]) cl in
    let (more, k') := yieldEach yield page k in
    if more then Continue (add start 100, w, k') else Return (w, k').
Proof.
  intros Hne. destruct (lrange_parses ext key start) as [cmd Hcmd].
  rewrite <- (request_bytes _ _ _ Hcmd). unfold listBody.
  fold (lrangeLine key start).
  rewrite Hcmd, Send_scripted. unfold arrayReply. cbn [script written closed].
  rewrite Receive_scripted by done. cbn [script written closed].
  unfold nonEmpty in Hne. apply negb_true_iff in Hne. rewrite Hne.
  cbv zeta. by destruct (yieldEach yield page k) as [[] k'].
Qed.

Lemma list_pages_any pages : forall start wr cl k k' m rest,
  forallb nonEmpty pages = true ->
  yieldEach yield (concat pages) k = (true, k') ->
  loop (listBody ext yield key) (length pages + m)
    (start, mkScripted (map arrayReply pages ++ rest) wr cl, k)
  = loop (listBody ext yield key) m
      (startAfter start pages,
       mkScripted rest
         (wr ++ map (fun s => request ext (lrangeLine key s)) (startsUsed start pages)) cl,
       k').
Proof.
  induction pages as [|p pages IH]; intros start wr cl k k' m rest Hp Hk.
  { cbn in Hk. injection Hk as ->. cbn. by rewrite !List.app_nil_r. }
  cbn [forallb] in Hp. apply andb_true_iff in Hp as [Hp Hps].
  cbn [concat] in Hk. apply yieldEach_app_true in Hk as (k1 & Hk1 & Hk).
  cbn [length Nat.add map app]. erewrite loop_Continue;
    [|rewrite listBody_any by done; cbv zeta; rewrite Hk1; reflexivity].
  rewrite (IH _ _ _ _ k') by done. cbn [startsUsed map].
  rewrite <- !List.app_assoc. done.
Qed.

Lemma startsUsed_app pages : forall start final,
  startsUsed start (pages ++ [final])
  = startsUsed start pages ++ [startAfter start pages].
Proof.
  induction pages as [|p pages IH]; intros start final; [done|].
  cbn [app startsUsed]. by rewrite IH.
Qed.

Lemma list_stop pages page rest fuel k k1 k2 :
  forallb nonEmpty pages = true ->
  yieldEach yield (concat pages) k = (true, k1) ->
  yieldEach yield page k1 = (false, k2) ->
  (length pages < fuel)%nat ->
  SafeList ext yield key fuel (play (map arrayReply pages ++ arrayReply page :: rest)) k
  = Returned
      (mkScripted rest
         (map (fun s => request ext (lrangeLine key s)) (startsUsed 0 (pages ++ [page])))
         false, k2).
Proof.
  intros Hp Hk1 Hk2 Hfuel. unfold SafeList.
  apply (loop_mono _ (length pages + 1)); [lia|].
  unfold play. rewrite (list_pages_any pages _ _ _ _ k1) by done.
  erewrite loop_Return;
    [|rewrite listBody_any by (by eapply page_of_stop); cbv zeta;
      rewrite Hk2; reflexivity].
  by rewrite startsUsed_app, map_app.
Qed.

Lemma streamBody_any cursor page rest wr cl k :
  nonEmpty page = true ->
  streamBody ext yield key (cursor, mkScripted (arrayReply page :: rest) wr cl, k)
  = let w := mkScripted rest (wr ++ [request ext (xrangeLine key cursor)]) cl in
    let (more, k') := yieldEach yield page k in
    if more then
      match lastID page with
      | Some id => Continue ("(" +:+ id, w, k')
      | None =>
          Return (w, snd (yield (RedisError "unexpected XRANGE entry format") k'))
      end
    else Return (w, k').
Proof.
  intros Hne. destruct (xrange_parses ext key cursor) as [cmd Hcmd].
  rewrite <- (request_bytes _ _ _ Hcmd). unfold streamBody.
  fold (xrangeLine key cursor).
  rewrite Hcmd, Send_scripted. unfold arrayReply. cbn [script written closed].
  rewrite Receive_scripted by done. cbn [script written closed].
  unfold nonEmpty in Hne. apply negb_true_iff in Hne. rewrite Hne.
  cbv zeta. destruct (yieldEach yield page k) as [[] k']; cbn [negb]; [|done].
  unfold lastID.
  by destruct (last page) as [[| | |[|id fields]| |]|].
Qed.

Lemma stream_pages_any pages : forall cursor wr cl k k' m rest,
  forallb entryPage pages = true ->
  yieldEach yield (concat pages) k = (true, k') ->
  loop (streamBody ext yield key) (length pages + m)
    (cursor, mkScripted (map arrayReply pages ++ rest) wr cl, k)
  = loop (streamBody ext yield key) m
      (streamCursorAfter cursor pages,
       mkScripted rest
         (wr ++ map (fun c => request ext (xrangeLine key c))
                  (streamCursors cursor pages)) cl,
       k').
Proof.
  induction pages as [|p pages IH]; intros cursor wr cl k k' m rest Hp Hk.
  { cbn in Hk. injection Hk as ->. cbn. by rewrite !List.app_nil_r. }
  cbn [forallb] in Hp. apply andb_true_iff in Hp as [Hp Hps].
  destruct (entryPage_spec p Hp) as [Hne Hid].
  cbn [concat] in Hk. apply yieldEach_app_true in Hk as (k1 & Hk1 & Hk).
  cbn [length Nat.add map app]. erewrite loop_Continue;
    [|rewrite streamBody_any by done; cbv zeta; rewrite Hk1, Hid; reflexivity].
  fold (nextCursor p). rewrite (IH _ _ _ _ k') by done.
  cbn [streamCursors map].
  rewrite <- !List.app_assoc. unfold streamCursorAfter. cbn [map].
  by rewrite last_cons.
Qed.

Lemma stream_stop pages page rest fuel k k1 k2 :
  forallb entryPage pages = true ->
  yieldEach yield (concat pages) k = (true, k1) ->
  yieldEach yield page k1 = (false, k2) ->
  (length pages < fuel)%nat ->
  SafeStream ext yield key fuel (play (map arrayReply pages ++ arrayReply page :: rest)) k
  = Returned
      (mkScripted rest
         (map (fun c => request ext (xrangeLine key c))
            (streamCursors "-" (pages ++ [page])))
         false, k2).
Proof.
  intros Hp Hk1 Hk2 Hfuel. unfold SafeStream.
  apply (loop_mono _ (length pages + 1)); [lia|].
  unfold play. rewrite (stream_pages_any pages _ _ _ _ k1) by done.
  erewrite loop_Return;
    [|rewrite streamBody_any by (by eapply page_of_stop); cbv zeta;
      rewrite Hk2; reflexivity].
  by rewrite streamCursors_app, map_app.
Qed.

End Ranges.
End Consumer.

(** *** The rows of the hash view *)

Lemma hashRow_pairs fvs : forall rows,
  yieldEach hashRow (map pair fvs) rows
  = (true,
     rows ++ map (fun fv => [StringValue (fst fv); StringValue (snd fv)]) fvs).
Proof.
  induction fvs as [|[f v] fvs IH]; intros rows; cbn [map yieldEach].
  - by rewrite List.app_nil_r.
  - cbn [pair hashRow fst snd]. rewrite IH. by rewrite <- List.app_assoc.
Qed.

Lemma flat_map_pairs (pages : list (RedisValue * list (RedisValue * RedisValue))) :
  flat_map (fun p => pairUp (snd p)) (map (fun p => (fst p, flatten (snd p))) pages)
  = map pair (flat_map snd pages).
Proof.
  induction pages as [|[c fvs] pages IH]; [done|].
  cbn [map flat_map fst snd]. by rewrite IH, pairUp_flatten, map_app.
Qed.

End PagingFacts.

Import Go strconv utf8 unicode strings resp command conn mock wire.
Import registry info keyvalue views output shapes.
Import StringFacts StrconvFacts CommandFacts IterFacts ServedFacts PagingFacts.

(** X26.  [SafeList] on a list of any length: for a key the tokenizer
    leaves as it is and a list of [n] elements served slice by slice,
    it yields the [n] elements in their order and writes one LRANGE
    request for each window of a hundred that holds an element and one
    more, which is answered by the empty page that ends the loop: the
    windows start at 0, 100, ... up to the first start that is not
    below [n]. *)
Theorem SafeList_any_length
    (ext : Extern) (key : string) (l : list RedisValue) (fuel : nat) :
  plainWord key = true -> len key <= MaxInt ->
  Z.of_nat (length l) <= MaxInt - 200 ->
  ((length l + 99) / 100 < fuel)%nat ->
  SafeList (transport := server (serveList key l)) ext collect key fuel
    (mkServed [] []) []
  = Returned
      (mkServed
         (map (fun j => lrangeBytes key (100 * Z.of_nat j))
            (seq 0 (S ((length l + 99) / 100)))) [],
       l).
Proof.
  intros Hkey Hlen Hmax Hfuel. unfold SafeList.
  pose proof (Nat.div_mod_eq (length l + 99) 100) as Hdiv.
  pose proof (Nat.mod_upper_bound (length l + 99) 100 ltac:(done)) as Hmod.
  set (m := ((length l + 99) / 100)%nat) in *.
  set (r := ((length l + 99) mod 100)%nat) in *.
  apply (loop_mono _ (S m)); [lia|].
  change 0 with (100 * Z.of_nat 0) at 1.
  rewrite (served_run ext key l Hkey Hlen m 0 [] []) by lia.
  done.
Qed.

Lemma SafeList_any_length_witness :
  plainWord "mylist" = true /\ len "mylist" <= MaxInt /\
  Z.of_nat (length sampleList) <= MaxInt - 200 /\
  ((length sampleList + 99) / 100 < 4)%nat /\
  SafeList (transport := server (serveList "mylist" sampleList)) plainExtern
    collect "mylist" 4 (mkServed [] []) []
  = Returned (mkServed (map (lrangeBytes "mylist") [0; 100; 200; 300]) [],
              sampleList).
Proof.
  split; [reflexivity|]. split; [by vm_compute|]. split; [by vm_compute|].
  split; [by vm_compute|].
  apply (SafeList_any_length plainExtern "mylist" sampleList 4);
    [reflexivity | by vm_compute | by vm_compute | by vm_compute].
Defined.

(** X27.  A consumer that leaves the loop ends the paging: when the
    consumer has gone on through the pages before and says stop at an
    element of the page [p], each of the six iterators returns at once
    with the state of the consumer at that element.  The request for
    [p] is the last one written, whatever the cursor of [p] announces,
    and what follows [p] in the script is not read. *)
Theorem stop_ends_paging
    {K : Type} (yield : RedisValue -> K -> bool * K)
    (ext : Extern) (arg : string)
    (pages : list ScanPage) (p : ScanPage)
    (lists : list (list RedisValue)) (page : list RedisValue)
    (rest : list Exchange) (fuel : nat) (k k1 k2 : K) :
  (length pages < fuel)%nat -> (length lists < fuel)%nat ->
  (forallb moreToScan pages = true ->
   yieldEach yield (flat_map snd pages) k = (true, k1) ->
   yieldEach yield (snd p) k1 = (false, k2) ->
   SafeKeys ext yield arg fuel (play (map scanReply pages ++ scanReply p :: rest)) k
   = Returned
       (mkScripted rest
          (map (fun c => request ext (scanLine arg c)) (cursorsUsed "0" (pages ++ [p])))
          false, k2) /\
   SafeSets ext yield arg fuel (play (map scanReply pages ++ scanReply p :: rest)) k
   = Returned
       (mkScripted rest
          (map (fun c => request ext (keyLine "SSCAN" arg c))
             (cursorsUsed "0" (pages ++ [p])))
          false, k2) /\
   SafeSortedSets ext yield arg fuel
     (play (map scanReply pages ++ scanReply p :: rest)) k
   = Returned
       (mkScripted rest
          (map (fun c => request ext (keyLine "ZSCAN" arg c))
             (cursorsUsed "0" (pages ++ [p])))
          false, k2)) /\
  (forallb moreToScan pages = true ->
   yieldEach yield (flat_map (fun p => pairUp (snd p)) pages) k = (true, k1) ->
   yieldEach yield (pairUp (snd p)) k1 = (false, k2) ->
   SafeHash ext yield arg fuel (play (map scanReply pages ++ scanReply p :: rest)) k
   = Returned
       (mkScripted rest
          (map (fun c => request ext (keyLine "HSCAN" arg c))
             (cursorsUsed "0" (pages ++ [p])))
          false, k2)) /\
  (yieldEach yield (concat lists) k = (true, k1) ->
   yieldEach yield page k1 = (false, k2) ->
   (forallb nonEmpty lists = true ->
    SafeList ext yield arg fuel
      (play (map arrayReply lists ++ arrayReply page :: rest)) k
    = Returned
        (mkScripted rest
           (map (fun s => request ext (lrangeLine arg s))
              (startsUsed 0 (lists ++ [page])))
           false, k2)) /\
   (forallb entryPage lists = true ->
    SafeStream ext yield arg fuel
      (play (map arrayReply lists ++ arrayReply page :: rest)) k
    = Returned
        (mkScripted rest
           (map (fun c => request ext (xrangeLine arg c))
              (streamCursors "-" (lists ++ [page])))
           false, k2))).
Proof.
  intros Hfuel Hfuel'. split; [|split].
  - intros Hp Hk1 Hk2. split; [|split].
    + unfold SafeKeys.
      change (fun cursor => "SCAN " +:+ cursor +:+ " MATCH " +:+ arg +:+ " COUNT 100")
        with (scanLine arg).
      by apply (scan_stop yield ext "SCAN" (scanLine arg) "keys" (yieldEach yield) id
                  (scan_parses ext arg) ltac:(done) pages p "0" rest fuel k k1 k2).
    + unfold SafeSets.
      change (fun cursor => "SSCAN " +:+ arg +:+ " " +:+ cursor +:+ " COUNT 100")
        with (keyLine "SSCAN" arg).
      by apply (scan_stop yield ext "SSCAN" (keyLine "SSCAN" arg) "members"
                  (yieldEach yield) id
                  (fun c => key_parses ext "SSCAN" arg c eq_refl ltac:(done))
                  ltac:(done) pages p "0" rest fuel k k1 k2).
    + unfold SafeSortedSets.
      change (fun cursor => "ZSCAN " +:+ arg +:+ " " +:+ cursor +:+ " COUNT 100")
        with (keyLine "ZSCAN" arg).
      by apply (scan_stop yield ext "ZSCAN" (keyLine "ZSCAN" arg) "members"
                  (yieldEach yield) id
                  (fun c => key_parses ext "ZSCAN" arg c eq_refl ltac:(done))
                  ltac:(done) pages p "0" rest fuel k k1 k2).
  - intros Hp Hk1 Hk2. unfold SafeHash.
    change (fun cursor => "HSCAN " +:+ arg +:+ " " +:+ cursor +:+ " COUNT 100")
      with (keyLine "HSCAN" arg).
    by apply (scan_stop yield ext "HSCAN" (keyLine "HSCAN" arg) "fields"
                (yieldHash yield) pairUp
                (fun c => key_parses ext "HSCAN" arg c eq_refl ltac:(done))
                (yieldHash_pairUp yield) pages p "0" rest fuel k k1 k2).
  - intros Hk1 Hk2. split; intros Hp.
    + by apply (list_stop yield ext arg lists page rest fuel k k1 k2).
    + by apply (stream_stop yield ext arg lists page rest fuel k k1 k2).
Qed.

Lemma stop_ends_paging_witness :
  (length [(bulk "7", [bulk "a"; bulk "b"])] < 2)%nat /\
  (length (@nil (list RedisValue)) < 2)%nat /\
  forallb moreToScan [(bulk "7", [bulk "a"; bulk "b"])] = true /\
  yieldEach (upTo 3) (flat_map snd [(bulk "7", [bulk "a"; bulk "b"])]) []
  = (true, [bulk "a"; bulk "b"]) /\
  yieldEach (upTo 3) (snd (bulk "9", [bulk "c"; bulk "d"])) [bulk "a"; bulk "b"]
  = (false, [bulk "a"; bulk "b"; bulk "c"]) /\
  SafeSets plainExtern (upTo 3) "s" 2
    (play (map scanReply [(bulk "7", [bulk "a"; bulk "b"])]
           ++ scanReply (bulk "9", [bulk "c"; bulk "d"])
           :: [scanReply (bulk "0", [bulk "e"])])) []
  = Returned
      (mkScripted [scanReply (bulk "0", [bulk "e"])]
         (map (fun c => request plainExtern (keyLine "SSCAN" "s" c)) ["0"; "7"])
         false,
       [bulk "a"; bulk "b"; bulk "c"]).
Proof.
  split; [simpl; lia|]. split; [simpl; lia|]. split; [reflexivity|].
  split; [reflexivity|]. split; [reflexivity|].
  destruct (stop_ends_paging (upTo 3) plainExtern "s"
              [(bulk "7", [bulk "a"; bulk "b"])] (bulk "9", [bulk "c"; bulk "d"])
              [] [] [scanReply (bulk "0", [bulk "e"])] 2
              [] [bulk "a"; bulk "b"] [bulk "a"; bulk "b"; bulk "c"]
              ltac:(simpl; lia) ltac:(simpl; lia)) as (Hscan & _ & _).
  destruct (Hscan eq_refl eq_refl eq_refl) as (_ & Hsets & _).
  exact Hsets.
Defined.

(** X28.  The view of a hash: for a key whose type the server gives as
    [hash], [GetKeyValue] returns a sequence and reads no further; and
    [consumeHash] on that sequence, against a chain of HSCAN pages,
    returns one row of field and value for every pair of every page, in
    the order of the pages, having written TYPE and one HSCAN request
    per page. *)
Theorem hash_view_rows
    (ext : Extern) (key : string)
    (pages : list (RedisValue * list (RedisValue * RedisValue)))
    (rest : list Exchange) (fuel : nat) :
  chain (map (fun p => (fst p, flatten (snd p))) pages) = true ->
  (length pages <= fuel)%nat ->
  exists collection w,
    GetKeyValue ext key
      (play (Reply (RedisString "hash")
             :: map scanReply (map (fun p => (fst p, flatten (snd p))) pages) ++ rest))
    = Returned (mkKeyValue "hash" None (Some collection) None, w) /\
    script w
    = map scanReply (map (fun p => (fst p, flatten (snd p))) pages) ++ rest /\
    consumeHash collection fuel w
    = Returned
        (mkScripted rest
           (request ext ("TYPE " +:+ key)
            :: map (fun c => request ext (keyLine "HSCAN" key c))
                 (cursorsUsed "0" (map (fun p => (fst p, flatten (snd p))) pages)))
           false,
         (["Field"; "Value"],
          map (fun fv => [StringValue (fst fv); StringValue (snd fv)])
            (flat_map snd pages))).
Proof.
  intros Hchain Hfuel. unfold GetKeyValue, play.
  destruct (Parse_verb ext "TYPE" key eq_refl ltac:(done)) as [typeCmd HT].
  change ("TYPE" +:+ " " +:+ key) with ("TYPE " +:+ key) in HT.
  rewrite HT, Send_scripted. cbn [script written closed].
  rewrite Receive_scripted by done. cbn [script written closed app].
  change (String.eqb "hash" "string") with false.
  change (String.eqb "hash" "list") with false.
  change (String.eqb "hash" "set") with false.
  change (String.eqb "hash" "zset") with false.
  change (String.eqb "hash" "hash") with true. cbv iota.
  eexists _, _. split; [reflexivity|]. split; [reflexivity|].
  unfold consumeHash, SafeHash.
  change (fun cursor => "HSCAN " +:+ key +:+ " " +:+ cursor +:+ " COUNT 100")
    with (keyLine "HSCAN" key).
  rewrite (scan_run_any hashRow ext "HSCAN" (keyLine "HSCAN" key) "fields"
             (yieldHash hashRow) pairUp
             (fun c => key_parses ext "HSCAN" key c eq_refl ltac:(done))
             (yieldHash_pairUp hashRow) _ "0" _ false []
             (map (fun fv => [StringValue (fst fv); StringValue (snd fv)])
                (flat_map snd pages)) fuel rest Hchain).
  - by rewrite (request_bytes ext _ _ HT).
  - by rewrite flat_map_pairs, hashRow_pairs.
  - by rewrite length_map.
Qed.

Lemma hash_view_rows_witness :
  chain (map (fun p => (fst p, flatten (snd p)))
           [(bulk "7", [(bulk "f1", bulk "v1"); (bulk "f2", bulk "v2")]);
            (bulk "0", [(bulk "f3", bulk "v3")])]) = true /\
  (length [(bulk "7", [(bulk "f1", bulk "v1"); (bulk "f2", bulk "v2")]);
           (bulk "0", [(bulk "f3", bulk "v3")])] <= 2)%nat /\
  exists collection w w',
    GetKeyValue plainExtern "h"
      (play [Reply (RedisString "hash");
             scanReply (bulk "7", [bulk "f1"; bulk "v1"; bulk "f2"; bulk "v2"]);
             scanReply (bulk "0", [bulk "f3"; bulk "v3"])])
    = Returned (mkKeyValue "hash" None (Some collection) None, w) /\
    consumeHash collection 2 w
    = Returned (w', (["Field"; "Value"], [["f1"; "v1"]; ["f2"; "v2"]; ["f3"; "v3"]])).
Proof.
  split; [reflexivity|]. split; [simpl; lia|].
  destruct (hash_view_rows plainExtern "h"
              [(bulk "7", [(bulk "f1", bulk "v1"); (bulk "f2", bulk "v2")]);
               (bulk "0", [(bulk "f3", bulk "v3")])] [] 2 eq_refl ltac:(simpl; lia))
    as (collection & w & Hget & _ & Hrows).
  exists collection, w. eexists. split; [exact Hget|exact Hrows].
Defined.

Module ViewFacts.
Import Go strconv utf8 unicode strings resp command conn mock wire.
Import registry info keyvalue views output shapes.
Import StringFacts StrconvFacts CommandFacts IterFacts ServedFacts.
Import ClientFacts PagingFacts.

(** *** The loops of the consumers on values that are no errors *)

Lemma listRow_rows good : forall (i : nat) rows,
  forallb (fun v => negb (isError v)) good = true ->
  Z.of_nat (i + length good) <= MaxInt ->
  yieldEach listRow good (Z.of_nat i, rows)
  = (true,
     (Z.of_nat (i + length good),
      rows ++ zip_with (fun j v => [Itoa (Z.of_nat j); StringValue v])
                (seq (S i) (length good)) good)).
Proof.
  induction good as [|v good IH]; intros i rows Hgood Hmax.
  { cbn. by rewrite Nat.add_0_r, List.app_nil_r. }
  cbn [forallb] in Hgood. apply andb_true_iff in Hgood as [Hv Hgood].
  cbn [length] in Hmax.
  assert (Hstep : listRow v (Z.of_nat i, rows)
                  = (true, (Z.of_nat (S i),
                            rows ++ [[Itoa (Z.of_nat (S i)); StringValue v]]))).
  { unfold listRow.
    rewrite add_small by (unfold MinInt, MaxInt in *; lia).
    replace (Z.of_nat i + 1) with (Z.of_nat (S i)) by lia.
    by destruct v. }
  cbn [yieldEach]. rewrite Hstep, IH by (done || lia).
  cbn [length seq zip_with]. rewrite <- List.app_assoc.
  by replace (S i + length good)%nat with (i + S (length good))%nat by lia.
Qed.

Lemma setRow_rows good : forall rows,
  forallb (fun v => negb (isError v)) good = true ->
  yieldEach setRow good rows
  = (true, rows ++ map (fun v => [StringValue v]) good).
Proof.
  induction good as [|v good IH]; intros rows Hgood.
  { cbn. by rewrite List.app_nil_r. }
  cbn [forallb] in Hgood. apply andb_true_iff in Hgood as [Hv Hgood].
  assert (Hstep : setRow v rows = (true, rows ++ [[StringValue v]])) by by destruct v.
  cbn [yieldEach map]. rewrite Hstep, IH by done. by rewrite <- List.app_assoc.
Qed.

Lemma hashRow_rows good : forall rows,
  forallb (fun v => negb (isError v)) good = true ->
  yieldEach hashRow good rows
  = (true,
     rows ++ flat_map
               (fun v =>
                  match v with
                  | RedisArray (field :: value :: _) =>
                      [[StringValue field; StringValue value]]
                  | _ => []
                  end) good).
Proof.
  induction good as [|v good IH]; intros rows Hgood.
  { cbn. by rewrite List.app_nil_r. }
  cbn [forallb] in Hgood. apply andb_true_iff in Hgood as [Hv Hgood].
  cbn [yieldEach flat_map].
  destruct v as [| | |[|field [|value more]]| |]; try done;
    cbn [hashRow]; rewrite IH by done; by rewrite <- ?List.app_assoc.
Qed.

Lemma streamRow_rows good : forall rows,
  forallb (fun v => negb (isError v)) good = true ->
  yieldEach streamRow good rows
  = (true,
     rows ++ flat_map
               (fun v =>
                  match v with
                  | RedisArray (id :: fields :: _) =>
                      [[StringValue id; formatStreamFields fields]]
                  | _ => []
                  end) good).
Proof.
  induction good as [|v good IH]; intros rows Hgood.
  { cbn. by rewrite List.app_nil_r. }
  cbn [forallb] in Hgood. apply andb_true_iff in Hgood as [Hv Hgood].
  cbn [yieldEach flat_map].
  destruct v as [| | |[|id [|fields more]]| |]; try done;
    cbn [streamRow]; rewrite IH by done; by rewrite <- ?List.app_assoc.
Qed.

Lemma sortedSetRow_member v pending rows :
  isError v = false ->
  sortedSetRow v (pending, false, rows) = (true, (StringValue v, true, rows)).
Proof. by destruct v. Qed.

Lemma sortedSetRow_score v pending rows :
  isError v = false ->
  sortedSetRow v (pending, true, rows)
  = (true, (pending, false, rows ++ [[pending; StringValue v]])).
Proof. by destruct v. Qed.

Lemma sortedSetRow_rows n : forall good pending rows,
  (length good <= n)%nat ->
  forallb (fun v => negb (isError v)) good = true ->
  exists pending' hasPending',
    yieldEach sortedSetRow good (pending, false, rows)
    = (true,
       (pending', hasPending',
        rows ++ map (fun v =>
                       match v with
                       | RedisArray [member; score] =>
                           [StringValue member; StringValue score]
                       | _ => []
                       end) (pairUp good))).
Proof.
  induction n as [|n IH]; intros good pending rows Hn Hgood.
  { destruct good; [|simpl in Hn; lia]. cbn. rewrite List.app_nil_r. by eexists _, _. }
  destruct good as [|member [|score good]].
  - cbn. rewrite List.app_nil_r. by eexists _, _.
  - cbn [forallb] in Hgood. apply andb_true_iff in Hgood as [Hm%negb_true_iff _].
    cbn [yieldEach pairUp map]. rewrite sortedSetRow_member by done.
    rewrite List.app_nil_r. by eexists _, _.
  - cbn [forallb] in Hgood.
    apply andb_true_iff in Hgood as [Hm%negb_true_iff Hgood].
    apply andb_true_iff in Hgood as [Hs%negb_true_iff Hgood].
    cbn [yieldEach pairUp map]. rewrite sortedSetRow_member by done.
    rewrite sortedSetRow_score by done.
    destruct (IH good (StringValue member)
                (rows ++ [[StringValue member; StringValue score]])
                ltac:(simpl in Hn; lia) Hgood) as (p' & h' & Heq).
    exists p', h'. etransitivity; [exact Heq|]. by rewrite <- List.app_assoc.
Qed.

(** *** What [writeValueAsync] writes *)

Lemma writeValueAsync_scalar hint v :
  arrayShape v = false -> writeValueAsync hint v = outputText v.
Proof. by destruct v. Qed.

Lemma writeValueAsync_pair x y vs :
  writeValueAsync "hash" (RedisArray (x :: y :: vs))
  = writeValueAsync "hash" x +:+ "=" +:+ writeValueAsync "hash" y +:+ String LF ""
    +:+ writeValueAsync "hash" (RedisArray vs).
Proof. reflexivity. Qed.

Lemma writeValueAsync_line hint x vs :
  hint <> "hash" ->
  writeValueAsync hint (RedisArray (x :: vs))
  = writeValueAsync hint x +:+ String LF "" +:+ writeValueAsync hint (RedisArray vs).
Proof.
  intros Hhint. apply String.eqb_neq in Hhint.
  change (writeValueAsync hint (RedisArray (x :: vs)))
    with (writeValueAsync hint x +:+
          (if String.eqb hint "hash" then
             match vs with
             | y :: vs'' =>
                 "=" +:+ writeValueAsync hint y +:+ String LF ""
                 +:+ writeValueAsync hint (RedisArray vs'')
             | [] => String LF ""
             end
           else String LF "" +:+ writeValueAsync hint (RedisArray vs))).
  by rewrite Hhint.
Qed.

Lemma hash_lines fvs :
  forallb (fun fv => negb (arrayShape (fst fv)) && negb (arrayShape (snd fv))) fvs
  = true ->
  writeValueAsync "hash" (RedisArray (flatten fvs))
  = String.concat ""
      (map (fun fv => outputText (fst fv) +:+ "=" +:+ outputText (snd fv)
                      +:+ String LF "") fvs).
Proof.
  induction fvs as [|[f v] fvs IH]; intros Hfvs; [done|].
  cbn [forallb fst snd] in Hfvs. apply andb_true_iff in Hfvs as [Hfv Hfvs].
  apply andb_true_iff in Hfv as [Hf%negb_true_iff Hv%negb_true_iff].
  change (flatten ((f, v) :: fvs)) with (f :: v :: flatten fvs).
  rewrite writeValueAsync_pair, IH by done. cbn [map fst snd].
  rewrite concat_cons, !writeValueAsync_scalar by done.
  by rewrite !app_assoc.
Qed.

Lemma plain_lines hint fvs :
  hint <> "hash" ->
  forallb (fun fv => negb (arrayShape (fst fv)) && negb (arrayShape (snd fv))) fvs
  = true ->
  writeValueAsync hint (RedisArray (flatten fvs))
  = String.concat ""
      (map (fun fv => outputText (fst fv) +:+ String LF "" +:+ outputText (snd fv)
                      +:+ String LF "") fvs).
Proof.
  intros Hhint. induction fvs as [|[f v] fvs IH]; intros Hfvs; [done|].
  cbn [forallb fst snd] in Hfvs. apply andb_true_iff in Hfvs as [Hfv Hfvs].
  apply andb_true_iff in Hfv as [Hf%negb_true_iff Hv%negb_true_iff].
  change (flatten ((f, v) :: fvs)) with (f :: v :: flatten fvs).
  rewrite !writeValueAsync_line, IH by done. cbn [map fst snd].
  rewrite concat_cons, !writeValueAsync_scalar by done.
  by rewrite !app_assoc.
Qed.

Lemma pair_lines fvs : forall file,
  forallb (fun fv => negb (arrayShape (fst fv)) && negb (arrayShape (snd fv))) fvs
  = true ->
  yieldEach (fun value file => (true, file +:+ writeValueAsync "hash" value))
    (map pair fvs) file
  = (true,
     file +:+ String.concat ""
                (map (fun fv => outputText (fst fv) +:+ "=" +:+ outputText (snd fv)
                                +:+ String LF "") fvs)).
Proof.
  induction fvs as [|[f v] fvs IH]; intros file Hfvs.
  { cbn [map yieldEach String.concat]. by rewrite app_nil_r. }
  cbn [forallb fst snd] in Hfvs. apply andb_true_iff in Hfvs as [Hfv Hfvs].
  apply andb_true_iff in Hfv as [Hf%negb_true_iff Hv%negb_true_iff].
  cbn [map yieldEach]. rewrite IH by done. cbn [map fst snd].
  unfold pair. cbn [fst snd]. rewrite writeValueAsync_pair.
  change (writeValueAsync "hash" (RedisArray [])) with "".
  rewrite (app_nil_r (String LF "")).
  rewrite concat_cons, !writeValueAsync_scalar by done.
  by rewrite !app_assoc.
Qed.

End ViewFacts.

Import Go strconv utf8 unicode strings resp command conn mock wire.
Import registry info keyvalue views output shapes.
Import StringFacts StrconvFacts CommandFacts IterFacts ServedFacts.
Import ClientFacts PagingFacts ViewFacts.

(** X29.  The views show nothing of an error: on a sequence that yields
    values that are no errors, then an error, then whatever, each of
    the five consumers returns the rows of the values before the error
    and nothing of the error or of what follows it.  [consumeList]
    numbers its rows from 1; [consumeSet] has a row for every value;
    [consumeHash] and [consumeStream] have a row for every array of two
    elements or more and pass over the other values; and
    [consumeSortedSet] pairs the values two by two, member and score,
    and shows nothing of a last member without a score. *)
Theorem consumers_stop_at_error
    {W : Type} (good rest : list RedisValue) (msg : string) (fuel : nat) (w : W) :
  forallb (fun v => negb (isError v)) good = true ->
  Z.of_nat (length good) <= MaxInt ->
  consumeList (ofSlice (good ++ RedisError msg :: rest)) fuel w
  = Returned
      (w, (["#"; "Value"],
           zip_with (fun j v => [Itoa (Z.of_nat j); StringValue v])
             (seq 1 (length good)) good)) /\
  consumeSet (ofSlice (good ++ RedisError msg :: rest)) fuel w
  = Returned (w, (["Member"], map (fun v => [StringValue v]) good)) /\
  consumeHash (ofSlice (good ++ RedisError msg :: rest)) fuel w
  = Returned
      (w, (["Field"; "Value"],
           flat_map
             (fun v =>
                match v with
                | RedisArray (field :: value :: _) =>
                    [[StringValue field; StringValue value]]
                | _ => []
                end) good)) /\
  consumeSortedSet (ofSlice (good ++ RedisError msg :: rest)) fuel w
  = Returned
      (w, (["Member"; "Score"],
           map (fun v =>
                  match v with
                  | RedisArray [member; score] =>
                      [StringValue member; StringValue score]
                  | _ => []
                  end) (pairUp good))) /\
  consumeStream (ofSlice (good ++ RedisError msg :: rest)) fuel w
  = Returned
      (w, (["ID"; "Data"],
           flat_map
             (fun v =>
                match v with
                | RedisArray (id :: fields :: _) =>
                    [[StringValue id; formatStreamFields fields]]
                | _ => []
                end) good)).
Proof.
  intros Hgood Hmax.
  unfold consumeList, consumeSet, consumeHash, consumeSortedSet, consumeStream,
    ofSlice.
  rewrite !yieldEach_app.
  change 0 with (Z.of_nat 0).
  pose proof (listRow_rows good 0 [] Hgood ltac:(simpl; lia)) as Hlist.
  pose proof (setRow_rows good [] Hgood) as Hset.
  pose proof (hashRow_rows good [] Hgood) as Hhash.
  pose proof (streamRow_rows good [] Hgood) as Hstream.
  destruct (sortedSetRow_rows (length good) good "" [] ltac:(done) Hgood)
    as (p' & h' & Hzset).
  unfold Rows in *. rewrite Hlist, Hset, Hhash, Hstream, Hzset.
  done.
Qed.

Lemma consumers_stop_at_error_witness :
  forallb (fun v => negb (isError v)) [bulk "a"; bulk "1"; bulk "b"] = true /\
  Z.of_nat (length [bulk "a"; bulk "1"; bulk "b"]) <= MaxInt /\
  consumeList (W := unit)
    (ofSlice ([bulk "a"; bulk "1"; bulk "b"] ++ RedisError "ERR gone" :: [bulk "2"]))
    0 tt
  = Returned (tt, (["#"; "Value"], [["1"; "a"]; ["2"; "1"]; ["3"; "b"]])) /\
  consumeSortedSet (W := unit)
    (ofSlice ([bulk "a"; bulk "1"; bulk "b"] ++ RedisError "ERR gone" :: [bulk "2"]))
    0 tt
  = Returned (tt, (["Member"; "Score"], [["a"; "1"]])).
Proof.
  split; [reflexivity|]. split; [by vm_compute|].
  destruct (consumers_stop_at_error (W := unit) [bulk "a"; bulk "1"; bulk "b"]
              [bulk "2"] "ERR gone" 0 tt eq_refl ltac:(by vm_compute))
    as (Hlist & _ & _ & Hzset & _).
  split; [exact Hlist|exact Hzset].
Defined.

(** X30.  The export of a hash: under the hint [hash] a flat array of
    fields and values that are no arrays, as HGETALL replies it, is
    written as one line [field=value] for every pair, and so is the
    sequence of the pairs that [SafeHash] yields: the two give the same
    file.  Under any other hint the flat array is written with a line
    for every field and a line for every value.  When the file cannot
    be created, the error of the creation is returned and nothing is
    written. *)
Theorem export_hash_lines
    {W : Type} (fvs : list (RedisValue * RedisValue)) (hint : string)
    (fuel : nat) (w : W) :
  forallb (fun fv => negb (arrayShape (fst fv)) && negb (arrayShape (snd fv))) fvs
  = true ->
  ExportAsync None (Some (RedisArray (flatten fvs))) None "hash" fuel w
  = Returned
      (w, (None,
           String.concat ""
             (map (fun fv => outputText (fst fv) +:+ "=" +:+ outputText (snd fv)
                             +:+ String LF "") fvs))) /\
  ExportAsync None None (Some (ofSlice (map pair fvs))) "hash" fuel w
  = ExportAsync None (Some (RedisArray (flatten fvs))) None "hash" fuel w /\
  (hint <> "hash" ->
   ExportAsync None (Some (RedisArray (flatten fvs))) None hint fuel w
   = Returned
       (w, (None,
            String.concat ""
              (map (fun fv => outputText (fst fv) +:+ String LF ""
                              +:+ outputText (snd fv) +:+ String LF "") fvs)))) /\
  (forall err v values,
     ExportAsync (Some err) v values hint fuel w = Returned (w, (Some err, ""))).
Proof.
  intros Hfvs. unfold ExportAsync, ofSlice.
  rewrite hash_lines, pair_lines by done. cbn [snd String.append].
  split; [done|]. split; [done|]. split; [|done].
  intros Hhint. by rewrite plain_lines.
Qed.

Lemma export_hash_lines_witness :
  forallb (fun fv => negb (arrayShape (fst fv)) && negb (arrayShape (snd fv)))
    [(bulk "name", bulk "Ann"); (bulk "age", RedisInteger 41)] = true /\
  ExportAsync (W := unit) None
    (Some (RedisArray [bulk "name"; bulk "Ann"; bulk "age"; RedisInteger 41]))
    None "hash" 0 tt
  = Returned (tt, (None, "name=Ann" +:+ String LF "" +:+ "age=41" +:+ String LF "")) /\
  ExportAsync (W := unit) None None
    (Some (ofSlice [RedisArray [bulk "name"; bulk "Ann"];
                    RedisArray [bulk "age"; RedisInteger 41]]))
    "hash" 0 tt
  = Returned (tt, (None, "name=Ann" +:+ String LF "" +:+ "age=41" +:+ String LF "")).
Proof.
  split; [reflexivity|].
  destruct (export_hash_lines (W := unit)
              [(bulk "name", bulk "Ann"); (bulk "age", RedisInteger 41)] "hash" 0 tt
              eq_refl) as (Hflat & Hpairs & _).
  split; [exact Hflat|]. etransitivity; [exact Hpairs|exact Hflat].
Defined.

